(** * Pidentify curve fitting (fit.cpp): model library, ECDF construction,
    per-class fitter and class scheduler.

    Number model.  A C++ [double] is read as a real number ([R]): the
    model library gives the value of each formula, which is what the
    program computes, up to rounding, as long as no intermediate result
    leaves the range of [double].  Module [Ieee] evaluates the shape
    functions, [sech] and the two gradient evaluators built on [exp] over
    doubles that can be infinite or NaN, for the inputs at which an
    overflow changes what the program returns; the lemmas named [_fin]
    relate the two readings.  Integer sub-expressions keep their integer
    semantics (the literal [1/2] of [gudermannian_fd] is an [int]
    division and is embedded with [Z.quot]).  Sizes and indices
    ([size_t]) are [nat]; no vector of the program is long enough for a
    64-bit wrap-around. *)

From stdpp Require Import gmap strings list fin_maps.
From Stdlib Require Import Reals Lra Psatz.

Local Open Scope R_scope.

(** ** Coefficient and sample arrays

    The callbacks receive [real_1d_array c] and [real_1d_array x] and only
    ever read [c[0]], [c[1]] and [x[0]]: [c] is a record of its two cells
    and the sample point is its single cell. *)

Record coef : Type := Coef { c_0 : R; c_1 : R }.

(** A callback of kind [_fd] assigns [func], [grad[0]] and [grad[1]]. *)
Record fd_out : Type := FdOut { func : R; grad_0 : R; grad_1 : R }.

(** C++ [int / int]: truncating division; the quotient is then promoted
    to [double] by the multiplication it stands in. *)
Definition int_div (a b : Z) : R := IZR (Z.quot a b).

(** ** Model library (fit.cpp, lines 14-105) *)

(* helper function secant *)
Definition sech (x : R) : R := 1 / cosh x.

(* logistic function *)
Definition logistic (k alpha x : R) : R :=
  1 / (1 + exp (- k * (x - alpha))).

Definition logistic_f (c : coef) (x : R) : R :=
  1 - logistic (c_0 c) (c_1 c) x.

Definition logistic_fd (c : coef) (x : R) : fd_out :=
  {| func := 1 - logistic (c_0 c) (c_1 c) x;
     grad_0 := - (((x - c_1 c) * exp (c_0 c * (c_1 c - x)))
                  / (exp (c_0 c * (c_1 c - x)) + 1)
                  * (exp (c_0 c * (c_1 c - x)) + 1));
     grad_1 := c_0 c * exp (c_0 c * (c_1 c - x))
               / (exp (c_0 c * (c_1 c - x)) + 1)
               * (exp (c_0 c * (c_1 c - x))) |}.

(* hyperbolic tangent function *)
Definition hyperbolic_tangent (k alpha x : R) : R :=
  ((exp (k * (x - alpha)) - exp (- k * (x - alpha)))
   / (exp (k * (x - alpha)) + exp (- k * (x - alpha))) + 1) / 2.

Definition hyperbolic_f (c : coef) (x : R) : R :=
  1 - hyperbolic_tangent (c_0 c) (c_1 c) x.

Definition hyperbolic_fd (c : coef) (x : R) : fd_out :=
  {| func := 1 - hyperbolic_tangent (c_0 c) (c_1 c) x;
     grad_0 := - (2 * (x - c_1 c) * exp (2 * c_0 c * (x - c_1 c)))
               / ((exp (2 * c_0 c * (x - c_1 c)) + 1)
                  * (exp (2 * c_0 c * (x - c_1 c)) + 1));
     grad_1 := (2 * c_0 c * exp (2 * c_0 c * (x - c_1 c)))
               / ((exp (2 * c_0 c * (x - c_1 c)) + 1)
                  * (exp (2 * c_0 c * (x - c_1 c)) + 1)) |}.

(* arctangent function *)
Definition arctangent (k alpha x : R) : R :=
  (atan (k * (x - alpha)) + 1) / 2.

Definition arctangent_f (c : coef) (x : R) : R :=
  1 - arctangent (c_0 c) (c_1 c) x.

Definition arctangent_fd (c : coef) (x : R) : fd_out :=
  {| func := 1 - arctangent (c_0 c) (c_1 c) x;
     grad_0 := - ((x - c_1 c)
                  / (2 * (c_0 c * c_0 c * (x - c_1 c) * (x - c_1 c) + 1)));
     grad_1 := - (c_0 c
                  / (2 * (c_0 c * c_0 c * (x - c_1 c) * (x - c_1 c) + 1))) |}.

(* gudermannian function *)
Definition gudermannian (k alpha x : R) : R :=
  ((2 * atan (tanh (k * (x - alpha) / 2))) + 1) / 2.

Definition gudermannian_f (c : coef) (x : R) : R :=
  1 - gudermannian (c_0 c) (c_1 c) x.

Definition gudermannian_fd (c : coef) (x : R) : fd_out :=
  {| func := 1 - gudermannian (c_0 c) (c_1 c) x;
     grad_0 := - ((x - c_1 c)
                  * sech (int_div 1 2 * c_0 c * (x - c_1 c))
                  * sech (int_div 1 2 * c_0 c * (x - c_1 c)))
               / (2 * ((tanh (int_div 1 2 * c_0 c * (x - c_1 c))
                        * tanh (int_div 1 2 * c_0 c * (x - c_1 c)) + 1)));
     grad_1 := c_0 c
               * sech (int_div 1 2 * c_0 c * (x - c_1 c))
               * sech (int_div 1 2 * c_0 c * (x - c_1 c))
               / (2 * (tanh (int_div 1 2 * c_0 c * (x - c_1 c))
                       * tanh (int_div 1 2 * c_0 c * (x - c_1 c)) + 1)) |}.

(* simple algebraic function *)
Definition algebraic (k alpha x : R) : R :=
  let term := k * (x - alpha) in
  ((k * (x - alpha)) / (sqrt (1 + term * term)) + 1) / 2.

Definition algebraic_f (c : coef) (x : R) : R :=
  1 - algebraic (c_0 c) (c_1 c) x.

Definition algebraic_fd (c : coef) (x : R) : fd_out :=
  {| func := 1 - algebraic (c_0 c) (c_1 c) x;
     grad_0 :=
       - ((x - c_1 c)
          / (2 * (sqrt ((c_0 c * c_0 c * (x - c_1 c) * (x - c_1 c) + 1)
                        * (c_0 c * c_0 c * (x - c_1 c) * (x - c_1 c) + 1)
                        * (c_0 c * c_0 c * (x - c_1 c) * (x - c_1 c) + 1)))));
     grad_1 :=
       - (c_0 c
          / (2 * (sqrt ((c_0 c * c_0 c * (x - c_1 c) * (x - c_1 c) + 1)
                        * (c_0 c * c_0 c * (x - c_1 c) * (x - c_1 c) + 1)
                        * (c_0 c * c_0 c * (x - c_1 c) * (x - c_1 c) + 1))))) |}.

(** ** Doubles with infinities and NaN

    The model library above gives the value of each formula as a real
    number, which is what the code computes as long as no intermediate
    result leaves the range of [double].  The module below evaluates the
    same expressions over doubles that can be infinite or NaN: an
    operation whose exact result exceeds [DBL_MAX] in magnitude yields an
    infinity, and infinities and NaN combine by the IEEE 754 rules.
    Rounding and underflow are not modelled (a finite result is the exact
    real number), and zero carries no sign: no divisor of the code is
    zero. *)
Module Ieee.

Inductive double : Type :=
| Fin (r : R)
| PInf
| NInf
| NaN.

(* the largest finite double, (2 - 2^-52) 2^1023 *)
Definition DBL_MAX : R := (2 - / 2 ^ 52) * 2 ^ 1023.

(** The double an operation yields when its exact result is [r]. *)
Definition overflow (r : R) : double :=
  if Rle_dec (Rabs r) DBL_MAX then Fin r
  else if Rlt_dec 0 r then PInf else NInf.

Definition opp (a : double) : double :=
  match a with
  | Fin r => Fin (- r)
  | PInf => NInf
  | NInf => PInf
  | NaN => NaN
  end.

Definition add (a b : double) : double :=
  match a, b with
  | NaN, _ | _, NaN => NaN
  | Fin r, Fin s => overflow (r + s)
  | PInf, NInf | NInf, PInf => NaN
  | PInf, _ | _, PInf => PInf
  | NInf, _ | _, NInf => NInf
  end.

Definition sub (a b : double) : double := add a (opp b).

(* an infinity times, or divided by, a finite number of the sign of [r] *)
Definition scaled (infinity : double) (r : R) : double :=
  if Rlt_dec 0 r then infinity
  else if Rlt_dec r 0 then opp infinity
  else NaN.

Definition mul (a b : double) : double :=
  match a, b with
  | NaN, _ | _, NaN => NaN
  | Fin r, Fin s => overflow (r * s)
  | Fin r, PInf | PInf, Fin r => scaled PInf r
  | Fin r, NInf | NInf, Fin r => scaled NInf r
  | PInf, PInf | NInf, NInf => PInf
  | PInf, NInf | NInf, PInf => NInf
  end.

Definition div (a b : double) : double :=
  match a, b with
  | NaN, _ | _, NaN => NaN
  | Fin r, Fin s => if Req_dec_T s 0 then scaled PInf r else overflow (r / s)
  | Fin _, (PInf | NInf) => Fin 0
  | PInf, Fin s => if Rlt_dec s 0 then NInf else PInf
  | NInf, Fin s => if Rlt_dec s 0 then PInf else NInf
  | (PInf | NInf), (PInf | NInf) => NaN
  end.

(* <math.h> *)
Definition exp (a : double) : double :=
  match a with
  | Fin r => overflow (exp r)
  | PInf => PInf
  | NInf => Fin 0
  | NaN => NaN
  end.

Definition cosh (a : double) : double :=
  match a with
  | Fin r => overflow (cosh r)
  | PInf | NInf => PInf
  | NaN => NaN
  end.

Definition tanh (a : double) : double :=
  match a with
  | Fin r => Fin (tanh r)
  | PInf => Fin 1
  | NInf => Fin (- 1)
  | NaN => NaN
  end.

Definition atan (a : double) : double :=
  match a with
  | Fin r => Fin (atan r)
  | PInf => Fin (PI / 2)
  | NInf => Fin (- (PI / 2))
  | NaN => NaN
  end.

Definition sqrt (a : double) : double :=
  match a with
  | Fin r => if Rlt_dec r 0 then NaN else Fin (sqrt r)
  | PInf => PInf
  | NInf | NaN => NaN
  end.

Declare Scope double_scope.
Delimit Scope double_scope with D.
Bind Scope double_scope with double.
Notation "a + b" := (add a b) : double_scope.
Notation "a - b" := (sub a b) : double_scope.
Notation "a * b" := (mul a b) : double_scope.
Notation "a / b" := (div a b) : double_scope.
Notation "- a" := (opp a) : double_scope.
Local Open Scope double_scope.

Record coef : Type := Coef { c_0 : double; c_1 : double }.
Record fd_out : Type := FdOut { func : double; grad_0 : double; grad_1 : double }.

(* helper function secant *)
Definition sech (x : double) : double := Fin 1 / cosh x.

(* logistic function *)
Definition logistic (k alpha x : double) : double :=
  Fin 1 / (Fin 1 + exp (- k * (x - alpha))).

Definition logistic_fd (c : coef) (x : double) : fd_out :=
  {| func := Fin 1 - logistic (c_0 c) (c_1 c) x;
     grad_0 := - (((x - c_1 c) * exp (c_0 c * (c_1 c - x)))
                  / (exp (c_0 c * (c_1 c - x)) + Fin 1)
                  * (exp (c_0 c * (c_1 c - x)) + Fin 1));
     grad_1 := c_0 c * exp (c_0 c * (c_1 c - x))
               / (exp (c_0 c * (c_1 c - x)) + Fin 1)
               * (exp (c_0 c * (c_1 c - x))) |}.

(* hyperbolic tangent function *)
Definition hyperbolic_tangent (k alpha x : double) : double :=
  ((exp (k * (x - alpha)) - exp (- k * (x - alpha)))
   / (exp (k * (x - alpha)) + exp (- k * (x - alpha))) + Fin 1) / Fin 2.

Definition hyperbolic_fd (c : coef) (x : double) : fd_out :=
  {| func := Fin 1 - hyperbolic_tangent (c_0 c) (c_1 c) x;
     grad_0 := - (Fin 2 * (x - c_1 c) * exp (Fin 2 * c_0 c * (x - c_1 c)))
               / ((exp (Fin 2 * c_0 c * (x - c_1 c)) + Fin 1)
                  * (exp (Fin 2 * c_0 c * (x - c_1 c)) + Fin 1));
     grad_1 := (Fin 2 * c_0 c * exp (Fin 2 * c_0 c * (x - c_1 c)))
               / ((exp (Fin 2 * c_0 c * (x - c_1 c)) + Fin 1)
                  * (exp (Fin 2 * c_0 c * (x - c_1 c)) + Fin 1)) |}.

(* arctangent function *)
Definition arctangent (k alpha x : double) : double :=
  (atan (k * (x - alpha)) + Fin 1) / Fin 2.

(* gudermannian function *)
Definition gudermannian (k alpha x : double) : double :=
  ((Fin 2 * atan (tanh (k * (x - alpha) / Fin 2))) + Fin 1) / Fin 2.

(* simple algebraic function *)
Definition algebraic (k alpha x : double) : double :=
  let term := k * (x - alpha) in
  ((k * (x - alpha)) / (sqrt (Fin 1 + term * term)) + Fin 1) / Fin 2.

End Ieee.

(** ** Outcomes of a C++ computation

    A computation ends normally, leaves through an [alglib::ap_error]
    carrying a message, or reads or writes a vector cell that does not
    exist (undefined behaviour: [operator[]] is unchecked). *)

Inductive outcome (A : Type) : Type :=
| Normal (a : A)
| Throws (msg : string)
| Undefined.
Arguments Normal {A} a.
Arguments Throws {A} msg.
Arguments Undefined {A}.

#[global] Instance outcome_ret : MRet outcome := fun A a => Normal a.
#[global] Instance outcome_bind : MBind outcome := fun A B k m =>
  match m with
  | Normal a => k a
  | Throws msg => Throws msg
  | Undefined => Undefined
  end.

(** [v[i]] as an rvalue and [v[i] = a], for [std::vector] and the ALGLIB
    arrays alike. *)
Definition vec_at {A : Type} (v : list A) (i : nat) : outcome A :=
  match v !! i with
  | Some a => Normal a
  | None => Undefined
  end.

Definition vec_set {A : Type} (v : list A) (i : nat) (a : A) : outcome (list A) :=
  if decide (i < length v)%nat then Normal (<[i := a]> v) else Undefined.

(** [for (size_t i = first; i < first + n; i++) body], threading the loop
    state. *)
Fixpoint for_range {State : Type} (first n : nat)
    (body : nat -> State -> outcome State) (s : State) : outcome State :=
  match n with
  | O => Normal s
  | S n' => s' ← body first s; for_range (S first) n' body s'
  end.

(** ** The solver (ALGLIB [lsfit*], external)

    One fit is the sequence [lsfitcreatewfg; lsfitsetcond; lsfitfit;
    lsfitresults].  Its arguments are gathered in one record and its
    result is either the fitted coefficients with the report's
    [wrmserror], or an [ap_error].  [fit_x] is the single column of the
    [n x 1] array [x]. *)

Record LsfitCall : Type := LsfitCallOf {
  fit_x : list R;
  fit_y : list R;
  fit_w : list R;
  fit_c : coef;
  fit_epsx : R;
  fit_maxits : Z;
  fit_func : coef -> R -> R;
  fit_grad : coef -> R -> fd_out
}.

Inductive SolverReply : Type :=
| Fitted (c : coef) (wrmserror : R)
| ApError (msg : string).

Definition Solver : Type := LsfitCall -> SolverReply.

(** Modelled from the spec: [struct FitResult] is declared in fit.h,
    which is not among the sources.  The spec's Fit Result is "a model
    name, the two fitted coefficients (k, alpha), and a scalar
    weighted-RMS error"; the fields are named as fit.cpp reads them
    ([result.c], [result.functionName], [result.wrmsError]) and ordered
    as in its initialiser lists [{c, name, rep.wrmserror}]. *)
Record FitResult : Type := FitResultOf {
  c : coef;
  functionName : string;
  wrmsError : R
}.

(** Modelled from the spec: [MODEL_STATE.bestFit] is declared in
    modelState.h, which is not among the sources.  The spec's Best-Fit
    Table is a "mapping from class name to its single best Fit Result",
    and fit.cpp stores into it with [operator[]]: a finite map keyed by
    the class name. *)
Abbreviation BestFitTable := (gmap string FitResult).

(** A fitter computation: the solver calls it issued so far (a ghost
    trace, kept to state which arguments each fit received) and its
    outcome. *)
Definition Fit (A : Type) : Type := (list LsfitCall * outcome A)%type.

#[global] Instance Fit_ret : MRet Fit := fun A a => ([], Normal a).
#[global] Instance Fit_bind : MBind Fit := fun A B k m =>
  match m with
  | (t, Normal a) => let '(t', r) := k a in (t ++ t', r)
  | (t, Throws msg) => (t, Throws msg)
  | (t, Undefined) => (t, Undefined)
  end.

Definition lift {A : Type} (m : outcome A) : Fit A := ([], m).

Definition lsfit (solver : Solver) (call : LsfitCall) : Fit (coef * R) :=
  ([call],
   match solver call with
   | Fitted c' wrmserror => Normal (c', wrmserror)
   | ApError msg => Throws msg
   end).

(** ** curveFitting (fit.cpp, lines 108-228) *)

(* real_1d_array c = "[0.367, 0.45]" *)
Definition initial_guess : coef := Coef (367 / 1000) (45 / 100).

(* lines 115-121: x.setlength(sorted_distances.size(), 1) and the copy *)
Definition load_x (sorted_distances : list R) : outcome (list R) :=
  let x := replicate (length sorted_distances) 0 in
  for_range 0 (length sorted_distances)
    (fun i x => a ← vec_at sorted_distances i; vec_set x i a) x.

(* lines 116, 123-125 *)
Definition load_y (y_values : list R) : outcome (list R) :=
  let y := replicate (length y_values) 0 in
  for_range 0 (length y_values)
    (fun i y => a ← vec_at y_values i; vec_set y i a) y.

(* lines 127-131: the weights are indexed by y_values but read
   sorted_distances *)
Definition load_w (sorted_distances y_values : list R) : outcome (list R) :=
  let w := replicate (length y_values) 0 in
  for_range 0 (length y_values)
    (fun i w => a ← vec_at sorted_distances i;
                b ← vec_at sorted_distances i;
                vec_set w i (a * b)) w.

(* lines 133-196: the five fits; [c] is both the initial guess handed to
   lsfitcreatewfg and the variable lsfitresults writes the fit into *)
Definition fit_all (solver : Solver) (x y w : list R) : Fit (list FitResult) :=
  let c := initial_guess in
  let epsx := 0 in
  let maxits := 0%Z in
  let results := [] in
  '(c, wrmserror) ← lsfit solver (LsfitCallOf x y w c epsx maxits logistic_f logistic_fd);
  let results := results ++ [FitResultOf c "Logistic function" wrmserror] in
  '(c, wrmserror) ← lsfit solver (LsfitCallOf x y w c epsx maxits hyperbolic_f hyperbolic_fd);
  let results := results ++ [FitResultOf c "hyperbolic tangent function" wrmserror] in
  '(c, wrmserror) ← lsfit solver (LsfitCallOf x y w c epsx maxits arctangent_f arctangent_fd);
  let results := results ++ [FitResultOf c "arctangent function" wrmserror] in
  '(c, wrmserror) ← lsfit solver (LsfitCallOf x y w c epsx maxits gudermannian_f gudermannian_fd);
  let results := results ++ [FitResultOf c "gudermannian function" wrmserror] in
  '(c, wrmserror) ← lsfit solver (LsfitCallOf x y w c epsx maxits algebraic_f algebraic_fd);
  let results := results ++ [FitResultOf c "simple algebraic function" wrmserror] in
  mret results.

(* lines 216-218: if (result.wrmsError < bestFit.wrmsError) bestFit = result *)
Definition keep_smaller (bestFit result : FitResult) : FitResult :=
  if Rlt_dec (wrmsError result) (wrmsError bestFit) then result else bestFit.

(* lines 213-219 *)
Definition select_best (results : list FitResult) : outcome FitResult :=
  bestFit ← vec_at results 0;
  Normal (fold_left keep_smaller results bestFit).

(** Everything [curveFitting] does before it takes the lock.  The console
    output (lines 205-211, 221-223) is not modelled. *)
Definition fit_class (solver : Solver) (sorted_distances y_values : list R)
    : Fit FitResult :=
  x ← lift (load_x sorted_distances);
  y ← lift (load_y y_values);
  w ← lift (load_w sorted_distances y_values);
  results ← fit_all solver x y w;
  lift (select_best results).

(** [MODEL_STATE.bestFit] is the Best-Fit Table; [curveFitting] is a
    transformer of it.  An exception or an out-of-range access leaves
    before line 226 is reached. *)
Definition curveFitting (solver : Solver) (sorted_distances y_values : list R)
    (className : string) (bestFit_table : BestFitTable)
    : outcome (BestFitTable) :=
  bestFit ← snd (fit_class solver sorted_distances y_values);
  Normal (<[className := bestFit]> bestFit_table).

(** ** fitClasses (fit.cpp, lines 230-267) *)

(** The arguments a thread is started with (line 251): copies of the
    augmented distances, of [y], and of the class name. *)
Record Job : Type := JobOf {
  job_class : string;
  job_x : list R;
  job_y : list R
}.

(* lines 235-247, for one entry of the map; the result is the entry's new
   vector and [y] *)
Definition ecdf_points (distances : list R) : outcome (list R * list R) :=
  let l := length distances in
  let y := replicate (l + 2) 0 in
  y ← for_range 0 l
        (fun i y => vec_set y (i + 1) (1 - INR (i + 1) / INR (l + 1))) y;
  let distances := 0 :: distances in
  y ← vec_set y 0 1;
  let distances := distances ++ [1] in
  y ← vec_set y (l + 1) 0;
  Normal (distances, y).

(* lines 234-252: the caller's map is an association list in the map's
   iteration order (its keys are distinct); it is updated in place, and
   one thread is started per entry *)
Fixpoint launch (sorted_distances : list (string * list R))
    : outcome (list (string * list R) * list Job) :=
  match sorted_distances with
  | [] => Normal ([], [])
  | (name, distances) :: rest =>
      '(distances', y) ← ecdf_points distances;
      '(rest', jobs) ← launch rest;
      Normal ((name, distances') :: rest', JobOf name distances' y :: jobs)
  end.

(** What the future of a job holds once its thread has finished. *)
Definition future_of (solver : Solver) (j : Job) : outcome () :=
  _ ← snd (fit_class solver (job_x j) (job_y j)); Normal ().

(** A console line of the catch block (lines 260-261). *)
Record ErrorReport : Type := ErrorReportOf {
  report_class : string;
  report_msg : string
}.

(** The join loop up to the [return] statement it reaches. *)
Record JoinResult : Type := JoinResultOf {
  return_value : Z;            (* the operand of that [return] *)
  joined : list string;        (* threads whose join() returned *)
  not_joined : list string;    (* threads still joinable at the return *)
  console : list ErrorReport   (* what the handler has written *)
}.

(* lines 254-266, over the threads in the iteration order of [threads];
   each carries what its future holds.  Only an ap_error is caught; the
   [return 1] of the handler leaves the loop at once. *)
Fixpoint join_loop (threads : list (string * outcome ())) : JoinResult :=
  match threads with
  | [] => JoinResultOf 0 [] [] []
  | (name, Throws msg) :: rest =>
      JoinResultOf 1 [name] (rest.*1) [ErrorReportOf name msg]
  | (name, _) :: rest =>
      let r := join_loop rest in
      JoinResultOf (return_value r) (name :: joined r) (not_joined r) (console r)
  end.

(** [fitClasses] up to the [return] statement it reaches: the updated map
    and what the join loop did.  [threads_order] is the order in which
    the map [threads] is iterated, which need not be the caller's.  How
    the call ends once the locals are destroyed is [destroy_threads]. *)
Definition fitClasses (solver : Solver) (threads_order : list Job -> list Job)
    (sorted_distances : list (string * list R))
    : outcome (list (string * list R) * JoinResult) :=
  '(sorted_distances', jobs) ← launch sorted_distances;
  let threads := (fun j => (job_class j, future_of solver j)) <$> threads_order jobs in
  Normal (sorted_distances', join_loop threads).

(** How a call of [fitClasses] ends.  A [return] destroys the local map
    [threads]; the destructor of a [std::thread] that is still joinable
    calls [std::terminate], which ends the process: the caller receives
    no value. *)
Inductive CallEnd : Type :=
| Returns (value : Z)
| Terminates.

(* the destruction of [threads] at the return statement the join loop
   reached *)
Definition destroy_threads (r : JoinResult) : CallEnd :=
  match not_joined r with
  | [] => Returns (return_value r)
  | _ :: _ => Terminates
  end.

(** ** The running threads and the Best-Fit Table

    Between the launch and the return the started threads finish one by
    one in any order.  The table is touched only under the lock, so a
    thread's effect on it is one atomic step: a fit that succeeds stores
    its best result, one that throws stores nothing. *)
Record Sched : Type := SchedOf {
  table : BestFitTable;
  running : list Job;
  finished : list (string * outcome ())
}.

Definition table_after (solver : Solver) (j : Job)
    (t : BestFitTable) : BestFitTable :=
  match curveFitting solver (job_x j) (job_y j) (job_class j) t with
  | Normal t' => t'
  | _ => t
  end.

Inductive job_step (solver : Solver) : Sched -> Sched -> Prop :=
| job_finishes (t : BestFitTable) (before after : list Job) (j : Job)
      (done : list (string * outcome ())) :
    job_step solver
      (SchedOf t (before ++ j :: after) done)
      (SchedOf (table_after solver j t) (before ++ after)
               (done ++ [(job_class j, future_of solver j)])).

Definition started (t : BestFitTable) (jobs : list Job) : Sched :=
  SchedOf t jobs [].

(** ** Vocabulary of the statements *)

(** The weights of the points [v]. *)
Definition squares (v : list R) : list R := (fun a => a * a) <$> v.

(** The survival fractions of [l] samples between the two boundary
    points. *)
Definition ecdf_y (l : nat) : list R :=
  1 :: ((fun i => 1 - INR i / INR (l + 1)) <$> seq 1 l) ++ [0].

(** [l] is the partial derivative of the residual [r] in its first
    (second) coefficient at [c], [x]. *)
Definition partial_0 (r : coef -> R -> R) (c : coef) (x l : R) : Prop :=
  derivable_pt_lim (fun k => r (Coef k (c_1 c)) x) (c_0 c) l.
Definition partial_1 (r : coef -> R -> R) (c : coef) (x l : R) : Prop :=
  derivable_pt_lim (fun alpha => r (Coef (c_0 c) alpha) x) (c_1 c) l.

(** The evaluator [fd] returns the residual [r] and its two partial
    derivatives. *)
Definition exact_gradient (r : coef -> R -> R) (fd : coef -> R -> fd_out)
    (c : coef) (x : R) : Prop :=
  func (fd c x) = r c x /\
  partial_0 r c x (grad_0 (fd c x)) /\
  partial_1 r c x (grad_1 (fd c x)).

(** The size of both partial derivatives of the Gudermannian residual at
    [k (x - alpha) / 2 = 1], up to the factor [x - alpha] or [k]. *)
Definition gudermannian_slope : R :=
  sech 1 * sech 1 / (2 * (tanh 1 * tanh 1 + 1)).

(** The five model descriptors in the order [curveFitting] fits them. *)
Definition families : list ((coef -> R -> R) * (coef -> R -> fd_out)) :=
  [ (logistic_f, logistic_fd); (hyperbolic_f, hyperbolic_fd);
    (arctangent_f, arctangent_fd); (gudermannian_f, gudermannian_fd);
    (algebraic_f, algebraic_fd) ].

Definition family_names : list string :=
  [ "Logistic function"; "hyperbolic tangent function"; "arctangent function";
    "gudermannian function"; "simple algebraic function" ]%string.

(** Each call starts from [c]; the next one starts from what the solver
    answered, and nothing follows a call that threw. *)
Fixpoint chained (solver : Solver) (c : coef) (calls : list LsfitCall) : Prop :=
  match calls with
  | [] => True
  | call :: rest =>
      fit_c call = c /\
      match solver call with
      | Fitted c' _ => chained solver c' rest
      | ApError _ => rest = []
      end
  end.

Definition same_data (x y w : list R) (call : LsfitCall) : Prop :=
  fit_x call = x /\ fit_y call = y /\ fit_w call = w.

Definition no_stopping_condition (call : LsfitCall) : Prop :=
  fit_epsx call = 0 /\ fit_maxits call = 0%Z.

(** [best] is the first result of [results] whose error is minimal, and
    it stands at index [i]. *)
Definition first_minimum (results : list FitResult) (i : nat) (best : FitResult) : Prop :=
  results !! i = Some best /\
  (forall r, r ∈ results -> wrmsError best <= wrmsError r) /\
  (forall j r, (j < i)%nat -> results !! j = Some r -> wrmsError best < wrmsError r).

Definition never_throws (th : string * outcome ()) : Prop :=
  forall msg, th.2 <> Throws msg.

(** The best fit of a job, when its fit returns. *)
Definition best_of (solver : Solver) (j : Job) : option FitResult :=
  match (fit_class solver (job_x j) (job_y j)).2 with
  | Normal best => Some best
  | _ => None
  end.

(** What holds of every state the threads of one call can reach, from
    the table [t0] and the started [jobs]. *)
Record consistent (solver : Solver) (t0 : BestFitTable)
    (jobs : list Job) (s : Sched) : Prop := {
  all_accounted :
    (job_class <$> running s) ++ (finished s).*1 ≡ₚ job_class <$> jobs;
  still_running : forall j, j ∈ running s -> j ∈ jobs;
  untouched : forall cls, cls ∉ (finished s).*1 -> table s !! cls = t0 !! cls;
  recorded : forall cls o, (cls, o) ∈ finished s ->
    exists j, j ∈ jobs /\ job_class j = cls /\ o = future_of solver j /\
              table s !! cls = table_after solver j t0 !! cls
}.

(** The future of [j] holds no exception. *)
Definition no_exception (solver : Solver) (j : Job) : Prop :=
  forall msg, future_of solver j <> Throws msg.

(** [r] is within the range of [double]. *)
Definition in_range (r : R) : Prop := Rabs r <= Ieee.DBL_MAX.

(** No intermediate result of a shape function overflows at
    [(k, alpha, x)]: the difference [x - alpha] is in range and
    [exp |k (x - alpha)| + 1] does not exceed [DBL_MAX]. *)
Definition shape_in_range (k alpha x : R) : Prop :=
  in_range (x - alpha) /\ exp (Rabs (k * (x - alpha))) + 1 <= Ieee.DBL_MAX.

(** The double is NaN or a number between [lo] and [hi]. *)
Definition nan_or_within (lo hi : R) (d : Ieee.double) : Prop :=
  d = Ieee.NaN \/ exists v, d = Ieee.Fin v /\ lo <= v <= hi.

Definition of_coef (c : coef) : Ieee.coef :=
  Ieee.Coef (Ieee.Fin (c_0 c)) (Ieee.Fin (c_1 c)).
Definition of_fd_out (o : fd_out) : Ieee.fd_out :=
  Ieee.FdOut (Ieee.Fin (func o)) (Ieee.Fin (grad_0 o)) (Ieee.Fin (grad_1 o)).

(** No intermediate result of [logistic_fd] overflows at [c], [x]. *)
Definition logistic_fd_in_range (c : coef) (x : R) : Prop :=
  let E := exp (c_0 c * (c_1 c - x)) in
  in_range (x - c_1 c) /\ in_range (c_0 c * (c_1 c - x)) /\
  E + 1 <= Ieee.DBL_MAX /\
  in_range ((x - c_1 c) * E) /\ in_range (c_0 c * E).

(** No intermediate result of [hyperbolic_fd] overflows at [c], [x]. *)
Definition hyperbolic_fd_in_range (c : coef) (x : R) : Prop :=
  let E := exp (2 * c_0 c * (x - c_1 c)) in
  shape_in_range (c_0 c) (c_1 c) x /\
  in_range (2 * c_0 c) /\ in_range (2 * c_0 c * (x - c_1 c)) /\
  in_range (2 * (x - c_1 c)) /\
  (E + 1) * (E + 1) <= Ieee.DBL_MAX /\
  in_range (2 * (x - c_1 c) * E) /\ in_range (2 * c_0 c * E).

(** Two numbers that add up to 1; two numbers in order. *)
Definition sum_is_one (a b : Ieee.double) : Prop :=
  exists ra rb, a = Ieee.Fin ra /\ b = Ieee.Fin rb /\ ra + rb = 1.
Definition number_le (a b : Ieee.double) : Prop :=
  exists ra rb, a = Ieee.Fin ra /\ b = Ieee.Fin rb /\ ra <= rb.

(** ** Solvers and inputs of the examples *)

(* moves the first coefficient by one and reports its squared distance
   to 2 *)
Definition shifting_solver : Solver := fun call =>
  Fitted (Coef (c_0 (fit_c call) + 1) (c_1 (fit_c call)))
         ((c_0 (fit_c call) - 2) * (c_0 (fit_c call) - 2)).

(* refuses a sample of exactly two points *)
Definition two_point_solver : Solver := fun call =>
  if (length (fit_x call) =? 2)%nat
  then ApError "singular"
  else Fitted (fit_c call) 0.

Definition empty_table : BestFitTable := ∅.

Definition two_classes : list (string * list R) :=
  [("A"%string, []); ("B"%string, [1 / 2])].

(* the threads [fitClasses] starts for them *)
Definition job_A : Job := JobOf "A" [0; 1] (ecdf_y 0).
Definition job_B : Job := JobOf "B" [0; 1 / 2; 1] (ecdf_y 1).

(* the thread of "B" has finished, that of "A" is running *)
Definition after_B : Sched :=
  SchedOf (table_after two_point_solver job_B empty_table) [job_A]
          [("B"%string, future_of two_point_solver job_B)].

(* both have finished, "B" first *)
Definition both_finished : Sched :=
  SchedOf (table_after two_point_solver job_A
             (table_after two_point_solver job_B empty_table)) []
          [("B"%string, future_of two_point_solver job_B);
           ("A"%string, future_of two_point_solver job_A)].

(** The scenario of the specification: distances 0.1, 0.3, 0.3, 0.5,
    0.9 of class "A". *)
Definition scenario_distances : list R := [1 / 10; 3 / 10; 3 / 10; 1 / 2; 9 / 10].
Definition scenario_x : list R := 0 :: scenario_distances ++ [1].
Definition scenario_best : FitResult :=
  FitResultOf (Coef (c_0 initial_guess + 1 + 1 + 1) (c_1 initial_guess))
              "arctangent function"
              ((c_0 initial_guess + 1 + 1 - 2) * (c_0 initial_guess + 1 + 1 - 2)).

(* the one solver call made for class "A" *)
Definition first_call_A : LsfitCall :=
  LsfitCallOf [0; 1] (ecdf_y 0) (squares [0; 1]) initial_guess 0 0 logistic_f logistic_fd.

(* both have finished, "A" first *)
Definition both_finished_A_first : Sched :=
  SchedOf (table_after two_point_solver job_B
             (table_after two_point_solver job_A empty_table)) []
          [("A"%string, future_of two_point_solver job_A);
           ("B"%string, future_of two_point_solver job_B)].

(* what the thread of "B" stores *)
Definition best_B : FitResult := FitResultOf initial_guess "Logistic function" 0.

(* an entry an earlier call left for "B" *)
Definition earlier_B : FitResult := FitResultOf (Coef 1 1) "arctangent function" 1.
Definition earlier_table : BestFitTable := {[ "B"%string := earlier_B ]}.

(** * Proofs

    ** Derivatives of the residuals

    The rules of differentiation of the Standard Library, restated for
    functions written with [fun], so that a derivative is computed by
    following the syntax of the function ([derive]) and then compared
    with the expected value ([D_val]). *)

Section Deriv.
Implicit Types (f g : R -> R) (x l : R).

Lemma D_val f x l l' : derivable_pt_lim f x l -> l = l' -> derivable_pt_lim f x l'.
Proof. intros H <-. exact H. Qed.

Lemma D_const (a : R) x : derivable_pt_lim (fun _ => a) x 0.
Proof. apply (derivable_pt_lim_const a x). Qed.

Lemma D_id x : derivable_pt_lim (fun z => z) x 1.
Proof. apply (derivable_pt_lim_id x). Qed.

Lemma D_plus f g x lf lg :
  derivable_pt_lim f x lf -> derivable_pt_lim g x lg ->
  derivable_pt_lim (fun z => f z + g z) x (lf + lg).
Proof. apply derivable_pt_lim_plus. Qed.

Lemma D_minus f g x lf lg :
  derivable_pt_lim f x lf -> derivable_pt_lim g x lg ->
  derivable_pt_lim (fun z => f z - g z) x (lf - lg).
Proof. apply derivable_pt_lim_minus. Qed.

Lemma D_opp f x lf :
  derivable_pt_lim f x lf -> derivable_pt_lim (fun z => - f z) x (- lf).
Proof. apply derivable_pt_lim_opp. Qed.

Lemma D_mult f g x lf lg :
  derivable_pt_lim f x lf -> derivable_pt_lim g x lg ->
  derivable_pt_lim (fun z => f z * g z) x (lf * g x + f x * lg).
Proof. apply derivable_pt_lim_mult. Qed.

Lemma D_div f g x lf lg :
  derivable_pt_lim f x lf -> derivable_pt_lim g x lg -> g x <> 0 ->
  derivable_pt_lim (fun z => f z / g z) x ((lf * g x - lg * f x) / (g x)²).
Proof. apply derivable_pt_lim_div. Qed.

Lemma D_comp (h : R -> R) f x lf lh :
  derivable_pt_lim f x lf -> derivable_pt_lim h (f x) lh ->
  derivable_pt_lim (fun z => h (f z)) x (lh * lf).
Proof. apply (derivable_pt_lim_comp f h). Qed.

Lemma D_exp f x lf :
  derivable_pt_lim f x lf -> derivable_pt_lim (fun z => exp (f z)) x (exp (f x) * lf).
Proof. intros H. apply (D_comp exp); [exact H | apply derivable_pt_lim_exp]. Qed.

Lemma D_atan f x lf :
  derivable_pt_lim f x lf ->
  derivable_pt_lim (fun z => atan (f z)) x (/ (1 + f x ^ 2) * lf).
Proof. intros H. apply (D_comp atan); [exact H | apply derivable_pt_lim_atan]. Qed.

Lemma D_sqrt f x lf :
  derivable_pt_lim f x lf -> 0 < f x ->
  derivable_pt_lim (fun z => sqrt (f z)) x (/ (2 * sqrt (f x)) * lf).
Proof. intros H Hp. apply (D_comp sqrt); [exact H | now apply derivable_pt_lim_sqrt]. Qed.

Lemma cosh_pos x : 0 < cosh x.
Proof. unfold cosh. pose proof (exp_pos x). pose proof (exp_pos (- x)). lra. Qed.

Lemma D_tanh_pt x : derivable_pt_lim tanh x (/ (cosh x)²).
Proof.
  pose proof (cosh_pos x) as Hc.
  eapply D_val.
  - apply (derivable_pt_lim_div sinh cosh x (cosh x) (sinh x)).
    + apply derivable_pt_lim_sinh.
    + apply derivable_pt_lim_cosh.
    + lra.
  - assert (Hd : (cosh x)² - (sinh x)² = 1).
    { unfold cosh, sinh, Rsqr.
      assert (He : exp x * exp (- x) = 1) by (rewrite <- exp_plus, Rplus_opp_r; apply exp_0).
      field_simplify. nra. }
    unfold Rsqr in *. field_simplify; [| lra | lra].
    replace (cosh x ^ 2 - sinh x ^ 2) with 1 by nra. reflexivity.
Qed.

Lemma D_tanh f x lf :
  derivable_pt_lim f x lf ->
  derivable_pt_lim (fun z => tanh (f z)) x (/ (cosh (f x))² * lf).
Proof. intros H. apply (D_comp tanh); [exact H | apply D_tanh_pt]. Qed.

End Deriv.

(* one rule, chosen by the head of the function's body; a function that
   is not written with [fun] is expanded first *)
Ltac derive_step :=
  lazymatch goal with
  | |- derivable_pt_lim (fun _ => ?a) _ _ => apply D_const
  | |- derivable_pt_lim (fun z => z) _ _ => apply D_id
  | |- derivable_pt_lim (fun z => exp _) _ _ => eapply D_exp
  | |- derivable_pt_lim (fun z => atan _) _ _ => eapply D_atan
  | |- derivable_pt_lim (fun z => tanh _) _ _ => eapply D_tanh
  | |- derivable_pt_lim (fun z => sqrt _) _ _ => eapply D_sqrt
  | |- derivable_pt_lim (fun z => _ / _) _ _ => eapply D_div
  | |- derivable_pt_lim (fun z => _ - _) _ _ => eapply D_minus
  | |- derivable_pt_lim (fun z => _ + _) _ _ => eapply D_plus
  | |- derivable_pt_lim (fun z => _ * _) _ _ => eapply D_mult
  | |- derivable_pt_lim (fun z => - _) _ _ => eapply D_opp
  | |- derivable_pt_lim ?f ?x ?l =>
      lazymatch f with
      | (fun _ => _) => fail
      | _ => change (derivable_pt_lim (fun z => f z) x l)
      end
  end.
Ltac derive := repeat derive_step.

(** The partial derivatives of the five residuals.  For the hyperbolic
    tangent they are what [hyperbolic_fd] returns; for the arctangent and
    the simple algebraic model [grad_0] is the derivative in [k] and
    [grad_1] is the opposite of the derivative in [alpha]. *)

Lemma logistic_dk a x k :
  derivable_pt_lim (fun k => logistic_f (Coef k a) x) k
    (- ((x - a) * exp (k * (a - x)) / ((exp (k * (a - x)) + 1) * (exp (k * (a - x)) + 1)))).
Proof.
  unfold logistic_f, logistic; cbn [c_0 c_1].
  replace (k * (a - x)) with (- k * (x - a)) by ring.
  pose proof (exp_pos (- k * (x - a))) as He.
  eapply D_val.
  - derive. all: cbn beta; try lra.
  - unfold Rsqr. field. lra.
Qed.

Lemma logistic_da k x a :
  derivable_pt_lim (fun a => logistic_f (Coef k a) x) a
    (k * exp (k * (a - x)) / ((exp (k * (a - x)) + 1) * (exp (k * (a - x)) + 1))).
Proof.
  unfold logistic_f, logistic; cbn [c_0 c_1].
  replace (k * (a - x)) with (- k * (x - a)) by ring.
  pose proof (exp_pos (- k * (x - a))) as He.
  eapply D_val.
  - derive. all: cbn beta; try lra.
  - unfold Rsqr. field. lra.
Qed.

Lemma exp_double u : exp (2 * u) = exp u * exp u.
Proof. replace (2 * u) with (u + u) by ring. apply exp_plus. Qed.

Lemma exp_inv u : exp (- u) = / exp u.
Proof. apply exp_Ropp. Qed.

Lemma hyperbolic_dk a x k :
  derivable_pt_lim (fun k => hyperbolic_f (Coef k a) x) k (grad_0 (hyperbolic_fd (Coef k a) x)).
Proof.
  unfold hyperbolic_f, hyperbolic_tangent; cbn [c_0 c_1 grad_0 hyperbolic_fd].
  pose proof (exp_pos (k * (x - a))) as He.
  pose proof (exp_pos (- k * (x - a))) as He'.
  eapply D_val.
  - derive. all: cbn beta; try lra.
  - replace (2 * k * (x - a)) with (2 * (k * (x - a))) by ring.
    rewrite exp_double. replace (- k * (x - a)) with (- (k * (x - a))) in * by ring.
    rewrite exp_inv in *. unfold Rsqr. set (E := exp (k * (x - a))) in *.
    field. nra.
Qed.
Lemma hyperbolic_da k x a :
  derivable_pt_lim (fun a => hyperbolic_f (Coef k a) x) a (grad_1 (hyperbolic_fd (Coef k a) x)).
Proof.
  unfold hyperbolic_f, hyperbolic_tangent; cbn [c_0 c_1 grad_1 hyperbolic_fd].
  pose proof (exp_pos (k * (x - a))) as He.
  pose proof (exp_pos (- k * (x - a))) as He'.
  eapply D_val.
  - derive. all: cbn beta; try lra.
  - replace (2 * k * (x - a)) with (2 * (k * (x - a))) by ring.
    rewrite exp_double. replace (- k * (x - a)) with (- (k * (x - a))) in * by ring.
    rewrite exp_inv in *. unfold Rsqr. set (E := exp (k * (x - a))) in *.
    field. nra.
Qed.

Lemma quad_pos k a x : 0 < k * k * (x - a) * (x - a) + 1.
Proof. pose proof (Rle_0_sqr (k * (x - a))) as H. unfold Rsqr in H. nra. Qed.

Lemma arctangent_dk a x k :
  derivable_pt_lim (fun k => arctangent_f (Coef k a) x) k (grad_0 (arctangent_fd (Coef k a) x)).
Proof.
  unfold arctangent_f, arctangent; cbn [c_0 c_1 grad_0 arctangent_fd].
  pose proof (quad_pos k a x) as Hq.
  eapply D_val.
  - derive. all: cbn beta; try lra.
  - unfold Rsqr. field. lra.
Qed.
Lemma arctangent_da k x a :
  derivable_pt_lim (fun a => arctangent_f (Coef k a) x) a (- grad_1 (arctangent_fd (Coef k a) x)).
Proof.
  unfold arctangent_f, arctangent; cbn [c_0 c_1 grad_1 arctangent_fd].
  pose proof (quad_pos k a x) as Hq.
  eapply D_val.
  - derive. all: cbn beta; try lra.
  - unfold Rsqr. field. lra.
Qed.

Lemma sqrt_cube q : 0 < q -> sqrt (q * q * q) = q * sqrt q.
Proof.
  intros Hq. rewrite sqrt_mult by nra. rewrite sqrt_square by lra. reflexivity.
Qed.

Lemma algebraic_dk a x k :
  derivable_pt_lim (fun k => algebraic_f (Coef k a) x) k (grad_0 (algebraic_fd (Coef k a) x)).
Proof.
  unfold algebraic_f, algebraic; cbn [c_0 c_1 grad_0 algebraic_fd]. cbv zeta.
  pose proof (quad_pos k a x) as Hq.
  set (q := k * k * (x - a) * (x - a) + 1) in *.
  assert (Hq' : 1 + k * (x - a) * (k * (x - a)) = q) by (unfold q; ring).
  assert (Hs : 0 < sqrt q) by (apply sqrt_lt_R0; lra).
  assert (Hss : sqrt q * sqrt q = q) by (apply sqrt_sqrt; lra).
  eapply D_val.
  - derive. all: cbn beta; rewrite ?Hq'; try lra.
  - cbn beta. rewrite !Hq', sqrt_cube by lra.
    unfold Rsqr. set (s := sqrt q) in *.
    assert (Hu : k * (x - a) * (k * (x - a)) = s * s - 1) by lra.
    rewrite <- Hss.
    set (u := k * (x - a)) in *. set (d := x - a) in *.
    clearbody s u d. clear Hq' Hq Hss q.
    field_simplify_eq; [| lra].
    replace (u ^ 2) with (s * s - 1) by (rewrite <- Hu; ring). ring.
Qed.

Lemma algebraic_da k x a :
  derivable_pt_lim (fun a => algebraic_f (Coef k a) x) a (- grad_1 (algebraic_fd (Coef k a) x)).
Proof.
  unfold algebraic_f, algebraic; cbn [c_0 c_1 grad_1 algebraic_fd]. cbv zeta.
  pose proof (quad_pos k a x) as Hq.
  set (q := k * k * (x - a) * (x - a) + 1) in *.
  assert (Hq' : 1 + k * (x - a) * (k * (x - a)) = q) by (unfold q; ring).
  assert (Hs : 0 < sqrt q) by (apply sqrt_lt_R0; lra).
  assert (Hss : sqrt q * sqrt q = q) by (apply sqrt_sqrt; lra).
  eapply D_val.
  - derive. all: cbn beta; rewrite ?Hq'; try lra.
  - cbn beta. rewrite !Hq', sqrt_cube by lra.
    unfold Rsqr. set (s := sqrt q) in *.
    assert (Hu : k * (x - a) * (k * (x - a)) = s * s - 1) by lra.
    rewrite <- Hss.
    set (u := k * (x - a)) in *.
    clearbody s u. clear Hq' Hq Hss q.
    field_simplify_eq; [| lra].
    replace (u ^ 2) with (s * s - 1) by (rewrite <- Hu; ring). ring.
Qed.

Lemma gudermannian_dk a x k :
  derivable_pt_lim (fun k => gudermannian_f (Coef k a) x) k
   (- ((x - a) * sech (/2 * k * (x - a)) * sech (/2 * k * (x - a)))
     / (2 * (tanh (/2 * k * (x - a)) * tanh (/2 * k * (x - a)) + 1))).
Proof.
  unfold gudermannian_f, gudermannian; cbn [c_0 c_1].
  replace (/2 * k * (x - a)) with (k * (x - a) / 2) by field.
  set (t := tanh (k * (x - a) / 2)).
  pose proof (cosh_pos (k * (x - a) / 2)) as Hc.
  assert (Ht : 0 < t * t + 1) by nra.
  eapply D_val.
  - derive. all: cbn beta; try lra.
  - cbn beta. fold t. unfold sech, Rsqr. field. lra.
Qed.

Lemma gudermannian_da k x a :
  derivable_pt_lim (fun a => gudermannian_f (Coef k a) x) a
   (k * sech (/2 * k * (x - a)) * sech (/2 * k * (x - a))
     / (2 * (tanh (/2 * k * (x - a)) * tanh (/2 * k * (x - a)) + 1))).
Proof.
  unfold gudermannian_f, gudermannian; cbn [c_0 c_1].
  replace (/2 * k * (x - a)) with (k * (x - a) / 2) by field.
  set (t := tanh (k * (x - a) / 2)).
  pose proof (cosh_pos (k * (x - a) / 2)) as Hc.
  assert (Ht : 0 < t * t + 1) by nra.
  eapply D_val.
  - derive. all: cbn beta; try lra.
  - cbn beta. fold t. unfold sech, Rsqr. field. lra.
Qed.

Lemma hyperbolic_exact c x : exact_gradient hyperbolic_f hyperbolic_fd c x.
Proof.
  destruct c as [k a]. split; [reflexivity|]. split.
  - apply hyperbolic_dk.
  - apply hyperbolic_da.
Qed.

Lemma cosh_1_gt_1 : 1 < cosh 1.
Proof.
  unfold cosh. pose proof (exp_ineq1 1 ltac:(lra)) as He.
  rewrite exp_Ropp. set (e := exp 1) in *.
  assert (Hi : / e * e = 1) by (apply Rinv_l; lra).
  assert (0 < / e) by (apply Rinv_0_lt_compat; lra).
  nra.
Qed.

Lemma gudermannian_fd_value c x :
  grad_0 (gudermannian_fd c x) = - (x - c_1 c) / 2 /\
  grad_1 (gudermannian_fd c x) = c_0 c / 2.
Proof.
  cbn [grad_0 grad_1 gudermannian_fd]. unfold int_div.
  change (1 `quot` 2)%Z with 0%Z.
  rewrite !Rmult_0_l. unfold sech, tanh. rewrite cosh_0, sinh_0.
  split; field.
Qed.

(** ** Facts about the real functions *)

Lemma sum_inv_shape e : 0 < e -> e + / e - 2 = (e - 1) * (e - 1) * / e.
Proof. intros He. field. lra. Qed.

Lemma cosh_ge_1 v : 1 <= cosh v.
Proof.
  unfold cosh. rewrite exp_Ropp. pose proof (exp_pos v) as He.
  pose proof (sum_inv_shape _ He) as Hs.
  assert (0 <= (exp v - 1) * (exp v - 1) * / exp v); [|lra].
  apply Rmult_le_pos; [apply Rle_0_sqr|].
  left. now apply Rinv_0_lt_compat.
Qed.

Lemma cosh_eq_1 v : cosh v = 1 -> v = 0.
Proof.
  unfold cosh. rewrite exp_Ropp. pose proof (exp_pos v) as He. intros H.
  apply Rpower.exp_inv. rewrite exp_0.
  pose proof (sum_inv_shape _ He) as Hs.
  assert (Hz : (exp v - 1) * (exp v - 1) * / exp v = 0) by lra.
  apply Rmult_integral in Hz as [Hz|Hz].
  - apply Rmult_integral in Hz as [Hz|Hz]; lra.
  - pose proof (Rinv_0_lt_compat _ He). lra.
Qed.

Lemma sech_range v : 0 < sech v <= 1.
Proof.
  unfold sech. pose proof (cosh_ge_1 v) as Hc.
  assert (Hi : / cosh v * cosh v = 1) by (apply Rinv_l; lra).
  assert (0 < / cosh v) by (apply Rinv_0_lt_compat; lra).
  replace (1 / cosh v) with (/ cosh v) by (field; lra). nra.
Qed.

Lemma sech_eq_1 v : sech v = 1 -> v = 0.
Proof.
  unfold sech. pose proof (cosh_ge_1 v) as Hc. intros H.
  apply cosh_eq_1.
  assert (Hi : / cosh v * cosh v = 1) by (apply Rinv_l; lra).
  replace (1 / cosh v) with (/ cosh v) in H by (field; lra). nra.
Qed.

Lemma exp_neg_mult u : exp (- u) * exp u = 1.
Proof. rewrite <- exp_plus, Rplus_opp_l. apply exp_0. Qed.

Lemma exp_le_mono u v : u <= v -> exp u <= exp v.
Proof.
  intros [H| ->]; [left; now apply exp_increasing | right; reflexivity].
Qed.

(* the logistic curve in the variable [u = k (x - alpha)] *)
Lemma sigmoid_mono u v : u <= v -> 1 / (1 + exp (- u)) <= 1 / (1 + exp (- v)).
Proof.
  intros Huv. pose proof (exp_pos (- u)). pose proof (exp_pos (- v)).
  assert (exp (- v) <= exp (- u)) by (apply exp_le_mono; lra).
  unfold Rdiv. rewrite !Rmult_1_l. apply Rinv_le_contravar; lra.
Qed.

Lemma half_tanh u : (tanh u + 1) / 2 = 1 / (1 + exp (- (2 * u))).
Proof.
  unfold tanh, sinh, cosh.
  replace (- (2 * u)) with (- u + - u) by ring. rewrite exp_plus.
  pose proof (exp_pos u) as He. pose proof (exp_pos (- u)) as He'.
  pose proof (exp_neg_mult u) as Hm.
  assert (Heq : exp u = / exp (- u)).
  { apply (Rmult_eq_reg_l (exp (- u))); [|lra]. rewrite Rinv_r by lra. exact Hm. }
  rewrite Heq. field. split; [nra|lra].
Qed.

Lemma tanh_mono u v : u <= v -> tanh u <= tanh v.
Proof.
  intros Huv.
  assert (H : (tanh u + 1) / 2 <= (tanh v + 1) / 2); [|lra].
  rewrite !half_tanh. apply sigmoid_mono. lra.
Qed.

Lemma tanh_odd u : tanh (- u) = - tanh u.
Proof.
  unfold tanh, sinh, cosh. rewrite Ropp_involutive.
  pose proof (exp_pos u). pose proof (exp_pos (- u)). field. lra.
Qed.

Lemma tanh_range u : -1 < tanh u < 1.
Proof.
  pose proof (half_tanh u) as H. pose proof (exp_pos (- (2 * u))) as He.
  set (e := exp (- (2 * u))) in *.
  assert (Hi : / (1 + e) * (1 + e) = 1) by (apply Rinv_l; lra).
  assert (0 < / (1 + e)) by (apply Rinv_0_lt_compat; lra).
  unfold Rdiv in H. rewrite Rmult_1_l in H. nra.
Qed.

Lemma atan_mono u v : u <= v -> atan u <= atan v.
Proof.
  intros [H| ->]; [left; now apply atan_increasing | right; reflexivity].
Qed.

(* the simple algebraic curve in the variable [u] *)
Lemma ratio_mono u v :
  u <= v -> u / sqrt (1 + u * u) <= v / sqrt (1 + v * v).
Proof.
  intros Huv.
  assert (Hu : 0 < 1 + u * u) by nra. assert (Hv : 0 < 1 + v * v) by nra.
  pose proof (sqrt_lt_R0 _ Hu) as Hsu. pose proof (sqrt_lt_R0 _ Hv) as Hsv.
  pose proof (sqrt_sqrt (1 + u * u) ltac:(lra)) as Hqu.
  pose proof (sqrt_sqrt (1 + v * v) ltac:(lra)) as Hqv.
  set (su := sqrt (1 + u * u)) in *. set (sv := sqrt (1 + v * v)) in *.
  assert (Hcross : u * sv <= v * su).
  { destruct (Rle_dec 0 u) as [Hu0|Hu0].
    - apply Rsqr_incr_0_var; [|nra]. unfold Rsqr.
      replace (u * sv * (u * sv)) with (u * u * (sv * sv)) by ring.
      replace (v * su * (v * su)) with (v * v * (su * su)) by ring.
      rewrite Hqu, Hqv. nra.
    - destruct (Rle_dec 0 v) as [Hv0|Hv0]; [nra|].
      assert (Hneg : - v * su <= - u * sv); [|lra].
      apply Rsqr_incr_0_var; [|nra]. unfold Rsqr.
      replace (- v * su * (- v * su)) with (v * v * (su * su)) by ring.
      replace (- u * sv * (- u * sv)) with (u * u * (sv * sv)) by ring.
      rewrite Hqu, Hqv. nra. }
  apply (Rmult_le_reg_r (su * sv)); [nra|].
  replace (u / su * (su * sv)) with (u * sv * (su * / su)) by (field; lra).
  replace (v / sv * (su * sv)) with (v * su * (sv * / sv)) by (field; lra).
  rewrite !Rinv_r by lra. lra.
Qed.

Lemma ratio_range u : -1 < u / sqrt (1 + u * u) < 1.
Proof.
  assert (Hu : 0 < 1 + u * u) by nra.
  pose proof (sqrt_lt_R0 _ Hu) as Hsu.
  pose proof (sqrt_sqrt (1 + u * u) ltac:(lra)) as Hqu.
  set (su := sqrt (1 + u * u)) in *.
  assert (Habs : - su < u < su) by nra.
  assert (Hi : / su * su = 1) by (apply Rinv_l; lra).
  assert (0 < / su) by (apply Rinv_0_lt_compat; lra).
  unfold Rdiv. nra.
Qed.

Lemma hyperbolic_as_logistic (k alpha x : R) :
  hyperbolic_tangent k alpha x = logistic (2 * k) alpha x.
Proof.
  transitivity ((tanh (k * (x - alpha)) + 1) / 2).
  - unfold hyperbolic_tangent, tanh, sinh, cosh.
    rewrite <- Ropp_mult_distr_l.
    pose proof (exp_pos (k * (x - alpha))).
    pose proof (exp_pos (- (k * (x - alpha)))). field. lra.
  - rewrite half_tanh. unfold logistic. do 3 f_equal. ring.
Qed.

(** ** Doubles: the operations on finite arguments *)

Lemma DBL_MAX_large : 1048576 <= Ieee.DBL_MAX.
Proof.
  unfold Ieee.DBL_MAX.
  assert (H52 : 1 <= 2 ^ 52) by (apply pow_R1_Rle; lra).
  assert (Hinv : / 2 ^ 52 <= 1).
  { rewrite <- Rinv_1. apply Rinv_le_contravar; lra. }
  assert (H20 : 2 ^ 20 <= 2 ^ 1023) by (apply Rle_pow; [lra|lia]).
  assert (E20 : 2 ^ 20 = 1048576) by (simpl; lra).
  nra.
Qed.

Lemma DBL_MAX_below : Ieee.DBL_MAX < 2 ^ 1024.
Proof.
  unfold Ieee.DBL_MAX. change (2 ^ 1024) with (2 * 2 ^ 1023).
  assert (H : 0 < / 2 ^ 52) by (apply Rinv_0_lt_compat, pow_lt; lra).
  assert (H' : 0 < 2 ^ 1023) by (apply pow_lt; lra).
  nra.
Qed.

Lemma in_range_le (r b : R) : Rabs r <= b -> b <= Ieee.DBL_MAX -> in_range r.
Proof. unfold in_range. lra. Qed.

Lemma in_range_small (r : R) : Rabs r <= 1048576 -> in_range r.
Proof. intros H. apply (in_range_le r 1048576 H DBL_MAX_large). Qed.

Lemma in_range_pos (r : R) : 0 <= r -> r <= Ieee.DBL_MAX -> in_range r.
Proof. intros H0 H. unfold in_range. now rewrite Rabs_pos_eq. Qed.

Lemma in_range_opp (r : R) : in_range r -> in_range (- r).
Proof. unfold in_range. now rewrite Rabs_Ropp. Qed.

Lemma overflow_in_range (r : R) : in_range r -> Ieee.overflow r = Ieee.Fin r.
Proof. intros H. unfold Ieee.overflow. now destruct (Rle_dec _ _). Qed.

Lemma overflow_above (r : R) : Ieee.DBL_MAX < r -> Ieee.overflow r = Ieee.PInf.
Proof.
  intros H. pose proof DBL_MAX_large. unfold Ieee.overflow.
  destruct (Rle_dec _ _) as [Hle|_].
  - rewrite Rabs_pos_eq in Hle; lra.
  - destruct (Rlt_dec 0 r); [done|lra].
Qed.

Lemma add_fin (a b : R) :
  in_range (a + b) -> Ieee.add (Ieee.Fin a) (Ieee.Fin b) = Ieee.Fin (a + b).
Proof. apply overflow_in_range. Qed.

Lemma sub_fin (a b : R) :
  in_range (a - b) -> Ieee.sub (Ieee.Fin a) (Ieee.Fin b) = Ieee.Fin (a - b).
Proof. apply overflow_in_range. Qed.

Lemma mul_fin (a b : R) :
  in_range (a * b) -> Ieee.mul (Ieee.Fin a) (Ieee.Fin b) = Ieee.Fin (a * b).
Proof. apply overflow_in_range. Qed.

Lemma div_fin (a b : R) :
  b <> 0 -> in_range (a / b) -> Ieee.div (Ieee.Fin a) (Ieee.Fin b) = Ieee.Fin (a / b).
Proof.
  intros Hb H. unfold Ieee.div. destruct (Req_dec_T b 0); [done|].
  now apply overflow_in_range.
Qed.

Lemma exp_fin (r : R) :
  exp r <= Ieee.DBL_MAX -> Ieee.exp (Ieee.Fin r) = Ieee.Fin (exp r).
Proof.
  intros H. apply overflow_in_range, in_range_pos; [|done]. left. apply exp_pos.
Qed.

Lemma exp_overflows (r : R) :
  Ieee.DBL_MAX < exp r -> Ieee.exp (Ieee.Fin r) = Ieee.PInf.
Proof. apply overflow_above. Qed.

Lemma sqrt_fin (r : R) : 0 <= r -> Ieee.sqrt (Ieee.Fin r) = Ieee.Fin (sqrt r).
Proof. intros H. unfold Ieee.sqrt. destruct (Rlt_dec r 0); [lra|done]. Qed.

Lemma quotient_bounds (a b : R) : 0 < b -> - b <= a <= b -> - 1 <= a / b <= 1.
Proof.
  intros Hb Ha.
  assert (Hinv : 0 < / b) by now apply Rinv_0_lt_compat.
  assert (Hone : b * / b = 1) by (apply Rinv_r; lra).
  unfold Rdiv. split; nra.
Qed.

(** ** Bounds by the exponential *)

Lemma exp_le_exp_abs (u : R) : exp u <= exp (Rabs u).
Proof.
  destruct (Rle_lt_dec 0 u) as [H|H].
  - rewrite Rabs_pos_eq by done. lra.
  - left. apply exp_increasing. rewrite Rabs_left by done. lra.
Qed.

Lemma abs_le_exp_abs (u : R) : Rabs u <= exp (Rabs u).
Proof. pose proof (exp_ineq1_le (Rabs u)). lra. Qed.

Lemma exp_half_square (y : R) : exp y = exp (y / 2) * exp (y / 2).
Proof. rewrite <- exp_plus. f_equal. lra. Qed.

Lemma square_le_exp_abs (u : R) : u * u <= exp (Rabs u).
Proof.
  assert (Hy : 0 <= Rabs u) by apply Rabs_pos.
  assert (Hsq : u * u = Rabs u * Rabs u).
  { unfold Rabs. destruct (Rcase_abs u); ring. }
  rewrite Hsq. clear Hsq. generalize dependent (Rabs u). intros y Hy.
  assert (H4 : 1 + y / 4 <= exp (y / 4)) by apply exp_ineq1_le.
  assert (H2 : y <= exp (y / 2)).
  { rewrite (exp_half_square (y / 2)). replace (y / 2 / 2) with (y / 4) by lra.
    assert (Hsq : 0 <= (y / 4 - 1) * (y / 4 - 1)) by apply Rle_0_sqr.
    assert (y <= (1 + y / 4) * (1 + y / 4)) by lra.
    assert (0 <= 1 + y / 4) by lra.
    apply Rle_trans with ((1 + y / 4) * (1 + y / 4)); [done|].
    apply Rmult_le_compat; lra. }
  rewrite (exp_half_square y).
  apply Rmult_le_compat; lra.
Qed.

Lemma exp_nat (n : nat) (u : R) : exp (INR n * u) = exp u ^ n.
Proof.
  induction n as [|n IH].
  - cbn. rewrite Rmult_0_l. apply exp_0.
  - rewrite S_INR, Rmult_plus_distr_r, Rmult_1_l, exp_plus, IH. cbn. ring.
Qed.

Lemma exp_1000_overflows : Ieee.DBL_MAX < exp 1000.
Proof.
  apply Rlt_le_trans with (1 := DBL_MAX_below).
  assert (Hhalf : 3 / 2 <= exp (1 / 2)) by (pose proof (exp_ineq1_le (1 / 2)); lra).
  assert (H1 : 9 / 4 <= exp 1).
  { rewrite (exp_half_square 1). nra. }
  replace 1000 with (INR 1000 * 1) by (rewrite Rmult_1_r; now rewrite INR_IZR_INZ).
  rewrite exp_nat.
  apply Rle_trans with ((9 / 4) ^ 1000); [|apply pow_incr; lra].
  apply Rle_trans with ((9 / 4) ^ (6 * 147)); [|apply Rle_pow; [lra|lia]].
  rewrite pow_mult.
  apply Rle_trans with (128 ^ 147).
  - replace 128 with (2 ^ 7) by (simpl; lra). rewrite <- pow_mult.
    apply Rle_pow; [lra|lia].
  - apply pow_incr. split; [lra|]. simpl. lra.
Qed.

(** ** The shape functions where nothing overflows *)

Section InRange.
Variables k alpha x : R.
Hypothesis Hshape : shape_in_range k alpha x.

Lemma shape_exp_bound : exp (Rabs (k * (x - alpha))) <= Ieee.DBL_MAX - 1.
Proof. destruct Hshape as [_ H]. lra. Qed.

Lemma shape_difference : in_range (x - alpha).
Proof. now destruct Hshape. Qed.

Lemma shape_product : in_range (k * (x - alpha)).
Proof.
  pose proof shape_exp_bound. pose proof (abs_le_exp_abs (k * (x - alpha))).
  unfold in_range. lra.
Qed.

Lemma shape_product_opp : in_range (- k * (x - alpha)).
Proof.
  replace (- k * (x - alpha)) with (- (k * (x - alpha))) by ring.
  apply in_range_opp, shape_product.
Qed.

Lemma shape_exp : exp (k * (x - alpha)) <= Ieee.DBL_MAX - 1.
Proof.
  pose proof shape_exp_bound. pose proof (exp_le_exp_abs (k * (x - alpha))). lra.
Qed.

Lemma shape_exp_opp : exp (- k * (x - alpha)) <= Ieee.DBL_MAX - 1.
Proof.
  pose proof shape_exp_bound as Hb. pose proof (exp_le_exp_abs (- k * (x - alpha))) as H.
  replace (Rabs (- k * (x - alpha))) with (Rabs (k * (x - alpha))) in H; [lra|].
  rewrite <- Rabs_Ropp. f_equal. ring.
Qed.

Lemma shape_square : 1 + k * (x - alpha) * (k * (x - alpha)) <= Ieee.DBL_MAX.
Proof.
  pose proof shape_exp_bound. pose proof (square_le_exp_abs (k * (x - alpha))). lra.
Qed.

Lemma logistic_fin :
  Ieee.logistic (Ieee.Fin k) (Ieee.Fin alpha) (Ieee.Fin x) = Ieee.Fin (logistic k alpha x).
Proof.
  pose proof shape_exp_opp as He. pose proof (exp_pos (- k * (x - alpha))) as Hpos.
  unfold Ieee.logistic. rewrite sub_fin by apply shape_difference. cbn [Ieee.opp].
  rewrite mul_fin by apply shape_product_opp.
  rewrite exp_fin by lra.
  rewrite add_fin by (apply in_range_pos; lra).
  rewrite div_fin; [reflexivity|lra|].
  apply in_range_small, Rabs_le.
  pose proof (quotient_bounds 1 (1 + exp (- k * (x - alpha))) ltac:(lra) ltac:(lra)). lra.
Qed.

Lemma hyperbolic_tangent_fin :
  Ieee.hyperbolic_tangent (Ieee.Fin k) (Ieee.Fin alpha) (Ieee.Fin x)
  = Ieee.Fin (hyperbolic_tangent k alpha x).
Proof.
  pose proof shape_exp as He. pose proof shape_exp_opp as He'.
  pose proof (exp_pos (k * (x - alpha))) as Hpos.
  pose proof (exp_pos (- k * (x - alpha))) as Hpos'.
  pose proof DBL_MAX_large as Hmax.
  set (e := exp (k * (x - alpha))) in *. set (e' := exp (- k * (x - alpha))) in *.
  assert (Hq : - 1 <= (e - e') / (e + e') <= 1) by (apply quotient_bounds; lra).
  unfold Ieee.hyperbolic_tangent. rewrite sub_fin by apply shape_difference. cbn [Ieee.opp].
  rewrite mul_fin by apply shape_product. rewrite mul_fin by apply shape_product_opp.
  rewrite !exp_fin by (fold e e'; lra). fold e e'.
  rewrite sub_fin by (unfold in_range; apply Rabs_le; lra).
  assert (Hsum : in_range (e + e')).
  { apply in_range_pos; [lra|].
    destruct (Rle_lt_dec 0 (k * (x - alpha))) as [Hu|Hu].
    - assert (e' <= 1); [|lra]. unfold e'. rewrite <- exp_0.
      destruct Hu as [Hu|Hu]; [left; apply exp_increasing; lra|right; f_equal; lra].
    - assert (e <= 1); [|lra]. unfold e. rewrite <- exp_0. left. now apply exp_increasing. }
  rewrite add_fin by exact Hsum.
  rewrite div_fin; [|lra|apply in_range_small, Rabs_le; lra].
  rewrite add_fin by (apply in_range_small, Rabs_le; lra).
  rewrite div_fin; [reflexivity|lra|apply in_range_small, Rabs_le; lra].
Qed.

Lemma arctangent_fin :
  Ieee.arctangent (Ieee.Fin k) (Ieee.Fin alpha) (Ieee.Fin x) = Ieee.Fin (arctangent k alpha x).
Proof.
  pose proof (atan_bound (k * (x - alpha))) as Hatan. pose proof PI_4 as Hpi.
  unfold Ieee.arctangent. rewrite sub_fin by apply shape_difference.
  rewrite mul_fin by apply shape_product. cbn [Ieee.atan].
  rewrite add_fin by (apply in_range_small, Rabs_le; lra).
  rewrite div_fin; [reflexivity|lra|apply in_range_small, Rabs_le; lra].
Qed.

Lemma gudermannian_fin :
  Ieee.gudermannian (Ieee.Fin k) (Ieee.Fin alpha) (Ieee.Fin x)
  = Ieee.Fin (gudermannian k alpha x).
Proof.
  pose proof (atan_bound (tanh (k * (x - alpha) / 2))) as Hatan. pose proof PI_4 as Hpi.
  pose proof shape_product as Hu.
  unfold Ieee.gudermannian. rewrite sub_fin by apply shape_difference.
  rewrite mul_fin by apply shape_product.
  rewrite div_fin; [|lra|].
  2:{ unfold in_range in *. unfold Rdiv. rewrite Rabs_mult.
      rewrite (Rabs_pos_eq (/ 2)) by lra. pose proof (Rabs_pos (k * (x - alpha))). lra. }
  cbn [Ieee.tanh Ieee.atan].
  rewrite mul_fin by (apply in_range_small, Rabs_le; lra).
  rewrite add_fin by (apply in_range_small, Rabs_le; lra).
  rewrite div_fin; [reflexivity|lra|apply in_range_small, Rabs_le; lra].
Qed.

Lemma algebraic_fin :
  Ieee.algebraic (Ieee.Fin k) (Ieee.Fin alpha) (Ieee.Fin x) = Ieee.Fin (algebraic k alpha x).
Proof.
  pose proof shape_square as Hsq. pose proof (ratio_range (k * (x - alpha))) as Hratio.
  assert (Hu2 : 0 <= k * (x - alpha) * (k * (x - alpha))) by apply Rle_0_sqr.
  assert (Hroot : 0 < sqrt (1 + k * (x - alpha) * (k * (x - alpha)))).
  { apply sqrt_lt_R0. lra. }
  unfold Ieee.algebraic. cbv zeta. rewrite sub_fin by apply shape_difference.
  rewrite mul_fin by apply shape_product.
  rewrite mul_fin by (apply in_range_pos; lra).
  rewrite add_fin by (apply in_range_pos; lra).
  rewrite sqrt_fin by lra.
  rewrite div_fin; [|lra|apply in_range_small, Rabs_le; lra].
  rewrite add_fin by (apply in_range_small, Rabs_le; lra).
  rewrite div_fin; [reflexivity|lra|apply in_range_small, Rabs_le; lra].
Qed.
End InRange.

(** ** The shape functions on every double *)

Lemma overflow_cases (r : R) :
  (in_range r /\ Ieee.overflow r = Ieee.Fin r) \/
  (Ieee.DBL_MAX < r /\ Ieee.overflow r = Ieee.PInf) \/
  (r < - Ieee.DBL_MAX /\ Ieee.overflow r = Ieee.NInf).
Proof.
  pose proof DBL_MAX_large. unfold Ieee.overflow, in_range.
  destruct (Rle_dec _ _) as [Hle|Hgt]; [now left|right].
  destruct (Rlt_dec 0 r) as [Hpos|Hneg]; [left|right]; split; try done.
  - rewrite Rabs_pos_eq in Hgt; lra.
  - assert (Rabs r = - r) as Habs.
    { destruct (Req_dec r 0) as [->|Hne]; [rewrite Rabs_R0 in Hgt; lra|].
      apply Rabs_left. lra. }
    rewrite Habs in Hgt. lra.
Qed.

(** What [exp] returns: NaN, the positive infinity, or a number that is
    not negative. *)
Lemma exp_returns (t : Ieee.double) :
  Ieee.exp t = Ieee.NaN \/ Ieee.exp t = Ieee.PInf \/
  exists e, Ieee.exp t = Ieee.Fin e /\ 0 <= e <= Ieee.DBL_MAX.
Proof.
  pose proof DBL_MAX_large.
  destruct t as [r| | |]; cbn [Ieee.exp]; [|auto| |auto].
  - pose proof (exp_pos r).
    destruct (overflow_cases (exp r)) as [[Hin ->]|[[_ ->]|[Hneg _]]]; [|auto|lra].
    right; right. exists (exp r). split; [done|].
    unfold in_range in Hin. rewrite Rabs_pos_eq in Hin; lra.
  - right; right. exists 0. split; [done|lra].
Qed.

Lemma sigmoid_returns (a : Ieee.double) :
  (a = Ieee.NaN \/ a = Ieee.PInf \/ exists e, a = Ieee.Fin e /\ 0 <= e <= Ieee.DBL_MAX) ->
  nan_or_within 0 1 (Ieee.div (Ieee.Fin 1) (Ieee.add (Ieee.Fin 1) a)) /\
  (a <> Ieee.NaN -> Ieee.div (Ieee.Fin 1) (Ieee.add (Ieee.Fin 1) a) <> Ieee.NaN).
Proof.
  intros [->|[->|(e & -> & He)]].
  - split; [now left|done].
  - cbn. split; [right; exists 0; split; [done|lra]|done].
  - cbn [Ieee.add].
    destruct (overflow_cases (1 + e)) as [[Hin ->]|[[_ ->]|[Hneg _]]]; [| |lra].
    + pose proof (quotient_bounds 1 (1 + e) ltac:(lra) ltac:(lra)) as Hq.
      assert (0 < 1 / (1 + e)) by (apply Rdiv_lt_0_compat; lra).
      rewrite div_fin; [|lra|apply in_range_small, Rabs_le; lra].
      split; [right; eexists; split; [reflexivity|lra]|done].
    + cbn. split; [right; exists 0; split; [done|lra]|done].
Qed.

Lemma half_shift_within (lo hi : R) (q : Ieee.double) :
  - 1024 <= lo -> hi <= 1023 ->
  nan_or_within lo hi q ->
  nan_or_within ((lo + 1) / 2) ((hi + 1) / 2)
    (Ieee.div (Ieee.add q (Ieee.Fin 1)) (Ieee.Fin 2)) /\
  (q <> Ieee.NaN -> Ieee.div (Ieee.add q (Ieee.Fin 1)) (Ieee.Fin 2) <> Ieee.NaN).
Proof.
  intros Hlo Hhi [->|(v & -> & Hv)]; [split; [now left|done]|].
  rewrite add_fin by (apply in_range_small, Rabs_le; lra).
  rewrite div_fin; [|lra|apply in_range_small, Rabs_le; lra].
  split; [right; eexists; split; [reflexivity|lra]|done].
Qed.

Lemma logistic_within (k alpha x : Ieee.double) :
  nan_or_within 0 1 (Ieee.logistic k alpha x).
Proof. apply sigmoid_returns, exp_returns. Qed.

Lemma atan_quarter (t : R) : - 1 <= t <= 1 -> - (PI / 4) <= atan t <= PI / 4.
Proof.
  intros [Hlo Hhi]. rewrite <- atan_1. split.
  - rewrite <- atan_opp. now apply atan_mono.
  - now apply atan_mono.
Qed.

Lemma arctangent_within (k alpha x : Ieee.double) :
  nan_or_within ((1 - PI / 2) / 2) ((1 + PI / 2) / 2) (Ieee.arctangent k alpha x).
Proof.
  pose proof PI_4 as Hpi. pose proof PI_RGT_0 as Hpi0. unfold Ieee.arctangent.
  assert (H : nan_or_within (- (PI / 2)) (PI / 2)
                (Ieee.atan (Ieee.mul k (Ieee.sub x alpha)))).
  { destruct (Ieee.mul k (Ieee.sub x alpha)) as [r| | |]; cbn [Ieee.atan].
    - pose proof (atan_bound r). right. eexists. split; [reflexivity|lra].
    - right. eexists. split; [reflexivity|lra].
    - right. eexists. split; [reflexivity|lra].
    - now left. }
  destruct (half_shift_within (- (PI / 2)) (PI / 2) _ ltac:(lra) ltac:(lra) H) as [Hw _].
  replace ((1 - PI / 2) / 2) with ((- (PI / 2) + 1) / 2) by lra.
  now replace ((1 + PI / 2) / 2) with ((PI / 2 + 1) / 2) by lra.
Qed.

Lemma tanh_within (v : Ieee.double) : nan_or_within (- 1) 1 (Ieee.tanh v).
Proof.
  destruct v as [r| | |]; cbn [Ieee.tanh].
  - pose proof (tanh_range r). right. eexists. split; [reflexivity|lra].
  - right. eexists. split; [reflexivity|lra].
  - right. eexists. split; [reflexivity|lra].
  - now left.
Qed.

Lemma gudermannian_within (k alpha x : Ieee.double) :
  nan_or_within ((1 - PI / 2) / 2) ((1 + PI / 2) / 2) (Ieee.gudermannian k alpha x).
Proof.
  pose proof PI_4 as Hpi. pose proof PI_RGT_0 as Hpi0. unfold Ieee.gudermannian.
  assert (H : nan_or_within (- (PI / 2)) (PI / 2)
                (Ieee.mul (Ieee.Fin 2)
                   (Ieee.atan (Ieee.tanh (Ieee.div (Ieee.mul k (Ieee.sub x alpha))
                                                   (Ieee.Fin 2)))))).
  { destruct (tanh_within (Ieee.div (Ieee.mul k (Ieee.sub x alpha)) (Ieee.Fin 2)))
      as [->|(t & -> & Ht)]; [now left|].
    cbn [Ieee.atan]. pose proof (atan_quarter t ltac:(lra)).
    rewrite mul_fin by (apply in_range_small, Rabs_le; lra).
    right. eexists. split; [reflexivity|lra]. }
  destruct (half_shift_within (- (PI / 2)) (PI / 2) _ ltac:(lra) ltac:(lra) H) as [Hw _].
  replace ((1 - PI / 2) / 2) with ((- (PI / 2) + 1) / 2) by lra.
  now replace ((1 + PI / 2) / 2) with ((PI / 2 + 1) / 2) by lra.
Qed.

(** The quotient of [algebraic] for a finite [term]. *)
Lemma algebraic_quotient (r : R) :
  exists q, - 1 <= q <= 1 /\
    Ieee.div (Ieee.Fin r)
      (Ieee.sqrt (Ieee.add (Ieee.Fin 1) (Ieee.mul (Ieee.Fin r) (Ieee.Fin r)))) = Ieee.Fin q.
Proof.
  pose proof DBL_MAX_large. assert (Hsq : 0 <= r * r) by apply Rle_0_sqr.
  cbn [Ieee.mul].
  destruct (overflow_cases (r * r)) as [[Hin ->]|[[_ ->]|[Hneg _]]]; [| |lra].
  - cbn [Ieee.add].
    destruct (overflow_cases (1 + r * r)) as [[Hin' ->]|[[_ ->]|[Hneg _]]]; [| |lra].
    + rewrite sqrt_fin by lra. pose proof (ratio_range r).
      assert (0 < sqrt (1 + r * r)) by (apply sqrt_lt_R0; lra).
      rewrite div_fin; [|lra|apply in_range_small, Rabs_le; lra].
      eexists. split; [|reflexivity]. lra.
    + cbn. exists 0. split; [lra|done].
  - cbn. exists 0. split; [lra|done].
Qed.

Lemma algebraic_within (k alpha x : Ieee.double) :
  nan_or_within 0 1 (Ieee.algebraic k alpha x).
Proof.
  unfold Ieee.algebraic. cbv zeta.
  assert (H : nan_or_within (- 1) 1
                (Ieee.div (Ieee.mul k (Ieee.sub x alpha))
                   (Ieee.sqrt (Ieee.add (Ieee.Fin 1)
                      (Ieee.mul (Ieee.mul k (Ieee.sub x alpha))
                                (Ieee.mul k (Ieee.sub x alpha))))))).
  { destruct (Ieee.mul k (Ieee.sub x alpha)) as [r| | |]; [|now left..].
    destruct (algebraic_quotient r) as (q & Hq & ->). right. now exists q. }
  destruct (half_shift_within (- 1) 1 _ ltac:(lra) ltac:(lra) H) as [Hw _].
  replace 0 with ((- 1 + 1) / 2) by lra. now replace 1 with ((1 + 1) / 2) at 2 by lra.
Qed.

(** The quotient of [hyperbolic_tangent] for the two exponentials. *)
Lemma hyperbolic_quotient (a b : Ieee.double) :
  (a = Ieee.NaN \/ a = Ieee.PInf \/ exists e, a = Ieee.Fin e /\ 0 <= e <= Ieee.DBL_MAX) ->
  (b = Ieee.NaN \/ b = Ieee.PInf \/ exists e, b = Ieee.Fin e /\ 0 <= e <= Ieee.DBL_MAX) ->
  nan_or_within (- 1) 1 (Ieee.div (Ieee.sub a b) (Ieee.add a b)).
Proof.
  pose proof DBL_MAX_large.
  intros [->|[->|(e & -> & He)]] [->|[->|(e' & -> & He')]]; try (now left).
  unfold Ieee.sub. cbn [Ieee.opp Ieee.add].
  rewrite (overflow_in_range (e + - e')) by (apply Rabs_le; lra).
  destruct (overflow_cases (e + e')) as [[Hin ->]|[[_ ->]|[Hneg _]]]; [| |lra].
  - destruct (Req_dec (e + e') 0) as [Hzero|Hne].
    + unfold Ieee.div. destruct (Req_dec_T _ _); [|done].
      assert (e + - e' = 0) as -> by lra. unfold Ieee.scaled.
      destruct (Rlt_dec 0 0); [lra|]. now left.
    + pose proof (quotient_bounds (e + - e') (e + e') ltac:(lra) ltac:(lra)).
      rewrite div_fin; [|lra|apply in_range_small, Rabs_le; lra].
      right. eexists. split; [reflexivity|lra].
  - cbn. right. exists 0. split; [done|lra].
Qed.

Lemma hyperbolic_tangent_within (k alpha x : Ieee.double) :
  nan_or_within 0 1 (Ieee.hyperbolic_tangent k alpha x).
Proof.
  unfold Ieee.hyperbolic_tangent.
  pose proof (hyperbolic_quotient _ _
                (exp_returns (Ieee.mul k (Ieee.sub x alpha)))
                (exp_returns (Ieee.mul (Ieee.opp k) (Ieee.sub x alpha)))) as H.
  destruct (half_shift_within (- 1) 1 _ ltac:(lra) ltac:(lra) H) as [Hw _].
  replace 0 with ((- 1 + 1) / 2) by lra. now replace 1 with ((1 + 1) / 2) at 2 by lra.
Qed.

(** ** The two exponential gradient evaluators *)

Lemma logistic_fin_exp (k alpha x : R) :
  in_range (x - alpha) -> in_range (k * (x - alpha)) ->
  exp (- k * (x - alpha)) + 1 <= Ieee.DBL_MAX ->
  Ieee.logistic (Ieee.Fin k) (Ieee.Fin alpha) (Ieee.Fin x) = Ieee.Fin (logistic k alpha x).
Proof.
  intros Hd Hu He. pose proof (exp_pos (- k * (x - alpha))) as Hpos.
  unfold Ieee.logistic. rewrite sub_fin by done. cbn [Ieee.opp].
  rewrite mul_fin.
  2:{ replace (- k * (x - alpha)) with (- (k * (x - alpha))) by ring. now apply in_range_opp. }
  rewrite exp_fin by lra.
  rewrite add_fin by (apply in_range_pos; lra).
  rewrite div_fin; [reflexivity|lra|].
  apply in_range_small, Rabs_le.
  pose proof (quotient_bounds 1 (1 + exp (- k * (x - alpha))) ltac:(lra) ltac:(lra)). lra.
Qed.

Lemma logistic_range (k alpha x : R) : 0 <= logistic k alpha x <= 1.
Proof.
  unfold logistic. pose proof (exp_pos (- k * (x - alpha))) as Hpos.
  pose proof (quotient_bounds 1 (1 + exp (- k * (x - alpha))) ltac:(lra) ltac:(lra)).
  assert (0 < 1 / (1 + exp (- k * (x - alpha)))) by (apply Rdiv_lt_0_compat; lra). lra.
Qed.

(** A quotient by a number that is at least 1 stays in range. *)
Lemma in_range_quotient (a b : R) : in_range a -> 1 <= b -> in_range (a / b).
Proof.
  unfold in_range. intros Ha Hb. unfold Rdiv. rewrite Rabs_mult.
  assert (Hinv : 0 < / b <= 1).
  { split; [apply Rinv_0_lt_compat; lra|]. rewrite <- Rinv_1. apply Rinv_le_contravar; lra. }
  rewrite (Rabs_pos_eq (/ b)) by lra. pose proof (Rabs_pos a). nra.
Qed.

Lemma logistic_fd_fin (c : coef) (x : R) :
  logistic_fd_in_range c x ->
  Ieee.logistic_fd (of_coef c) (Ieee.Fin x) = of_fd_out (logistic_fd c x).
Proof.
  destruct c as [k a]. unfold logistic_fd_in_range. cbv zeta. cbn [c_0 c_1].
  intros (Hd & Hu & He & Hde & Hke).
  pose proof (exp_pos (k * (a - x))) as Hpos. set (E := exp (k * (a - x))) in *.
  pose proof (logistic_range k a x) as Hl.
  assert (Hd' : in_range (a - x)).
  { replace (a - x) with (- (x - a)) by ring. now apply in_range_opp. }
  assert (Hone : / (E + 1) * (E + 1) = 1) by (apply Rinv_l; lra).
  unfold Ieee.logistic_fd, of_coef, of_fd_out. cbn [Ieee.c_0 Ieee.c_1 c_0 c_1].
  rewrite logistic_fin_exp; [|done| |].
  2:{ replace (k * (x - a)) with (- (k * (a - x))) by ring. now apply in_range_opp. }
  2:{ replace (- k * (x - a)) with (k * (a - x)) by ring. exact He. }
  rewrite (sub_fin 1) by (apply in_range_small, Rabs_le; lra).
  rewrite (sub_fin x a), (sub_fin a x) by done.
  rewrite (mul_fin k) by done. rewrite exp_fin by (fold E; lra). fold E.
  rewrite (mul_fin (x - a)) by done. rewrite (mul_fin k) by done.
  rewrite add_fin by (apply in_range_pos; lra).
  rewrite !div_fin; [|lra|apply in_range_quotient; [done|lra]
                     |lra|apply in_range_quotient; [done|lra]].
  rewrite !mul_fin; [reflexivity| |].
  - pose proof (in_range_quotient (k * E) (E + 1) Hke ltac:(lra)) as Hq.
    unfold in_range in *. rewrite Rabs_mult. rewrite (Rabs_pos_eq E) by lra.
    pose proof (Rabs_pos (k * E / (E + 1))) as Hq0.
    assert (Hle : Rabs (k * E / (E + 1)) * E <= Rabs (k * E)); [|lra].
    unfold Rdiv. rewrite Rabs_mult. rewrite (Rabs_pos_eq (/ (E + 1))).
    2:{ left. apply Rinv_0_lt_compat. lra. }
    pose proof (Rabs_pos (k * E)) as Hk0.
    assert (0 < / (E + 1)) by (apply Rinv_0_lt_compat; lra).
    assert (/ (E + 1) * E <= 1) by nra.
    rewrite Rmult_assoc. rewrite <- (Rmult_1_r (Rabs (k * E))) at 2.
    apply Rmult_le_compat_l; lra.
  - replace ((x - a) * E / (E + 1) * (E + 1)) with ((x - a) * E); [done|].
    unfold Rdiv. rewrite Rmult_assoc, Hone. ring.
Qed.

Lemma scaled_nonzero (infinity : Ieee.double) (r : R) :
  r <> 0 -> infinity = Ieee.PInf \/ infinity = Ieee.NInf ->
  Ieee.scaled infinity r = Ieee.PInf \/ Ieee.scaled infinity r = Ieee.NInf.
Proof.
  intros Hr Hinf. unfold Ieee.scaled.
  destruct (Rlt_dec 0 r); [done|]. destruct (Rlt_dec r 0); [|lra].
  destruct Hinf as [->| ->]; cbn; auto.
Qed.

Lemma exp_positive_argument (t : R) : 1 < exp t -> 0 < t.
Proof. intros H. apply exp_lt_inv. now rewrite exp_0. Qed.

(** When [exp (c[0] (c[1] - x))] overflows the residual is 1 and both
    components of the gradient are NaN. *)
Lemma logistic_fd_overflow (c : coef) (x : R) :
  in_range (x - c_1 c) -> in_range (c_0 c * (c_1 c - x)) ->
  Ieee.DBL_MAX < exp (c_0 c * (c_1 c - x)) ->
  Ieee.logistic_fd (of_coef c) (Ieee.Fin x) = Ieee.FdOut (Ieee.Fin 1) Ieee.NaN Ieee.NaN.
Proof.
  destruct c as [k a]. cbn [c_0 c_1]. intros Hd Hu He.
  pose proof DBL_MAX_large as Hmax.
  assert (Ht : 0 < k * (a - x)) by (apply exp_positive_argument; lra).
  assert (Hk : k <> 0) by (intros ->; lra).
  assert (Hx : x - a <> 0) by (intros H0; replace (a - x) with (- (x - a)) in Ht by ring;
                               rewrite H0 in Ht; lra).
  assert (Hd' : in_range (a - x)).
  { replace (a - x) with (- (x - a)) by ring. now apply in_range_opp. }
  unfold Ieee.logistic_fd, Ieee.logistic, of_coef. cbn [Ieee.c_0 Ieee.c_1 Ieee.opp c_0 c_1].
  rewrite (sub_fin x a), (sub_fin a x) by done.
  rewrite (mul_fin k) by done.
  rewrite (mul_fin (- k)).
  2:{ replace (- k * (x - a)) with (k * (a - x)) by ring. done. }
  replace (- k * (x - a)) with (k * (a - x)) by ring.
  rewrite (exp_overflows _ He). cbn [Ieee.add Ieee.div Ieee.mul].
  f_equal.
  - unfold Ieee.sub. cbn [Ieee.opp Ieee.add].
    rewrite overflow_in_range by (apply in_range_small, Rabs_le; lra). f_equal. lra.
  - destruct (scaled_nonzero Ieee.PInf (x - a) Hx (or_introl eq_refl)) as [->| ->]; reflexivity.
  - destruct (scaled_nonzero Ieee.PInf k Hk (or_introl eq_refl)) as [->| ->]; reflexivity.
Qed.

Lemma hyperbolic_fd_fin (c : coef) (x : R) :
  hyperbolic_fd_in_range c x ->
  Ieee.hyperbolic_fd (of_coef c) (Ieee.Fin x) = of_fd_out (hyperbolic_fd c x).
Proof.
  destruct c as [k a]. unfold hyperbolic_fd_in_range. cbv zeta. cbn [c_0 c_1].
  intros (Hshape & H2k & Hu & H2d & Hsq & Hde & Hke).
  pose proof (exp_pos (2 * k * (x - a))) as Hpos. set (E := exp (2 * k * (x - a))) in *.
  pose proof DBL_MAX_large as Hmax.
  assert (Hd : in_range (x - a)) by now destruct Hshape.
  assert (HE : E + 1 <= Ieee.DBL_MAX) by nra.
  assert (Hden : 1 <= (E + 1) * (E + 1)) by nra.
  unfold Ieee.hyperbolic_fd, of_coef, of_fd_out. cbn [Ieee.c_0 Ieee.c_1 c_0 c_1].
  rewrite (hyperbolic_tangent_fin k a x Hshape).
  assert (Hht : 0 <= hyperbolic_tangent k a x <= 1)
    by (rewrite hyperbolic_as_logistic; apply logistic_range).
  rewrite (sub_fin 1) by (apply in_range_small, Rabs_le; lra).
  rewrite (sub_fin x a) by done.
  rewrite (mul_fin 2 k) by done. rewrite (mul_fin 2 (x - a)) by done.
  rewrite (mul_fin (2 * k)) by done. rewrite exp_fin by (fold E; lra). fold E.
  rewrite (mul_fin (2 * (x - a))) by done. rewrite (mul_fin (2 * k) E) by done.
  rewrite add_fin by (apply in_range_pos; lra).
  rewrite (mul_fin (E + 1)) by (apply in_range_pos; lra).
  cbn [Ieee.opp].
  rewrite !div_fin; [reflexivity|lra|apply in_range_quotient; [done|lra]
                    |lra|apply in_range_quotient; [now apply in_range_opp|lra]].
Qed.

(** When [exp (2 c[0] (x - c[1]))] overflows both components of the
    gradient are NaN. *)
Lemma hyperbolic_fd_overflow (c : coef) (x : R) :
  in_range (x - c_1 c) -> in_range (2 * c_0 c) -> in_range (2 * c_0 c * (x - c_1 c)) ->
  in_range (2 * (x - c_1 c)) ->
  Ieee.DBL_MAX < exp (2 * c_0 c * (x - c_1 c)) ->
  Ieee.grad_0 (Ieee.hyperbolic_fd (of_coef c) (Ieee.Fin x)) = Ieee.NaN /\
  Ieee.grad_1 (Ieee.hyperbolic_fd (of_coef c) (Ieee.Fin x)) = Ieee.NaN.
Proof.
  destruct c as [k a]. cbn [c_0 c_1]. intros Hd H2k Hu H2d He.
  pose proof DBL_MAX_large as Hmax.
  assert (Ht : 0 < 2 * k * (x - a)) by (apply exp_positive_argument; lra).
  assert (Hk : 2 * k <> 0) by (intros H0; rewrite H0 in Ht; lra).
  assert (Hx : 2 * (x - a) <> 0).
  { intros H0. replace (2 * k * (x - a)) with (k * (2 * (x - a))) in Ht by ring.
    rewrite H0 in Ht. lra. }
  unfold Ieee.hyperbolic_fd, of_coef. cbn [Ieee.c_0 Ieee.c_1 Ieee.grad_0 Ieee.grad_1 c_0 c_1].
  rewrite (sub_fin x a) by done.
  rewrite (mul_fin 2 k) by done. rewrite (mul_fin 2 (x - a)) by done.
  rewrite (mul_fin (2 * k)) by done. rewrite (exp_overflows _ He).
  cbn [Ieee.add Ieee.mul].
  split.
  - destruct (scaled_nonzero Ieee.PInf (2 * (x - a)) Hx (or_introl eq_refl)) as [->| ->];
      reflexivity.
  - destruct (scaled_nonzero Ieee.PInf (2 * k) Hk (or_introl eq_refl)) as [->| ->];
      reflexivity.
Qed.

(** ** NaN from [hyperbolic_tangent] *)

Lemma exp_abs_cases (u : R) :
  Ieee.DBL_MAX < exp (Rabs u) ->
  (Ieee.DBL_MAX < exp u /\ exp (- u) <= 1) \/ (Ieee.DBL_MAX < exp (- u) /\ exp u <= 1).
Proof.
  intros H. destruct (Rle_lt_dec 0 u) as [Hu|Hu].
  - left. rewrite Rabs_pos_eq in H by done. split; [done|].
    rewrite <- exp_0. destruct Hu as [Hu| <-].
    + left. apply exp_increasing. lra.
    + right. f_equal. lra.
  - right. rewrite Rabs_left in H by done. split; [done|].
    rewrite <- exp_0. left. now apply exp_increasing.
Qed.

Lemma hyperbolic_tangent_overflow (k alpha x : R) :
  in_range (x - alpha) -> in_range (k * (x - alpha)) ->
  Ieee.DBL_MAX < exp (Rabs (k * (x - alpha))) ->
  Ieee.hyperbolic_tangent (Ieee.Fin k) (Ieee.Fin alpha) (Ieee.Fin x) = Ieee.NaN.
Proof.
  intros Hd Hu He. pose proof DBL_MAX_large as Hmax.
  unfold Ieee.hyperbolic_tangent. rewrite sub_fin by done. cbn [Ieee.opp].
  rewrite mul_fin by done.
  rewrite mul_fin
    by (replace (- k * (x - alpha)) with (- (k * (x - alpha))) by ring; now apply in_range_opp).
  replace (- k * (x - alpha)) with (- (k * (x - alpha))) by ring.
  destruct (exp_abs_cases _ He) as [[Hbig Hsmall]|[Hbig Hsmall]].
  - rewrite (exp_overflows _ Hbig). rewrite exp_fin by lra. reflexivity.
  - rewrite (exp_overflows _ Hbig). rewrite exp_fin by lra. reflexivity.
Qed.

(** With both exponentials in range [hyperbolic_tangent] returns a
    number. *)
Lemma hyperbolic_tangent_number (k alpha x : R) :
  in_range (x - alpha) -> in_range (k * (x - alpha)) ->
  exp (Rabs (k * (x - alpha))) <= Ieee.DBL_MAX ->
  exists v, Ieee.hyperbolic_tangent (Ieee.Fin k) (Ieee.Fin alpha) (Ieee.Fin x) = Ieee.Fin v /\
            0 <= v <= 1.
Proof.
  intros Hd Hu He. pose proof DBL_MAX_large as Hmax.
  pose proof (exp_le_exp_abs (k * (x - alpha))) as H1.
  pose proof (exp_le_exp_abs (- (k * (x - alpha)))) as H2. rewrite Rabs_Ropp in H2.
  pose proof (exp_pos (k * (x - alpha))) as Hp1.
  pose proof (exp_pos (- (k * (x - alpha)))) as Hp2.
  unfold Ieee.hyperbolic_tangent. rewrite sub_fin by done. cbn [Ieee.opp].
  rewrite mul_fin by done.
  rewrite mul_fin
    by (replace (- k * (x - alpha)) with (- (k * (x - alpha))) by ring; now apply in_range_opp).
  replace (- k * (x - alpha)) with (- (k * (x - alpha))) by ring.
  rewrite !exp_fin by lra.
  set (e := exp (k * (x - alpha))) in *. set (e' := exp (- (k * (x - alpha)))) in *.
  rewrite sub_fin by (apply Rabs_le; lra).
  cbn [Ieee.add].
  destruct (overflow_cases (e + e')) as [[Hin ->]|[[_ ->]|[Hneg _]]]; [| |lra].
  - pose proof (quotient_bounds (e - e') (e + e') ltac:(lra) ltac:(lra)).
    rewrite div_fin; [|lra|apply in_range_small, Rabs_le; lra].
    rewrite add_fin by (apply in_range_small, Rabs_le; lra).
    rewrite div_fin; [|lra|apply in_range_small, Rabs_le; lra].
    eexists. split; [reflexivity|lra].
  - cbn [Ieee.div]. rewrite add_fin by (apply in_range_small, Rabs_le; lra).
    rewrite div_fin; [|lra|apply in_range_small, Rabs_le; lra].
    eexists. split; [reflexivity|lra].
Qed.

(** The other four shape functions return a number whenever
    [k (x - alpha)] is finite. *)
Lemma number_of_within (lo hi : R) (d : Ieee.double) :
  nan_or_within lo hi d -> d <> Ieee.NaN -> exists v, d = Ieee.Fin v /\ lo <= v <= hi.
Proof. now intros [->|H] Hd. Qed.

Lemma exp_fin_not_nan (r : R) : Ieee.exp (Ieee.Fin r) <> Ieee.NaN.
Proof.
  cbn [Ieee.exp]. destruct (overflow_cases (exp r)) as [[_ ->]|[[_ ->]|[_ ->]]]; done.
Qed.

Lemma logistic_number (k alpha x : R) :
  in_range (x - alpha) -> in_range (k * (x - alpha)) ->
  exists v, Ieee.logistic (Ieee.Fin k) (Ieee.Fin alpha) (Ieee.Fin x) = Ieee.Fin v /\
            0 <= v <= 1.
Proof.
  intros Hd Hu. apply number_of_within; [apply logistic_within|].
  unfold Ieee.logistic. rewrite sub_fin by done. cbn [Ieee.opp].
  rewrite mul_fin
    by (replace (- k * (x - alpha)) with (- (k * (x - alpha))) by ring; now apply in_range_opp).
  apply sigmoid_returns; [apply exp_returns|apply exp_fin_not_nan].
Qed.

Lemma arctangent_number (k alpha x : R) :
  in_range (x - alpha) -> in_range (k * (x - alpha)) ->
  exists v, Ieee.arctangent (Ieee.Fin k) (Ieee.Fin alpha) (Ieee.Fin x) = Ieee.Fin v /\
            (1 - PI / 2) / 2 <= v <= (1 + PI / 2) / 2.
Proof.
  intros Hd Hu. apply number_of_within; [apply arctangent_within|].
  pose proof PI_4 as Hpi. pose proof PI_RGT_0 as Hpi0.
  pose proof (atan_bound (k * (x - alpha))) as Hatan.
  unfold Ieee.arctangent. rewrite sub_fin, mul_fin by done. cbn [Ieee.atan].
  rewrite add_fin by (apply in_range_small, Rabs_le; lra).
  now rewrite div_fin; [|lra|apply in_range_small, Rabs_le; lra].
Qed.

Lemma gudermannian_number (k alpha x : R) :
  in_range (x - alpha) -> in_range (k * (x - alpha)) ->
  exists v, Ieee.gudermannian (Ieee.Fin k) (Ieee.Fin alpha) (Ieee.Fin x) = Ieee.Fin v /\
            (1 - PI / 2) / 2 <= v <= (1 + PI / 2) / 2.
Proof.
  intros Hd Hu. apply number_of_within; [apply gudermannian_within|].
  pose proof PI_4 as Hpi. pose proof PI_RGT_0 as Hpi0.
  pose proof (atan_bound (tanh (k * (x - alpha) / 2))) as Hatan.
  unfold Ieee.gudermannian. rewrite sub_fin, mul_fin by done.
  rewrite div_fin; [|lra|apply in_range_quotient; [done|lra]].
  cbn [Ieee.tanh Ieee.atan].
  rewrite mul_fin by (apply in_range_small, Rabs_le; lra).
  rewrite add_fin by (apply in_range_small, Rabs_le; lra).
  now rewrite div_fin; [|lra|apply in_range_small, Rabs_le; lra].
Qed.

Lemma algebraic_number (k alpha x : R) :
  in_range (x - alpha) -> in_range (k * (x - alpha)) ->
  exists v, Ieee.algebraic (Ieee.Fin k) (Ieee.Fin alpha) (Ieee.Fin x) = Ieee.Fin v /\
            0 <= v <= 1.
Proof.
  intros Hd Hu. apply number_of_within; [apply algebraic_within|].
  unfold Ieee.algebraic. cbv zeta. rewrite sub_fin, mul_fin by done.
  destruct (algebraic_quotient (k * (x - alpha))) as (q & Hq & ->).
  rewrite add_fin by (apply in_range_small, Rabs_le; lra).
  now rewrite div_fin; [|lra|apply in_range_small, Rabs_le; lra].
Qed.

(** ** The gradient evaluators and the shape functions *)

Lemma partial_0_disagrees r fd c x l :
  partial_0 r c x l -> grad_0 (fd c x) <> l -> ~ exact_gradient r fd c x.
Proof.
  intros Hl Hne (_ & H0 & _). apply Hne.
  exact (uniqueness_limite _ _ _ _ H0 Hl).
Qed.

Lemma partial_1_disagrees r fd c x l :
  partial_1 r c x l -> grad_1 (fd c x) <> l -> ~ exact_gradient r fd c x.
Proof.
  intros Hl Hne (_ & _ & H1). apply Hne.
  exact (uniqueness_limite _ _ _ _ H1 Hl).
Qed.

Lemma logistic_grad_0_at : grad_0 (logistic_fd (Coef 0 0) 1) = - 1.
Proof.
  cbn [grad_0 logistic_fd c_0 c_1]. rewrite Rmult_0_l, exp_0. field.
Qed.

Lemma logistic_partial_0_at : partial_0 logistic_f (Coef 0 0) 1 (- (1 / 4)).
Proof.
  unfold partial_0. cbn [c_0 c_1].
  eapply D_val; [apply logistic_dk|].
  rewrite Rmult_0_l, exp_0. field.
Qed.

Lemma logistic_grad_1_at : grad_1 (logistic_fd (Coef 1 0) 0) = 1 / 2.
Proof.
  cbn [grad_1 logistic_fd c_0 c_1].
  replace (1 * (0 - 0)) with 0 by ring. rewrite exp_0. field.
Qed.

Lemma logistic_partial_1_at : partial_1 logistic_f (Coef 1 0) 0 (1 / 4).
Proof.
  unfold partial_1. cbn [c_0 c_1].
  eapply D_val; [apply logistic_da|].
  replace (1 * (0 - 0)) with 0 by ring. rewrite exp_0. field.
Qed.

Lemma arctangent_grad_1_at : grad_1 (arctangent_fd (Coef 1 0) 0) = - (1 / 2).
Proof. cbn [grad_1 arctangent_fd c_0 c_1]. field. Qed.

Lemma arctangent_partial_1_at : partial_1 arctangent_f (Coef 1 0) 0 (1 / 2).
Proof.
  unfold partial_1. cbn [c_0 c_1].
  eapply D_val; [apply arctangent_da|].
  rewrite arctangent_grad_1_at. lra.
Qed.

Lemma algebraic_grad_1_at : grad_1 (algebraic_fd (Coef 1 0) 0) = - (1 / 2).
Proof.
  cbn [grad_1 algebraic_fd c_0 c_1].
  replace (1 * 1 * (0 - 0) * (0 - 0) + 1) with 1 by ring.
  rewrite !Rmult_1_l, sqrt_1. field.
Qed.

Lemma algebraic_partial_1_at : partial_1 algebraic_f (Coef 1 0) 0 (1 / 2).
Proof.
  unfold partial_1. cbn [c_0 c_1].
  eapply D_val; [apply algebraic_da|].
  rewrite algebraic_grad_1_at. lra.
Qed.

Lemma gudermannian_slope_small : 0 < gudermannian_slope < 1 / 2.
Proof.
  unfold gudermannian_slope, sech.
  pose proof cosh_1_gt_1 as Hc.
  assert (Hi : 0 < / cosh 1 < 1).
  { assert (Hinv : / cosh 1 * cosh 1 = 1) by (apply Rinv_l; lra).
    assert (Hpos : 0 < / cosh 1) by (apply Rinv_0_lt_compat; lra).
    split; [exact Hpos | nra]. }
  assert (Ht : 0 <= tanh 1 * tanh 1) by apply Rle_0_sqr.
  replace (1 / cosh 1) with (/ cosh 1) by (field; lra).
  set (s := / cosh 1) in *. set (t := tanh 1 * tanh 1) in *.
  assert (Hss : 0 < s * s < 1) by nra.
  split.
  - apply Rdiv_lt_0_compat; lra.
  - apply (Rmult_lt_reg_r (2 * (t + 1))); [lra|].
    unfold Rdiv. rewrite Rmult_assoc, Rinv_l by lra. lra.
Qed.

Lemma gudermannian_partial_0_at :
  partial_0 gudermannian_f (Coef 2 0) 1 (- gudermannian_slope).
Proof.
  unfold partial_0. cbn [c_0 c_1].
  eapply D_val; [apply gudermannian_dk|].
  unfold gudermannian_slope.
  replace (/ 2 * 2 * (1 - 0)) with 1 by field.
  pose proof (Rle_0_sqr (tanh 1)) as Ht. unfold Rsqr in Ht.
  field. lra.
Qed.

Lemma gudermannian_partial_1_at :
  partial_1 gudermannian_f (Coef 2 0) 1 (2 * gudermannian_slope).
Proof.
  unfold partial_1. cbn [c_0 c_1].
  eapply D_val; [apply gudermannian_da|].
  unfold gudermannian_slope.
  replace (/ 2 * 2 * (1 - 0)) with 1 by field.
  pose proof (Rle_0_sqr (tanh 1)) as Ht. unfold Rsqr in Ht.
  field. lra.
Qed.

(** C1 (the code at failing inputs).  An evaluator is exact when it
    returns the residual and its two partial derivatives.  Four of the
    five are not: [logistic_fd] returns [grad[0] = -1] at [c = (0, 0)],
    [x = 1], where the derivative in [k] is [-1/4], and [grad[1] = 1/2]
    at [c = (1, 0)], [x = 0], where the derivative in [alpha] is [1/4]
    (the quotient is multiplied by the denominator instead of being
    divided by its square); [arctangent_fd] and [algebraic_fd] return
    [grad[1] = -1/2] at [c = (1, 0)], [x = 0], where the derivative in
    [alpha] is [+1/2] (sign); [gudermannian_fd] returns [(-1/2, 1)] at
    [c = (2, 0)], [x = 1], where the derivatives are
    [- gudermannian_slope] and [2 * gudermannian_slope] with
    [0 < gudermannian_slope < 1/2] (the integer quotient [1/2] is [0]). *)
Theorem gradient_evaluators_at_failing_inputs :
  (grad_0 (logistic_fd (Coef 0 0) 1) = - 1 /\
   partial_0 logistic_f (Coef 0 0) 1 (- (1 / 4)) /\
   ~ exact_gradient logistic_f logistic_fd (Coef 0 0) 1) /\
  (grad_1 (logistic_fd (Coef 1 0) 0) = 1 / 2 /\
   partial_1 logistic_f (Coef 1 0) 0 (1 / 4) /\
   ~ exact_gradient logistic_f logistic_fd (Coef 1 0) 0) /\
  (grad_1 (arctangent_fd (Coef 1 0) 0) = - (1 / 2) /\
   partial_1 arctangent_f (Coef 1 0) 0 (1 / 2) /\
   ~ exact_gradient arctangent_f arctangent_fd (Coef 1 0) 0) /\
  (grad_0 (gudermannian_fd (Coef 2 0) 1) = - (1 / 2) /\
   grad_1 (gudermannian_fd (Coef 2 0) 1) = 1 /\
   partial_0 gudermannian_f (Coef 2 0) 1 (- gudermannian_slope) /\
   partial_1 gudermannian_f (Coef 2 0) 1 (2 * gudermannian_slope) /\
   0 < gudermannian_slope < 1 / 2 /\
   ~ exact_gradient gudermannian_f gudermannian_fd (Coef 2 0) 1) /\
  (grad_1 (algebraic_fd (Coef 1 0) 0) = - (1 / 2) /\
   partial_1 algebraic_f (Coef 1 0) 0 (1 / 2) /\
   ~ exact_gradient algebraic_f algebraic_fd (Coef 1 0) 0).
Proof.
  pose proof gudermannian_slope_small as Hg.
  destruct (gudermannian_fd_value (Coef 2 0) 1) as [Hg0 Hg1]. cbn [c_0 c_1] in Hg0, Hg1.
  repeat apply conj.
  - apply logistic_grad_0_at.
  - apply logistic_partial_0_at.
  - apply (partial_0_disagrees _ _ _ _ _ logistic_partial_0_at).
    rewrite logistic_grad_0_at. lra.
  - apply logistic_grad_1_at.
  - apply logistic_partial_1_at.
  - apply (partial_1_disagrees _ _ _ _ _ logistic_partial_1_at).
    rewrite logistic_grad_1_at. lra.
  - apply arctangent_grad_1_at.
  - apply arctangent_partial_1_at.
  - apply (partial_1_disagrees _ _ _ _ _ arctangent_partial_1_at).
    rewrite arctangent_grad_1_at. lra.
  - rewrite Hg0. lra.
  - rewrite Hg1. lra.
  - apply gudermannian_partial_0_at.
  - apply gudermannian_partial_1_at.
  - apply Hg.
  - apply Hg.
  - apply (partial_0_disagrees _ _ _ _ _ gudermannian_partial_0_at).
    rewrite Hg0. lra.
  - apply algebraic_grad_1_at.
  - apply algebraic_partial_1_at.
  - apply (partial_1_disagrees _ _ _ _ _ algebraic_partial_1_at).
    rewrite algebraic_grad_1_at. lra.
Qed.

Lemma hyperbolic_tangent_closed_form (k alpha x : R) :
  hyperbolic_tangent k alpha x = (tanh (k * (x - alpha)) + 1) / 2.
Proof.
  unfold hyperbolic_tangent, tanh, sinh, cosh.
  rewrite <- Ropp_mult_distr_l.
  pose proof (exp_pos (k * (x - alpha))). pose proof (exp_pos (- (k * (x - alpha)))).
  field. lra.
Qed.

Lemma shape_in_range_small (k alpha x : R) :
  Rabs (x - alpha) <= 1024 -> Rabs (k * (x - alpha)) <= 2 -> shape_in_range k alpha x.
Proof.
  intros Hd Hu. split; [apply in_range_small; lra|].
  pose proof DBL_MAX_large. pose proof exp_le_3 as H3.
  assert (exp (Rabs (k * (x - alpha))) <= exp 2).
  { destruct Hu as [Hu| ->]; [left; now apply exp_increasing|lra]. }
  assert (exp 2 <= 9).
  { replace 2 with (1 + 1) by lra. rewrite exp_plus. pose proof (exp_pos 1). nra. }
  lra.
Qed.

Lemma shape_in_range_unit : shape_in_range 1 0 1.
Proof.
  apply shape_in_range_small.
  - replace (1 - 0) with 1 by lra. rewrite Rabs_pos_eq; lra.
  - replace (1 * (1 - 0)) with 1 by lra. rewrite Rabs_pos_eq; lra.
Qed.

Lemma shape_in_range_origin : shape_in_range 1 0 0.
Proof.
  apply shape_in_range_small.
  - replace (0 - 0) with 0 by lra. rewrite Rabs_R0; lra.
  - replace (1 * (0 - 0)) with 0 by lra. rewrite Rabs_R0; lra.
Qed.

(** C7 (the code at a failing input).  Where no intermediate result
    overflows each shape function returns its closed form: logistic
    [1/(1+exp(-k(x-alpha)))], hyperbolic tangent [(tanh(k(x-alpha))+1)/2],
    arctangent [(atan(k(x-alpha))+1)/2], Gudermannian
    [(2 atan(tanh(k(x-alpha)/2))+1)/2], simple algebraic
    [(k(x-alpha)/sqrt(1+(k(x-alpha))^2)+1)/2]; and each family's residual
    evaluator (the [_f] callback and the [func] of the [_fd] callback)
    is [1 - shape(c[0], c[1], x)].  But [hyperbolic_tangent] divides a
    difference of exponentials by their sum: once [exp |k (x - alpha)|] exceeds [DBL_MAX] it
    returns NaN, where its closed form is a number between 0 and 1 and
    the other four functions return a number.  At [k = 1000],
    [alpha = 0], [x = 1] it returns NaN, and so does the residual of
    [hyperbolic_fd]. *)
Theorem shape_functions_closed_forms :
  (forall k alpha x : R,
     shape_in_range k alpha x ->
     Ieee.logistic (Ieee.Fin k) (Ieee.Fin alpha) (Ieee.Fin x)
     = Ieee.Fin (1 / (1 + exp (- (k * (x - alpha))))) /\
     Ieee.hyperbolic_tangent (Ieee.Fin k) (Ieee.Fin alpha) (Ieee.Fin x)
     = Ieee.Fin ((tanh (k * (x - alpha)) + 1) / 2) /\
     Ieee.arctangent (Ieee.Fin k) (Ieee.Fin alpha) (Ieee.Fin x)
     = Ieee.Fin ((atan (k * (x - alpha)) + 1) / 2) /\
     Ieee.gudermannian (Ieee.Fin k) (Ieee.Fin alpha) (Ieee.Fin x)
     = Ieee.Fin ((2 * atan (tanh (k * (x - alpha) / 2)) + 1) / 2) /\
     Ieee.algebraic (Ieee.Fin k) (Ieee.Fin alpha) (Ieee.Fin x)
     = Ieee.Fin ((k * (x - alpha) / sqrt (1 + (k * (x - alpha)) ^ 2) + 1) / 2)) /\
  (forall (c : coef) (x : R),
     logistic_f c x = 1 - logistic (c_0 c) (c_1 c) x /\
     func (logistic_fd c x) = 1 - logistic (c_0 c) (c_1 c) x /\
     hyperbolic_f c x = 1 - hyperbolic_tangent (c_0 c) (c_1 c) x /\
     func (hyperbolic_fd c x) = 1 - hyperbolic_tangent (c_0 c) (c_1 c) x /\
     arctangent_f c x = 1 - arctangent (c_0 c) (c_1 c) x /\
     func (arctangent_fd c x) = 1 - arctangent (c_0 c) (c_1 c) x /\
     gudermannian_f c x = 1 - gudermannian (c_0 c) (c_1 c) x /\
     func (gudermannian_fd c x) = 1 - gudermannian (c_0 c) (c_1 c) x /\
     algebraic_f c x = 1 - algebraic (c_0 c) (c_1 c) x /\
     func (algebraic_fd c x) = 1 - algebraic (c_0 c) (c_1 c) x) /\
  (forall k alpha x : R,
     in_range (x - alpha) -> in_range (k * (x - alpha)) ->
     Ieee.DBL_MAX < exp (Rabs (k * (x - alpha))) ->
     Ieee.hyperbolic_tangent (Ieee.Fin k) (Ieee.Fin alpha) (Ieee.Fin x) = Ieee.NaN /\
     0 < (tanh (k * (x - alpha)) + 1) / 2 < 1 /\
     (exists v, Ieee.logistic (Ieee.Fin k) (Ieee.Fin alpha) (Ieee.Fin x) = Ieee.Fin v) /\
     (exists v, Ieee.arctangent (Ieee.Fin k) (Ieee.Fin alpha) (Ieee.Fin x) = Ieee.Fin v) /\
     (exists v, Ieee.gudermannian (Ieee.Fin k) (Ieee.Fin alpha) (Ieee.Fin x) = Ieee.Fin v) /\
     (exists v, Ieee.algebraic (Ieee.Fin k) (Ieee.Fin alpha) (Ieee.Fin x) = Ieee.Fin v)) /\
  Ieee.hyperbolic_tangent (Ieee.Fin 1) (Ieee.Fin 0) (Ieee.Fin 1)
  = Ieee.Fin ((tanh (1 * (1 - 0)) + 1) / 2) /\
  Ieee.hyperbolic_tangent (Ieee.Fin 1000) (Ieee.Fin 0) (Ieee.Fin 1) = Ieee.NaN /\
  Ieee.func (Ieee.hyperbolic_fd (Ieee.Coef (Ieee.Fin 1000) (Ieee.Fin 0)) (Ieee.Fin 1))
  = Ieee.NaN.
Proof.
  assert (Hforms : forall k alpha x : R,
            shape_in_range k alpha x ->
            Ieee.hyperbolic_tangent (Ieee.Fin k) (Ieee.Fin alpha) (Ieee.Fin x)
            = Ieee.Fin ((tanh (k * (x - alpha)) + 1) / 2)).
  { intros k alpha x H. rewrite hyperbolic_tangent_fin by done.
    now rewrite hyperbolic_tangent_closed_form. }
  assert (Hnan : Ieee.hyperbolic_tangent (Ieee.Fin 1000) (Ieee.Fin 0) (Ieee.Fin 1) = Ieee.NaN).
  { apply hyperbolic_tangent_overflow.
    - apply in_range_small, Rabs_le. lra.
    - apply in_range_small, Rabs_le. lra.
    - replace (1000 * (1 - 0)) with 1000 by lra. rewrite Rabs_pos_eq by lra.
      apply exp_1000_overflows. }
  split.
  { intros k alpha x H. split.
    - rewrite logistic_fin by done. unfold logistic. now rewrite Ropp_mult_distr_l.
    - split; [now apply Hforms|]. split; [now apply arctangent_fin|].
      split; [now apply gudermannian_fin|].
      rewrite algebraic_fin by done. unfold algebraic. cbv zeta.
      now replace ((k * (x - alpha)) ^ 2) with (k * (x - alpha) * (k * (x - alpha))) by ring. }
  split; [intros c x; repeat apply conj; reflexivity|].
  split.
  { intros k alpha x Hd Hu He.
    split; [now apply hyperbolic_tangent_overflow|].
    split; [pose proof (tanh_range (k * (x - alpha))); lra|].
    destruct (logistic_number k alpha x Hd Hu) as (v1 & H1 & _).
    destruct (arctangent_number k alpha x Hd Hu) as (v2 & H2 & _).
    destruct (gudermannian_number k alpha x Hd Hu) as (v3 & H3 & _).
    destruct (algebraic_number k alpha x Hd Hu) as (v4 & H4 & _).
    eauto 10. }
  split; [apply Hforms, shape_in_range_unit|].
  split; [exact Hnan|].
  cbn [Ieee.func Ieee.hyperbolic_fd Ieee.c_0 Ieee.c_1]. now rewrite Hnan.
Qed.

(** ** Loops over vectors *)

Section Loops.
Context {A : Type}.
Implicit Types (v u : list A) (body : nat -> list A -> outcome (list A)).

Lemma vec_at_lookup v i a : v !! i = Some a -> vec_at v i = Normal a.
Proof. unfold vec_at. now intros ->. Qed.

Lemma vec_at_beyond v i : (length v <= i)%nat -> vec_at v i = Undefined.
Proof. intros H. unfold vec_at. now rewrite lookup_ge_None_2. Qed.

Lemma vec_set_within v i a : (i < length v)%nat -> vec_set v i a = Normal (<[i := a]> v).
Proof. intros H. unfold vec_set. now rewrite decide_True. Qed.

(** A loop whose round [i] stores [g i] in cell [i + off] fills the
    cells [first + off .. first + off + n - 1] and leaves the others
    alone. *)
Lemma for_range_fill body (g : nat -> A) (off n : nat) : forall first v,
  (first + off + n <= length v)%nat ->
  (forall i u, (first <= i < first + n)%nat -> length u = length v ->
               body i u = Normal (<[(i + off)%nat := g i]> u)) ->
  exists v', for_range first n body v = Normal v' /\ length v' = length v /\
    forall j, v' !! j =
              if decide (first + off <= j < first + off + n)%nat
              then Some (g (j - off)%nat) else v !! j.
Proof.
  induction n as [|n IH]; intros first v Hlen Hbody.
  - exists v. split; [done|]. split; [done|].
    intros j. rewrite decide_False by lia. done.
  - cbn [for_range]. rewrite Hbody by (done || lia). cbn.
    destruct (IH (S first) (<[(first + off)%nat := g first]> v))
      as (v' & Hrun & Hl & Hget).
    + rewrite length_insert. lia.
    + intros i u Hi Hu. rewrite length_insert in Hu. apply Hbody; [lia | done].
    + exists v'. split; [exact Hrun|]. rewrite length_insert in Hl. split; [done|].
      intros j. rewrite Hget.
      destruct (decide (j = first + off)%nat) as [->|Hne].
      * rewrite decide_False by lia. rewrite decide_True by lia.
        replace (first + off - off)%nat with first by lia.
        apply list_lookup_insert_eq. lia.
      * rewrite list_lookup_insert_ne by done.
        repeat case_decide; (done || lia).
Qed.

(** A loop that reaches a round which reads past the end is undefined,
    when no round throws. *)
Lemma for_range_undefined body n : forall first v k,
  (first <= k < first + n)%nat ->
  (forall i u msg, body i u <> Throws msg) ->
  (forall u, body k u = Undefined) ->
  for_range first n body v = Undefined.
Proof.
  induction n as [|n IH]; intros first v k Hk Hok Hbad; [lia|].
  cbn [for_range]. destruct (decide (first = k)) as [->|Hne].
  - now rewrite Hbad.
  - destruct (body first v) as [u'|msg|] eqn:Hb; cbn.
    + apply (IH _ _ k); [lia | done | done].
    + now apply Hok in Hb.
    + done.
Qed.
End Loops.

Lemma load_copy (src : list R) :
  for_range 0 (length src)
    (fun i x => a ← vec_at src i; vec_set x i a) (replicate (length src) 0)
  = Normal src.
Proof.
  destruct (for_range_fill
              (fun i x => a ← vec_at src i; vec_set x i a)
              (fun i => default 0 (src !! i)) 0%nat (length src) 0%nat
              (replicate (length src) 0)) as (v' & -> & Hl & Hget).
  - rewrite length_replicate. lia.
  - intros i u Hi Hu. rewrite length_replicate in Hu.
    destruct (lookup_lt_is_Some_2 src i) as [a Ha]; [lia|].
    rewrite (vec_at_lookup _ _ _ Ha). cbn. rewrite Ha. cbn.
    rewrite Nat.add_0_r. apply vec_set_within. lia.
  - f_equal. rewrite length_replicate in Hl. apply list_eq. intros i. rewrite Hget, Nat.sub_0_r.
    case_decide as Hi.
    + destruct (lookup_lt_is_Some_2 src i) as [a Ha]; [lia|]. now rewrite Ha.
    + rewrite lookup_ge_None_2 by (rewrite length_replicate; lia).
      symmetry. apply lookup_ge_None_2. lia.
Qed.

Lemma load_x_ok sd : load_x sd = Normal sd.
Proof. apply load_copy. Qed.
Lemma load_y_ok ys : load_y ys = Normal ys.
Proof. apply load_copy. Qed.

Lemma load_w_within sd ys :
  (length ys <= length sd)%nat ->
  load_w sd ys = Normal (squares (take (length ys) sd)).
Proof.
  intros Hle. unfold load_w.
  destruct (for_range_fill
              (fun i w => a ← vec_at sd i; b ← vec_at sd i; vec_set w i (a * b))
              (fun i => default 0 (sd !! i) * default 0 (sd !! i)) 0%nat (length ys) 0%nat
              (replicate (length ys) 0)) as (v' & -> & Hl & Hget).
  - rewrite length_replicate. lia.
  - intros i u Hi Hu. rewrite length_replicate in Hu.
    destruct (lookup_lt_is_Some_2 sd i) as [a Ha]; [lia|].
    rewrite (vec_at_lookup _ _ _ Ha). cbn. rewrite Ha. cbn.
    rewrite Nat.add_0_r. apply vec_set_within. lia.
  - f_equal. rewrite length_replicate in Hl. apply list_eq. intros i. rewrite Hget, Nat.sub_0_r.
    unfold squares. rewrite list_lookup_fmap.
    case_decide as Hi.
    + rewrite lookup_take_lt by lia.
      destruct (lookup_lt_is_Some_2 sd i) as [a Ha]; [lia|]. now rewrite Ha.
    + rewrite lookup_ge_None_2 by (rewrite length_replicate; lia).
      rewrite lookup_take_ge by lia. done.
Qed.

Lemma load_w_beyond sd ys :
  (length sd < length ys)%nat -> load_w sd ys = Undefined.
Proof.
  intros Hlt. unfold load_w.
  apply (for_range_undefined _ _ _ _ (length sd)); [lia | |].
  - intros i u msg. destruct (vec_at sd i) as [a| |] eqn:Ha; cbn.
    + unfold vec_set. case_decide; done.
    + unfold vec_at in Ha. destruct (sd !! i); done.
    + done.
  - intros u. now rewrite vec_at_beyond.
Qed.

Lemma ecdf_y_length l : length (ecdf_y l) = (l + 2)%nat.
Proof. unfold ecdf_y. cbn. rewrite length_app, length_fmap, length_seq. cbn. lia. Qed.

Lemma ecdf_y_lookup l j :
  ecdf_y l !! j =
  if decide (j = 0)%nat then Some 1
  else if decide (j <= l)%nat then Some (1 - INR j / INR (l + 1))
  else if decide (j = l + 1)%nat then Some 0 else None.
Proof.
  unfold ecdf_y. destruct j as [|j]; [done|].
  change ((1 :: ?t) !! S j) with (t !! j).
  rewrite decide_False by lia.
  destruct (decide (S j <= l)%nat) as [Hj|Hj].
  - rewrite lookup_app_l by (rewrite length_fmap, length_seq; lia).
    rewrite list_lookup_fmap, lookup_seq_lt by lia. done.
  - rewrite lookup_app_r by (rewrite length_fmap, length_seq; lia).
    rewrite length_fmap, length_seq.
    destruct (decide (S j = l + 1)%nat) as [Hj'|Hj'].
    + replace (j - l)%nat with 0%nat by lia. done.
    + destruct (j - l)%nat as [|[|m]] eqn:E; [lia|done|done].
Qed.

Lemma ecdf_points_ok (d : list R) :
  ecdf_points d = Normal (0 :: d ++ [1], ecdf_y (length d)).
Proof.
  unfold ecdf_points. set (l := length d).
  destruct (for_range_fill
              (fun i y => vec_set y (i + 1) (1 - INR (i + 1) / INR (l + 1)))
              (fun i => 1 - INR (i + 1) / INR (l + 1)) 1%nat l 0%nat
              (replicate (l + 2) 0)) as (y & Hrun & Hl & Hget).
  - rewrite length_replicate. lia.
  - intros i u Hi Hu. rewrite length_replicate in Hu.
    apply vec_set_within. lia.
  - rewrite Hrun. cbn. rewrite length_replicate in Hl.
    rewrite vec_set_within by lia. cbn.
    rewrite vec_set_within by (rewrite length_insert; lia). cbn.
    f_equal. f_equal. apply list_eq. intros j. rewrite ecdf_y_lookup.
    destruct (decide (j = l + 1)%nat) as [->|Hj1].
    { rewrite list_lookup_insert_eq by (rewrite length_insert; lia).
      rewrite decide_False, decide_False by lia. done. }
    rewrite list_lookup_insert_ne by lia.
    destruct (decide (j = 0)%nat) as [->|Hj0].
    { rewrite list_lookup_insert_eq by lia. done. }
    rewrite list_lookup_insert_ne by lia. rewrite Hget.
    destruct (decide (j <= l)%nat) as [Hj|Hj].
    + rewrite decide_True by lia. replace (j - 1 + 1)%nat with j by lia. done.
    + rewrite decide_False by lia. apply lookup_ge_None_2.
      rewrite length_replicate. lia.
Qed.

Lemma launch_ok (sd : list (string * list R)) :
  launch sd =
  Normal ((fun p => (p.1, 0 :: p.2 ++ [1])) <$> sd,
          (fun p => JobOf p.1 (0 :: p.2 ++ [1]) (ecdf_y (length p.2))) <$> sd).
Proof.
  induction sd as [|[name d] sd IH]; [done|].
  cbn [launch]. rewrite ecdf_points_ok. cbn. rewrite IH. done.
Qed.

(** One thread per entry of the map, under the entry's class name. *)
Lemma launch_classes (sd sd' : list (string * list R)) (jobs : list Job) :
  launch sd = Normal (sd', jobs) -> job_class <$> jobs = sd.*1.
Proof.
  rewrite launch_ok. intros [= _ <-]. rewrite <- list_fmap_compose.
  now apply list_fmap_ext.
Qed.

(** ** The ECDF points *)

Lemma ecdf_y_lookup_le l j :
  (j <= l + 1)%nat -> ecdf_y l !! j = Some (1 - INR j / INR (l + 1)).
Proof.
  intros Hj. rewrite ecdf_y_lookup.
  assert (Hl : INR (l + 1) <> 0) by (apply not_0_INR; lia).
  repeat case_decide; subst; f_equal; try lia.
  - cbn [INR]. field. exact Hl.
  - field. exact Hl.
Qed.

Lemma ecdf_y_lookup_gt l j : (l + 1 < j)%nat -> ecdf_y l !! j = None.
Proof. intros Hj. apply lookup_ge_None_2. rewrite ecdf_y_length. lia. Qed.

Lemma ecdf_y_antitone l i j yi yj :
  (i <= j)%nat -> ecdf_y l !! i = Some yi -> ecdf_y l !! j = Some yj -> yj <= yi.
Proof.
  intros Hij Hi Hj.
  assert (Hjl : (j <= l + 1)%nat).
  { apply lookup_lt_Some in Hj. rewrite ecdf_y_length in Hj. lia. }
  rewrite ecdf_y_lookup_le in Hi, Hj by lia.
  injection Hi as <-. injection Hj as <-.
  assert (Hl : 0 < INR (l + 1)) by (apply lt_0_INR; lia).
  assert (Hle : INR i <= INR j) by (apply le_INR; lia).
  assert (INR i / INR (l + 1) <= INR j / INR (l + 1)); [|lra].
  unfold Rdiv. apply Rmult_le_compat_r; [|exact Hle].
  left. now apply Rinv_0_lt_compat.
Qed.

(** C4.  For a class of [l >= 0] distances the construction yields [X]
    (the entry's new vector), [Y] and the weights [W] that [curveFitting]
    builds from them, all of length [l + 2]: [X] is the distances in
    order with 0 in front and 1 at the back, [Y[0] = 1], [Y[l+1] = 0],
    [Y[i] = 1 - i/(l+1)] for [1 <= i <= l], [Y] never increases, and
    [W[i] = X[i] * X[i]] at every index, the two boundary points
    included. *)
Theorem ecdf_builder (distances : list R) :
  let l := length distances in
  exists X Y W,
    ecdf_points distances = Normal (X, Y) /\ load_w X Y = Normal W /\
    length X = (l + 2)%nat /\ length Y = (l + 2)%nat /\ length W = (l + 2)%nat /\
    X = 0 :: distances ++ [1] /\
    Y !! 0%nat = Some 1 /\ Y !! (l + 1)%nat = Some 0 /\
    (forall i, (1 <= i <= l)%nat -> Y !! i = Some (1 - INR i / INR (l + 1))) /\
    (forall i j yi yj, (i <= j)%nat -> Y !! i = Some yi -> Y !! j = Some yj -> yj <= yi) /\
    (forall i xi, X !! i = Some xi -> W !! i = Some (xi * xi)).
Proof.
  intros l.
  assert (HX : length (0 :: distances ++ [1]) = (l + 2)%nat).
  { cbn. rewrite length_app. cbn. lia. }
  exists (0 :: distances ++ [1]), (ecdf_y l),
         (squares (take (length (ecdf_y l)) (0 :: distances ++ [1]))).
  split; [apply ecdf_points_ok|].
  split; [apply load_w_within; rewrite ecdf_y_length; lia|].
  rewrite ecdf_y_length, take_ge by lia.
  split; [exact HX|]. split; [done|].
  split; [unfold squares; now rewrite length_fmap|].
  split; [done|]. split; [done|].
  split; [rewrite ecdf_y_lookup; repeat case_decide; (done || lia)|].
  split; [intros i Hi; apply ecdf_y_lookup_le; lia|].
  split; [apply ecdf_y_antitone|].
  intros i xi Hi. unfold squares. now rewrite list_lookup_fmap, Hi.
Qed.

(** The scenario of the specification: seven points, with
    [Y = 1, 5/6, 4/6, 3/6, 2/6, 1/6, 0]. *)
Lemma scenario_points :
  ecdf_points scenario_distances = Normal (scenario_x, ecdf_y 5) /\
  ecdf_y 5 = [1; 1 - 1 / 6; 1 - 2 / 6; 1 - 3 / 6; 1 - 4 / 6; 1 - 5 / 6; 0].
Proof.
  split; [apply ecdf_points_ok|].
  unfold ecdf_y. cbn [seq fmap list_fmap app Nat.add INR]. repeat f_equal; lra.
Qed.

(** The statement above for the scenario. *)
Lemma ecdf_builder_example :
  exists X Y W,
    ecdf_points scenario_distances = Normal (X, Y) /\ load_w X Y = Normal W /\
    length X = 7%nat /\ length Y = 7%nat /\ length W = 7%nat /\
    X = 0 :: scenario_distances ++ [1] /\
    Y !! 0%nat = Some 1 /\ Y !! 6%nat = Some 0 /\
    (forall i, (1 <= i <= 5)%nat -> Y !! i = Some (1 - INR i / INR 6)) /\
    (forall i j yi yj, (i <= j)%nat -> Y !! i = Some yi -> Y !! j = Some yj -> yj <= yi) /\
    (forall i xi, X !! i = Some xi -> W !! i = Some (xi * xi)).
Proof. exact (ecdf_builder scenario_distances). Defined.

(** C9.  [fitClasses] updates the caller's map in place: whatever the
    solver does and in whatever order the threads are joined, after the
    call every entry keeps its key and its position, and its vector is
    the original one with 0 inserted in front and 1 appended; nothing
    else of the map changes. *)
Theorem fitClasses_updates_input (solver : Solver)
    (threads_order : list Job -> list Job)
    (sorted_distances : list (string * list R)) :
  exists r, fitClasses solver threads_order sorted_distances
            = Normal ((fun entry => (entry.1, 0 :: entry.2 ++ [1])) <$> sorted_distances, r).
Proof.
  unfold fitClasses. rewrite launch_ok. cbn. eauto.
Qed.

(** ** The five fits *)

Lemma bind_lsfit_fitted {B : Type} (solver : Solver) (call : LsfitCall)
    (k : coef * R -> Fit B) (c' : coef) (e : R) :
  solver call = Fitted c' e ->
  lsfit solver call ≫= k = ([call] ++ (k (c', e)).1, (k (c', e)).2).
Proof.
  intros H. unfold lsfit. rewrite H. unfold mbind, Fit_bind.
  now destruct (k (c', e)).
Qed.

Lemma bind_lsfit_error {B : Type} (solver : Solver) (call : LsfitCall)
    (k : coef * R -> Fit B) (msg : string) :
  solver call = ApError msg -> lsfit solver call ≫= k = ([call], Throws msg).
Proof. intros H. unfold lsfit. now rewrite H. Qed.

(** Runs [fit_all] symbolically: one case per place where the solver may
    throw, and the case of five fits. *)
Ltac fit_round solver :=
  match goal with
  | |- context [mbind ?k (lsfit solver ?call)] =>
      let E := fresh "Hreply" in
      destruct (solver call) as [? ?|?] eqn:E;
      [ rewrite (bind_lsfit_fitted solver call k _ _ E)
      | rewrite (bind_lsfit_error solver call k _ E) ];
      cbv beta iota zeta
  end.
Ltac run_fit_all solver :=
  unfold fit_all; cbv beta iota zeta; repeat fit_round solver;
  cbn [fst snd mret Fit_ret app].

Section Fitter.
Variable solver : Solver.

Lemma fit_all_trace x y w :
  let calls := (fit_all solver x y w).1 in
  Forall (same_data x y w) calls /\
  Forall no_stopping_condition calls /\
  (fun call => (fit_func call, fit_grad call)) <$> calls `prefix_of` families /\
  chained solver initial_guess calls.
Proof.
  cbv zeta. run_fit_all solver.
  all: split; [repeat constructor|].
  all: split; [repeat constructor|].
  all: split; [eexists; reflexivity|].
  all: cbn [chained fit_c];
       repeat match goal with H : solver _ = _ |- _ => rewrite H; clear H end;
       repeat split.
Qed.

Lemma fit_all_results x y w results :
  (fit_all solver x y w).2 = Normal results ->
  length (fit_all solver x y w).1 = 5%nat /\
  functionName <$> results = family_names.
Proof. run_fit_all solver; intros [= <-]; split; reflexivity. Qed.

Lemma fit_all_defined x y w : (fit_all solver x y w).2 <> Undefined.
Proof. run_fit_all solver; discriminate. Qed.

(** A call that the solver answers with an exception is the last one,
    and the exception is the outcome. *)
Lemma fit_all_throws x y w call msg :
  call ∈ (fit_all solver x y w).1 -> solver call = ApError msg ->
  (fit_all solver x y w).2 = Throws msg /\ last (fit_all solver x y w).1 = Some call.
Proof.
  run_fit_all solver; intros Hin Herr;
  repeat (apply elem_of_cons in Hin as [->|Hin];
          [first [congruence | split; [congruence | reflexivity]]|]);
  apply elem_of_nil in Hin; destruct Hin.
Qed.

(** With no exception the five results are there. *)
Lemma fit_all_normal x y w :
  (forall call, call ∈ (fit_all solver x y w).1 -> exists c' e, solver call = Fitted c' e) ->
  exists results, (fit_all solver x y w).2 = Normal results.
Proof.
  run_fit_all solver; intros Hok; eauto.
  all: match goal with H : solver ?call = ApError _ |- _ =>
         destruct (Hok call) as (? & ? & ?); [|congruence] end.
  all: repeat first [apply list_elem_of_here | apply list_elem_of_further].
Qed.
End Fitter.

(** ** Selection of the best fit *)

Lemma keep_smaller_scan (rest seen : list FitResult) : forall i best,
  first_minimum seen i best ->
  exists i', first_minimum (seen ++ rest) i' (fold_left keep_smaller rest best).
Proof.
  revert seen. induction rest as [|r rest IH]; intros seen i best Hmin.
  - exists i. now rewrite app_nil_r.
  - cbn [fold_left]. replace (seen ++ r :: rest) with ((seen ++ [r]) ++ rest)
      by now rewrite <- app_assoc.
    destruct Hmin as (Hi & Hall & Hbefore).
    unfold keep_smaller at 2. destruct (Rlt_dec (wrmsError r) (wrmsError best)) as [Hlt|Hge].
    + apply (IH _ (length seen)). split; [|split].
      * rewrite lookup_app_r by lia. now rewrite Nat.sub_diag.
      * intros r' [Hr'|Hr']%elem_of_app.
        -- specialize (Hall _ Hr'). lra.
        -- apply list_elem_of_singleton in Hr' as ->. lra.
      * intros j r' Hj Hr'. rewrite lookup_app_l in Hr' by lia.
        apply list_elem_of_lookup_2 in Hr'. specialize (Hall _ Hr'). lra.
    + apply (IH _ i). split; [|split].
      * apply lookup_app_l_Some. exact Hi.
      * intros r' [Hr'|Hr']%elem_of_app.
        -- now apply Hall.
        -- apply list_elem_of_singleton in Hr' as ->. lra.
      * intros j r' Hj Hr'. apply (Hbefore j); [done|].
        apply lookup_lt_Some in Hi. now rewrite lookup_app_l in Hr' by lia.
Qed.

Lemma select_best_first_minimum (results : list FitResult) :
  results <> [] ->
  exists i best, select_best results = Normal best /\ first_minimum results i best.
Proof.
  destruct results as [|r0 rest]; [done|intros _].
  assert (Hr0 : keep_smaller r0 r0 = r0).
  { unfold keep_smaller. destruct (Rlt_dec _ _); [lra|done]. }
  destruct (keep_smaller_scan rest [r0] 0%nat r0) as [i Hi].
  - split; [done|]. split.
    + intros r ->%list_elem_of_singleton. lra.
    + intros j r Hj. lia.
  - exists i, (fold_left keep_smaller rest r0). split; [|exact Hi].
    unfold select_best, vec_at. cbn [lookup list_lookup mbind outcome_bind fold_left].
    now rewrite Hr0.
Qed.

Lemma select_best_empty : select_best [] = Undefined.
Proof. reflexivity. Qed.

Section Class.
Variable solver : Solver.

(** [fit_class] once the three arrays are loaded. *)
Lemma fit_class_within sd ys :
  (length ys <= length sd)%nat ->
  let w := squares (take (length ys) sd) in
  fit_class solver sd ys =
  ((fit_all solver sd ys w).1,
   match (fit_all solver sd ys w).2 with
   | Normal results => select_best results
   | Throws msg => Throws msg
   | Undefined => Undefined
   end).
Proof.
  intros Hle w. unfold fit_class.
  rewrite load_x_ok, load_y_ok, load_w_within by done. fold w.
  unfold lift, mbind, Fit_bind. cbv beta iota.
  destruct (fit_all solver sd ys w) as [t [results|msg|]]; cbn [fst snd];
    rewrite ?app_nil_r; reflexivity.
Qed.

Lemma fit_class_beyond sd ys :
  (length sd < length ys)%nat -> fit_class solver sd ys = ([], Undefined).
Proof.
  intros Hlt. unfold fit_class.
  rewrite load_x_ok, load_y_ok, load_w_beyond by done. reflexivity.
Qed.
End Class.

Lemma fit_all_five (solver : Solver) x y w results :
  (fit_all solver x y w).2 = Normal results -> length results = 5%nat.
Proof.
  intros H. apply fit_all_results in H as [_ H].
  apply (f_equal length) in H. now rewrite length_fmap in H.
Qed.

(** What a call of [curveFitting] that returns has done. *)
Lemma curveFitting_normal (solver : Solver) sd ys cls (t t' : BestFitTable) :
  curveFitting solver sd ys cls t = Normal t' ->
  (length ys <= length sd)%nat /\
  exists results best,
    (fit_all solver sd ys (squares (take (length ys) sd))).2 = Normal results /\
    select_best results = Normal best /\
    t' = <[cls := best]> t.
Proof.
  unfold curveFitting. intros H.
  destruct (decide (length ys <= length sd)%nat) as [Hle|Hgt].
  - split; [done|]. rewrite (fit_class_within solver sd ys Hle) in H.
    cbv zeta in H. cbn [snd] in H.
    destruct (fit_all solver sd ys _).2 as [results|msg|]; [|done|done].
    destruct (select_best results) as [best| |] eqn:Hbest; [|done|done].
    injection H as <-. eauto.
  - rewrite fit_class_beyond in H by lia. done.
Qed.

(** C5.  When [curveFitting] returns for a class, its five fits have
    produced five results, named in the order logistic, hyperbolic
    tangent, arctangent, Gudermannian, simple algebraic; the entry it
    stores is one of them, no result has a smaller weighted-RMS error,
    and every result before it in that order has a strictly larger one
    (the first minimal result wins). *)
Theorem best_fit_selection (solver : Solver) (sorted_distances y_values : list R)
    (className : string) (t t' : BestFitTable) :
  curveFitting solver sorted_distances y_values className t = Normal t' ->
  exists results best i,
    (fit_class solver sorted_distances y_values).2 = Normal best /\
    (fit_all solver sorted_distances y_values
       (squares (take (length y_values) sorted_distances))).2 = Normal results /\
    functionName <$> results = family_names /\
    select_best results = Normal best /\
    results !! i = Some best /\
    (forall r, r ∈ results -> wrmsError best <= wrmsError r) /\
    (forall j r, (j < i)%nat -> results !! j = Some r ->
                 wrmsError best < wrmsError r) /\
    t' = <[className := best]> t.
Proof.
  intros H. pose proof H as H'.
  apply curveFitting_normal in H as (Hle & results & best & Hfit & Hbest & ->).
  destruct (select_best_first_minimum results) as (i & best' & Hbest' & Hi & Hmin & Hfirst).
  { intros ->. now apply fit_all_five in Hfit. }
  assert (best' = best) as -> by congruence.
  exists results, best, i. split.
  { rewrite (fit_class_within solver _ _ Hle). cbv zeta. cbn [snd]. now rewrite Hfit. }
  split; [done|]. split; [now apply fit_all_results in Hfit|]. done.
Qed.

Lemma keep_smaller_lt (bestFit result : FitResult) :
  wrmsError result < wrmsError bestFit -> keep_smaller bestFit result = result.
Proof. intros H. unfold keep_smaller. now destruct (Rlt_dec _ _). Qed.

Lemma keep_smaller_ge (bestFit result : FitResult) :
  wrmsError bestFit <= wrmsError result -> keep_smaller bestFit result = bestFit.
Proof. intros H. unfold keep_smaller. destruct (Rlt_dec _ _); [lra|done]. Qed.

Ltac compare_errors :=
  repeat match goal with
  | |- context [keep_smaller (FitResultOf ?c1 ?n1 ?e1) (FitResultOf ?c2 ?n2 ?e2)] =>
      first
        [ rewrite (keep_smaller_lt (FitResultOf c1 n1 e1) (FitResultOf c2 n2 e2))
            by (cbn [wrmsError c_0 c_1 initial_guess]; lra)
        | rewrite (keep_smaller_ge (FitResultOf c1 n1 e1) (FitResultOf c2 n2 e2))
            by (cbn [wrmsError c_0 c_1 initial_guess]; lra) ]
  end.

Lemma scenario_fit :
  curveFitting shifting_solver scenario_x (ecdf_y 5) "A" empty_table =
  Normal (<["A"%string := scenario_best]> empty_table).
Proof.
  unfold curveFitting. rewrite fit_class_within.
  2:{ rewrite ecdf_y_length. cbn [scenario_x scenario_distances length app]. lia. }
  cbv zeta. cbn [snd]. unfold fit_all. cbv beta iota zeta.
  do 5 (rewrite (bind_lsfit_fitted shifting_solver _ _ _ _ eq_refl); cbv beta iota zeta).
  cbn [snd mret Fit_ret app fit_c c_0 c_1].
  unfold select_best, vec_at. cbn [lookup list_lookup mbind outcome_bind fold_left].
  compare_errors. reflexivity.
Qed.

(** The statement above for the scenario: the arctangent result, third
    of five, has the least error. *)
Lemma best_fit_selection_example :
  exists results best i,
    (fit_class shifting_solver scenario_x (ecdf_y 5)).2 = Normal best /\
    (fit_all shifting_solver scenario_x (ecdf_y 5)
       (squares (take (length (ecdf_y 5)) scenario_x))).2 = Normal results /\
    functionName <$> results = family_names /\
    select_best results = Normal best /\
    results !! i = Some best /\
    (forall r, r ∈ results -> wrmsError best <= wrmsError r) /\
    (forall j r, (j < i)%nat -> results !! j = Some r ->
                 wrmsError best < wrmsError r) /\
    <["A"%string := scenario_best]> empty_table = <["A"%string := best]> empty_table.
Proof.
  exact (best_fit_selection shifting_solver scenario_x (ecdf_y 5) "A" empty_table
           _ scenario_fit).
Defined.

(** ** Threads and the Best-Fit Table *)

Section Scheduler.
Variable solver : Solver.
Implicit Types (t : BestFitTable) (s : Sched) (j : Job).

Lemma table_after_eq j t :
  table_after solver j t =
  match best_of solver j with Some best => <[job_class j := best]> t | None => t end.
Proof.
  unfold table_after, curveFitting, best_of.
  now destruct (fit_class solver (job_x j) (job_y j)).2.
Qed.

Lemma future_of_eq j :
  future_of solver j =
  match (fit_class solver (job_x j) (job_y j)).2 with
  | Normal _ => Normal ()
  | Throws msg => Throws msg
  | Undefined => Undefined
  end.
Proof. unfold future_of. now destruct (fit_class solver (job_x j) (job_y j)).2. Qed.

Lemma table_after_other j t cls :
  cls <> job_class j -> table_after solver j t !! cls = t !! cls.
Proof.
  intros Hne. rewrite table_after_eq. destruct (best_of solver j); [|done].
  now rewrite lookup_insert_ne.
Qed.

(** A thread that throws leaves the table as it was. *)
Lemma table_after_throws j t msg :
  future_of solver j = Throws msg -> table_after solver j t = t.
Proof.
  rewrite future_of_eq, table_after_eq. unfold best_of.
  now destruct (fit_class solver (job_x j) (job_y j)).2.
Qed.

Lemma table_after_normal j t :
  future_of solver j = Normal () ->
  exists best, best_of solver j = Some best /\ table_after solver j t = <[job_class j := best]> t.
Proof.
  rewrite future_of_eq, table_after_eq. unfold best_of.
  destruct (fit_class solver (job_x j) (job_y j)).2; [eauto|done|done].
Qed.

Lemma elem_of_app_middle {A : Type} (x y : A) (l1 l2 : list A) :
  x ∈ l1 ++ l2 -> x ∈ l1 ++ y :: l2.
Proof.
  intros [H|H]%elem_of_app; apply elem_of_app; [now left|right].
  now apply list_elem_of_further.
Qed.

(** Only the classes of threads still running can change. *)
Lemma steps_frame s s' cls :
  rtc (job_step solver) s s' ->
  cls ∉ job_class <$> running s -> table s' !! cls = table s !! cls.
Proof.
  induction 1 as [s|s1 s2 s3 Hstep _ IH]; [done|]. intros Hcls.
  destruct Hstep as [t before after j done]. cbn [table running] in *.
  rewrite IH.
  - apply table_after_other. intros ->. apply Hcls.
    rewrite fmap_app, fmap_cons. set_solver.
  - intros Hin. apply Hcls. rewrite fmap_app in *. rewrite fmap_cons.
    now apply elem_of_app_middle.
Qed.

Lemma started_consistent t0 jobs : consistent solver t0 jobs (started t0 jobs).
Proof.
  split; cbn.
  - now rewrite app_nil_r.
  - done.
  - done.
  - intros cls o Hin. now apply elem_of_nil in Hin.
Qed.

Lemma step_consistent t0 jobs s s' :
  NoDup (job_class <$> jobs) ->
  consistent solver t0 jobs s -> job_step solver s s' -> consistent solver t0 jobs s'.
Proof.
  intros Hnodup [Hacc Hrun Hunt Hrec] Hstep.
  destruct Hstep as [t before after j done]. cbn [table running finished] in *.
  assert (Hnd : NoDup ((job_class <$> before ++ j :: after) ++ done.*1))
    by now rewrite Hacc.
  rewrite fmap_app, fmap_cons in Hnd.
  assert (Hfresh : job_class j ∉ done.*1).
  { apply NoDup_app in Hnd as (_ & Hdisj & _). apply Hdisj. set_solver. }
  split; cbn [table running finished].
  - rewrite <- Hacc. rewrite !fmap_app, fmap_cons. cbn.
    rewrite <- !app_assoc. apply Permutation_app_head. cbn.
    rewrite (Permutation_app_comm done.*1 [job_class j]). cbn.
    now rewrite Permutation_middle.
  - intros j' Hj'. apply Hrun. now apply elem_of_app_middle.
  - intros cls Hcls. rewrite fmap_app in Hcls. cbn in Hcls.
    rewrite table_after_other by set_solver. apply Hunt.
    intros Hin. apply Hcls, elem_of_app. now left.
  - intros cls o [Hin|Hin]%elem_of_app.
    + destruct (Hrec _ _ Hin) as (j' & Hj' & Hc & Ho & Ht).
      exists j'. repeat split; try done.
      rewrite table_after_other; [done|]. intros Heq. apply Hfresh.
      rewrite <- Heq. apply list_elem_of_fmap. exists (cls, o). done.
    + apply list_elem_of_singleton in Hin as [= -> ->].
      exists j. split; [apply Hrun; set_solver|]. split; [done|]. split; [done|].
      rewrite !table_after_eq. destruct (best_of solver j).
      * now rewrite !lookup_insert_eq.
      * now apply Hunt.
Qed.

Lemma reachable_consistent t0 jobs s :
  NoDup (job_class <$> jobs) ->
  rtc (job_step solver) (started t0 jobs) s -> consistent solver t0 jobs s.
Proof.
  intros Hnodup Hsteps.
  apply (rtc_ind_r (R := job_step solver) (consistent solver t0 jobs) (started t0 jobs));
    [| |exact Hsteps].
  - apply started_consistent.
  - intros s1 s2 _ Hstep IH. now apply (step_consistent t0 jobs s1).
Qed.

End Scheduler.

(** ** The join loop; subscripts; the chain of fits *)

Lemma join_loop_first_failure before cls msg after :
  Forall never_throws before ->
  join_loop (before ++ (cls, Throws msg) :: after) =
  JoinResultOf 1 (before.*1 ++ [cls]) (after.*1) [ErrorReportOf cls msg].
Proof.
  induction 1 as [|[name o] before Hname _ IH]; [done|].
  cbn [app join_loop]. rewrite IH. cbn.
  destruct o as [[]|m|]; [done| |done]. now destruct (Hname m).
Qed.

Lemma join_loop_no_failure threads :
  Forall never_throws threads ->
  join_loop threads = JoinResultOf 0 (threads.*1) [] [].
Proof.
  induction 1 as [|[name o] threads Hname _ IH]; [done|].
  cbn [join_loop]. rewrite IH. cbn.
  destruct o as [[]|m|]; [done| |done]. now destruct (Hname m).
Qed.

Section Class.
Variable solver : Solver.

Lemma fit_class_throws sd ys call msg :
  call ∈ (fit_class solver sd ys).1 -> solver call = ApError msg ->
  (fit_class solver sd ys).2 = Throws msg /\
  last (fit_class solver sd ys).1 = Some call /\
  (forall cls (t : BestFitTable), curveFitting solver sd ys cls t = Throws msg).
Proof.
  intros Hin Herr. unfold curveFitting.
  destruct (decide (length ys <= length sd)%nat) as [Hle|Hgt].
  - rewrite (fit_class_within solver sd ys Hle) in *. cbv zeta in *. cbn [fst snd] in *.
    destruct (fit_all_throws solver _ _ _ _ _ Hin Herr) as [-> Hlast].
    done.
  - rewrite fit_class_beyond in Hin by lia. now apply elem_of_nil in Hin.
Qed.

Lemma curveFitting_defined sd ys cls (t : BestFitTable) :
  (length ys <= length sd)%nat -> curveFitting solver sd ys cls t <> Undefined.
Proof.
  intros Hle. unfold curveFitting. rewrite (fit_class_within solver sd ys Hle).
  cbv zeta. cbn [snd].
  destruct (fit_all solver sd ys _).2 as [results|msg|] eqn:Hfit; [|done|].
  - destruct (select_best_first_minimum results) as (i & best & -> & _); [|done].
    intros ->. now apply fit_all_five in Hfit.
  - now apply fit_all_defined in Hfit.
Qed.

Lemma curveFitting_undefined sd ys cls (t : BestFitTable) :
  (length sd < length ys)%nat -> curveFitting solver sd ys cls t = Undefined.
Proof. intros Hlt. unfold curveFitting. now rewrite fit_class_beyond. Qed.
End Class.

(** C10.  [curveFitting] reads [sorted_distances[i]] for every
    [i < y_values.size()]: when [y_values] is no longer than
    [sorted_distances] every subscript of [curveFitting] is in range,
    and when it is longer the weight loop reads past the end.  Every
    thread [fitClasses] starts receives two vectors of length [l + 2]
    for a class of [l] samples, so its subscripts are all in range. *)
Theorem curveFitting_subscripts (solver : Solver) :
  (forall sd ys,
     (length ys <= length sd)%nat ->
     load_x sd = Normal sd /\ load_y ys = Normal ys /\
     load_w sd ys = Normal (squares (take (length ys) sd)) /\
     forall cls (t : BestFitTable), curveFitting solver sd ys cls t <> Undefined) /\
  (forall sd ys,
     (length sd < length ys)%nat ->
     load_w sd ys = Undefined /\
     forall cls (t : BestFitTable), curveFitting solver sd ys cls t = Undefined) /\
  (forall sorted_distances,
     exists sorted_distances' jobs,
       launch sorted_distances = Normal (sorted_distances', jobs) /\
       Forall2 (fun entry j =>
                  let l := length entry.2 in
                  job_class j = entry.1 /\
                  length (job_x j) = (l + 2)%nat /\ length (job_y j) = (l + 2)%nat /\
                  forall (t : BestFitTable),
                    curveFitting solver (job_x j) (job_y j) (job_class j) t <> Undefined)
               sorted_distances jobs).
Proof.
  split; [|split].
  - intros sd ys Hle. split; [apply load_x_ok|]. split; [apply load_y_ok|].
    split; [now apply load_w_within|]. intros cls t. now apply curveFitting_defined.
  - intros sd ys Hlt. split; [now apply load_w_beyond|].
    intros cls t. now apply curveFitting_undefined.
  - intros sd. eexists _, _. split; [apply launch_ok|].
    apply Forall2_fmap_r, Forall_Forall2_diag, Forall_forall.
    intros [name d] _. cbn [fst snd job_class job_x job_y].
    assert (Hx : length (0 :: d ++ [1]) = (length d + 2)%nat).
    { cbn [length]. rewrite length_app. cbn [length]. lia. }
    split; [done|]. split; [exact Hx|]. split; [apply ecdf_y_length|].
    intros t. apply curveFitting_defined.
    cbn [fst snd job_x job_y]. rewrite Hx, ecdf_y_length. lia.
Qed.

(** Three samples against two survival fractions are in range; two
    samples against three are not. *)
Lemma curveFitting_subscripts_example :
  load_w [0; 1 / 2; 1] [1; 0] = Normal (squares [0; 1 / 2]) /\
  load_w [0; 1] [1; 1 / 2; 0] = Undefined /\
  curveFitting two_point_solver [0; 1] [1; 1 / 2; 0] "A" empty_table = Undefined.
Proof.
  destruct (curveFitting_subscripts two_point_solver) as (Hwithin & Hbeyond & _).
  split; [|split].
  - apply (Hwithin [0; 1 / 2; 1] [1; 0]). cbn [length]. lia.
  - apply (Hbeyond [0; 1] [1; 1 / 2; 0]). cbn [length]. lia.
  - apply (Hbeyond [0; 1] [1; 1 / 2; 0]). cbn [length]. lia.
Defined.

Lemma fit_all_first_call (solver : Solver) (x y w : list R) :
  (fit_all solver x y w).1 !! 0%nat =
  Some (LsfitCallOf x y w initial_guess 0 0 logistic_f logistic_fd).
Proof.
  unfold fit_all. cbv beta iota zeta.
  destruct (solver (LsfitCallOf x y w initial_guess 0 0 logistic_f logistic_fd))
    as [c' e|msg] eqn:H.
  - rewrite (bind_lsfit_fitted solver _ _ _ _ H). reflexivity.
  - rewrite (bind_lsfit_error solver _ _ _ H). reflexivity.
Qed.

(** C2 (amended).  The fits are issued in the order logistic,
    hyperbolic tangent, arctangent, Gudermannian, simple algebraic, each
    on the same [x], [y], [w] and with [epsx = 0], [maxits = 0]; the
    logistic fit is always issued and starts from (0.367, 0.45), every
    later one starts from the coefficients the solver returned for the
    one before it, and no fit follows one that threw; when no issued fit
    throws all five are issued and the five results are returned. *)
Theorem fits_are_chained (solver : Solver) (x y w : list R) :
  let calls := (fit_all solver x y w).1 in
  Forall (same_data x y w) calls /\
  Forall no_stopping_condition calls /\
  (fun call => (fit_func call, fit_grad call)) <$> calls `prefix_of` families /\
  chained solver initial_guess calls /\
  (forall results, (fit_all solver x y w).2 = Normal results -> length calls = 5%nat) /\
  (exists call, calls !! 0%nat = Some call /\ fit_c call = initial_guess) /\
  ((forall call, call ∈ calls -> exists c' e, solver call = Fitted c' e) ->
   length calls = 5%nat /\
   exists results, (fit_all solver x y w).2 = Normal results /\ length results = 5%nat).
Proof.
  intros calls. destruct (fit_all_trace solver x y w) as (H1 & H2 & H3 & H4).
  split; [done|]. split; [done|]. split; [done|]. split; [done|].
  split; [intros results H; now apply fit_all_results in H|].
  split; [eexists; split; [apply fit_all_first_call|reflexivity]|].
  intros Hok. destruct (fit_all_normal solver x y w Hok) as [results Hres].
  destruct (fit_all_results solver x y w results Hres) as [Hfive Hnames].
  split; [exact Hfive|]. exists results. split; [exact Hres|].
  apply (f_equal length) in Hnames. now rewrite length_fmap in Hnames.
Qed.

Lemma shifting_solver_trace (x y w : list R) :
  (fit_all shifting_solver x y w).1 !! 1%nat =
  Some (LsfitCallOf x y w (Coef (c_0 initial_guess + 1) (c_1 initial_guess)) 0 0
                    hyperbolic_f hyperbolic_fd).
Proof.
  unfold fit_all. cbv beta iota zeta.
  rewrite (bind_lsfit_fitted shifting_solver _ _ _ _ eq_refl). cbv beta iota zeta.
  rewrite (bind_lsfit_fitted shifting_solver _ _ _ _ eq_refl). cbv beta iota zeta.
  reflexivity.
Qed.

(** Not every fit starts from (0.367, 0.45): with a solver that moves
    the first coefficient the second fit starts from (1.367, 0.45). *)
Lemma same_initial_guess_fails :
  ~ Forall (fun call => fit_c call = initial_guess)
      (fit_all shifting_solver [0; 1] [1; 0] [0; 1]).1.
Proof.
  intros H. rewrite Forall_lookup in H.
  specialize (H _ _ (shifting_solver_trace _ _ _)).
  cbn [fit_c] in H. apply (f_equal c_0) in H. cbn [c_0 initial_guess] in H. lra.
Qed.

Lemma shifting_solver_fits (x y w : list R) :
  exists results, (fit_all shifting_solver x y w).2 = Normal results.
Proof. apply fit_all_normal. intros call _. eexists _, _. reflexivity. Qed.

(** With a solver that never throws the five fits form one chain and the
    five results are returned. *)
Lemma fits_are_chained_example :
  length (fit_all shifting_solver [0; 1] [1; 0] [0; 1]).1 = 5%nat /\
  chained shifting_solver initial_guess (fit_all shifting_solver [0; 1] [1; 0] [0; 1]).1 /\
  exists results,
    (fit_all shifting_solver [0; 1] [1; 0] [0; 1]).2 = Normal results /\
    length results = 5%nat.
Proof.
  destruct (fits_are_chained shifting_solver [0; 1] [1; 0] [0; 1])
    as (_ & _ & _ & Hchain & _ & _ & Hall).
  destruct Hall as [Hfive Hres]; [intros call _; eexists _, _; reflexivity|].
  split; [exact Hfive|]. split; [exact Hchain | exact Hres].
Defined.

(** ** Two classes, one of which fails *)

Lemma two_point_solver_throws (j : Job) :
  length (job_x j) = 2%nat -> length (job_y j) = 2%nat ->
  future_of two_point_solver j = Throws "singular".
Proof.
  intros Hx Hy. rewrite future_of_eq, fit_class_within by lia.
  cbv zeta. cbn [snd]. unfold fit_all. cbv beta iota zeta.
  rewrite (bind_lsfit_error two_point_solver _ _ "singular"); [done|].
  unfold two_point_solver. cbn [fit_x]. now rewrite Hx.
Qed.

Lemma two_point_solver_fits (j : Job) :
  length (job_x j) <> 2%nat -> (length (job_y j) <= length (job_x j))%nat ->
  future_of two_point_solver j = Normal ().
Proof.
  intros Hx Hy. rewrite future_of_eq, fit_class_within by lia.
  cbv zeta. cbn [snd].
  destruct (fit_all_normal two_point_solver (job_x j) (job_y j)
              (squares (take (length (job_y j)) (job_x j)))) as [results Hres].
  - intros call Hin.
    destruct (fit_all_trace two_point_solver (job_x j) (job_y j)
                (squares (take (length (job_y j)) (job_x j)))) as (Hdata & _).
    rewrite Forall_forall in Hdata. destruct (Hdata _ Hin) as (Hfx & _).
    unfold two_point_solver. rewrite Hfx.
    apply Nat.eqb_neq in Hx. rewrite Hx. eauto.
  - rewrite Hres.
    destruct (select_best_first_minimum results) as (i & best & -> & _); [|done].
    intros ->. now apply fit_all_five in Hres.
Qed.

Lemma future_A : future_of two_point_solver job_A = Throws "singular".
Proof. now apply two_point_solver_throws. Qed.

Lemma future_B : future_of two_point_solver job_B = Normal ().
Proof.
  apply two_point_solver_fits; [cbn [job_B job_x length]; lia|].
  cbn [job_B job_x job_y]. rewrite ecdf_y_length. cbn [length]. lia.
Qed.

(** C3 (the code at a failing input).  Classes "A" (no sample) and "B"
    (one sample), a solver that throws on the two points of "A", threads
    joined in the order "A", "B": [fitClasses] reaches [return 1] after
    joining "A" alone; the thread of "B" has not been joined, and the
    destruction of the local map [threads] with that thread still
    joinable terminates the process, so the call does not return. *)
Theorem early_return_skips_join :
  fitClasses two_point_solver (fun jobs => jobs) two_classes =
  Normal ([("A"%string, [0; 1]); ("B"%string, [0; 1 / 2; 1])],
          JoinResultOf 1 ["A"%string] ["B"%string] [ErrorReportOf "A" "singular"]) /\
  destroy_threads
    (JoinResultOf 1 ["A"%string] ["B"%string] [ErrorReportOf "A" "singular"]) = Terminates.
Proof.
  split; [|reflexivity].
  unfold fitClasses. rewrite launch_ok. unfold two_classes.
  cbn [fmap list_fmap fst snd app length mbind outcome_bind].
  fold job_A job_B. rewrite future_A, future_B. reflexivity.
Qed.

(** ** The table during a call *)

Lemma same_class_same_job (jobs : list Job) (j j' : Job) :
  NoDup (job_class <$> jobs) -> j ∈ jobs -> j' ∈ jobs ->
  job_class j = job_class j' -> j = j'.
Proof.
  induction jobs as [|j0 jobs IH]; [intros _ H; now apply elem_of_nil in H|].
  rewrite fmap_cons. intros [Hfresh Hnd]%NoDup_cons Hj Hj' Hcls.
  apply elem_of_cons in Hj as [->|Hj]; apply elem_of_cons in Hj' as [->|Hj'].
  - reflexivity.
  - exfalso. apply Hfresh. rewrite Hcls. now apply list_elem_of_fmap_2.
  - exfalso. apply Hfresh. rewrite <- Hcls. now apply list_elem_of_fmap_2.
  - now apply IH.
Qed.

Section Grows.
Variable solver : Solver.
Implicit Types (t : BestFitTable) (s : Sched) (j : Job).

(** The classes that have finished are classes of the call. *)
Lemma finished_classes t0 jobs s cls :
  consistent solver t0 jobs s -> cls ∈ (finished s).*1 -> cls ∈ job_class <$> jobs.
Proof.
  intros [Hacc _ _ _] Hin. rewrite <- Hacc. apply elem_of_app. now right.
Qed.

(** On a table with no entry for the classes of the call, a class whose
    thread is running has no entry. *)
Lemma running_class_absent t0 jobs s j :
  NoDup (job_class <$> jobs) ->
  (forall cls, cls ∈ job_class <$> jobs -> t0 !! cls = None) ->
  consistent solver t0 jobs s -> j ∈ running s -> table s !! job_class j = None.
Proof.
  intros Hnodup Hfree Hcons Hj.
  destruct Hcons as [Hacc Hrun Hunt Hrec].
  rewrite Hunt.
  - apply Hfree, list_elem_of_fmap. exists j. split; [done|now apply Hrun].
  - intros Hin. rewrite <- Hacc in Hnodup. apply NoDup_app in Hnodup as (_ & Hdisj & _).
    apply (Hdisj (job_class j)); [|done]. apply list_elem_of_fmap. now exists j.
Qed.

(** A step keeps every entry when the class it writes has none. *)
Lemma step_keeps t0 jobs s s' cls entry :
  NoDup (job_class <$> jobs) ->
  (forall cls, cls ∈ job_class <$> jobs -> t0 !! cls = None) ->
  consistent solver t0 jobs s -> job_step solver s s' ->
  table s !! cls = Some entry -> table s' !! cls = Some entry.
Proof.
  intros Hnodup Hfree Hcons Hstep Hentry.
  assert (Habsent : forall j, j ∈ running s -> table s !! job_class j = None).
  { intros j. now apply (running_class_absent t0 jobs). }
  destruct Hstep as [t before after j done]. cbn [table running] in *.
  rewrite table_after_other; [done|]. intros ->.
  rewrite Habsent in Hentry; [done|]. set_solver.
Qed.

Lemma steps_keep t0 jobs s s' cls entry :
  NoDup (job_class <$> jobs) ->
  (forall cls, cls ∈ job_class <$> jobs -> t0 !! cls = None) ->
  rtc (job_step solver) (started t0 jobs) s -> rtc (job_step solver) s s' ->
  table s !! cls = Some entry -> table s' !! cls = Some entry.
Proof.
  intros Hnodup Hfree Hs Hs'. revert Hs.
  induction Hs' as [s|s1 s2 s3 Hstep _ IH]; [done|]. intros Hs Hentry.
  apply IH.
  - etrans; [exact Hs|]. now apply rtc_once.
  - apply (step_keeps t0 jobs s1); try done. now apply reachable_consistent.
Qed.

(** The entries of a reachable table: those of [t0] and one for each
    class whose thread has returned. *)
Lemma entries_reached t0 jobs s cls :
  NoDup (job_class <$> jobs) ->
  (forall cls, cls ∈ job_class <$> jobs -> t0 !! cls = None) ->
  consistent solver t0 jobs s ->
  is_Some (table s !! cls) <-> is_Some (t0 !! cls) \/ (cls, Normal ()) ∈ finished s.
Proof.
  intros Hnodup Hfree Hcons.
  destruct (decide (cls ∈ (finished s).*1)) as [Hin|Hout].
  - pose proof (finished_classes t0 jobs s cls Hcons Hin) as Hcls.
    destruct Hcons as [Hacc Hrun Hunt Hrec].
    apply list_elem_of_fmap in Hin as ([cls' o] & Heq & Hin). cbn in Heq. subst cls'.
    destruct (Hrec _ _ Hin) as (j & Hj & Hjc & Ho & Ht). rewrite Ht.
    split.
    + intros Hsome. right. destruct o as [[]|msg|]; [done| |].
      * rewrite (table_after_throws solver j t0 msg) in Hsome by done.
        rewrite (Hfree cls Hcls) in Hsome. now destruct Hsome.
      * rewrite table_after_eq in Hsome. unfold best_of in Hsome.
        rewrite future_of_eq in Ho.
        destruct (fit_class solver (job_x j) (job_y j)).2; try done.
        rewrite (Hfree cls Hcls) in Hsome. now destruct Hsome.
    + intros [Hsome|Hfin].
      * rewrite (Hfree cls Hcls) in Hsome. now destruct Hsome.
      * destruct (Hrec _ _ Hfin) as (j' & Hj' & Hjc' & Ho' & _).
        destruct (table_after_normal solver j' t0) as (best & _ & Hafter); [done|].
        assert (j' = j) as ->.
        { apply (same_class_same_job jobs); try done. congruence. }
        rewrite Hafter, Hjc. rewrite lookup_insert_eq. eauto.
  - destruct Hcons as [Hacc Hrun Hunt Hrec]. rewrite (Hunt cls Hout).
    split; [now left|]. intros [Hsome|Hfin]; [done|].
    destruct Hout. apply list_elem_of_fmap. now exists (cls, Normal ()).
Qed.
End Grows.

(** C8 (amended).  Take a call of [fitClasses] on a map (its keys are
    distinct) while the table holds [t0], with no entry in [t0] for a
    class of the map, any state [s] the started threads can reach, and
    any later state [s'].  Every entry of the table in [s] is in the
    table in [s'], unchanged; every step either leaves the table alone
    or adds the best fit of one running class that had no entry; the
    classes with an entry in [s] are those of [t0] and those whose thread
    has returned; a class that is not fitted by this call keeps what
    [t0] held; and the table has at most one entry per class name. *)
Theorem best_fit_table_only_grows (solver : Solver) (t0 : BestFitTable)
    (sorted_distances sorted_distances' : list (string * list R))
    (jobs : list Job) (s s' : Sched) :
  NoDup sorted_distances.*1 ->
  (forall cls, cls ∈ sorted_distances.*1 -> t0 !! cls = None) ->
  launch sorted_distances = Normal (sorted_distances', jobs) ->
  rtc (job_step solver) (started t0 jobs) s ->
  rtc (job_step solver) s s' ->
  (forall cls entry, table s !! cls = Some entry -> table s' !! cls = Some entry) /\
  (forall s1 s2, rtc (job_step solver) s s1 -> job_step solver s1 s2 ->
     table s2 = table s1 \/
     exists j best, j ∈ running s1 /\ table s1 !! job_class j = None /\
                    (fit_class solver (job_x j) (job_y j)).2 = Normal best /\
                    table s2 = (<[job_class j := best]> (table s1))) /\
  (forall cls, is_Some (table s !! cls) <->
               is_Some (t0 !! cls) \/ (cls, Normal ()) ∈ finished s) /\
  (forall cls, cls ∉ sorted_distances.*1 -> table s' !! cls = t0 !! cls) /\
  NoDup (map_to_list (table s')).*1.
Proof.
  intros Hnodup Hfree Hlaunch Hs Hs'.
  rewrite <- (launch_classes _ _ _ Hlaunch) in *.
  pose proof (reachable_consistent solver t0 jobs s Hnodup Hs) as Hcons.
  split; [intros cls entry; now apply (steps_keep solver t0 jobs)|].
  split.
  { intros s1 s2 Hs1 Hstep.
    assert (Hcons1 : consistent solver t0 jobs s1).
    { apply reachable_consistent; [done|]. etrans; eassumption. }
    assert (Habsent : forall j, j ∈ running s1 -> table s1 !! job_class j = None).
    { intros j. now apply (running_class_absent solver t0 jobs). }
    destruct Hstep as [t before after j done]. cbn [table running finished] in *.
    rewrite table_after_eq. unfold best_of.
    destruct (fit_class solver (job_x j) (job_y j)).2 as [best| |] eqn:Hbest;
      [right|now left..].
    exists j, best. split; [set_solver|]. split; [apply Habsent; set_solver|done]. }
  split; [intros cls; now apply (entries_reached solver t0 jobs)|].
  split; [|apply NoDup_fst_map_to_list].
  intros cls Hcls. apply (steps_frame solver (started t0 jobs) s'); [|done].
  etrans; eassumption.
Qed.

Lemma two_classes_distinct : NoDup two_classes.*1.
Proof.
  change (two_classes.*1) with ["A"%string; "B"%string].
  apply NoDup_cons. split; [|apply NoDup_singleton].
  intros Hin%list_elem_of_singleton. discriminate.
Qed.

Lemma two_classes_launched :
  launch two_classes =
  Normal ([("A"%string, [0; 1]); ("B"%string, [0; 1 / 2; 1])], [job_A; job_B]).
Proof. now rewrite launch_ok. Qed.

Lemma best_of_B : (fit_class two_point_solver (job_x job_B) (job_y job_B)).2 = Normal best_B.
Proof.
  rewrite fit_class_within.
  2:{ cbn [job_B job_x job_y]. rewrite ecdf_y_length. cbn [length]. lia. }
  cbv zeta. cbn [snd job_B job_x job_y]. unfold fit_all. cbv beta iota zeta.
  do 5 (rewrite (bind_lsfit_fitted two_point_solver _ _ initial_guess 0) by reflexivity;
        cbv beta iota zeta).
  cbn [snd mret Fit_ret app fit_c].
  unfold select_best, vec_at. cbn [lookup list_lookup mbind outcome_bind fold_left].
  compare_errors. reflexivity.
Qed.

Lemma table_after_B (t : BestFitTable) :
  table_after two_point_solver job_B t = <["B"%string := best_B]> t.
Proof. rewrite table_after_eq. unfold best_of. now rewrite best_of_B. Qed.

Lemma after_B_reached :
  rtc (job_step two_point_solver) (started empty_table [job_A; job_B]) after_B.
Proof.
  apply rtc_once.
  exact (job_finishes two_point_solver empty_table [job_A] [] job_B []).
Qed.

Lemma two_classes_free :
  forall cls, cls ∈ two_classes.*1 -> empty_table !! cls = None.
Proof. intros cls _. apply lookup_empty. Qed.

(** The statement above for classes "A" and "B", from the start to the
    state where the thread of "B" has stored its best fit. *)
Lemma best_fit_table_only_grows_example :
  table (started empty_table [job_A; job_B]) !! "B"%string = None /\
  table after_B !! "B"%string = Some best_B /\
  (forall cls entry, table (started empty_table [job_A; job_B]) !! cls = Some entry ->
                     table after_B !! cls = Some entry) /\
  (forall s1 s2,
     rtc (job_step two_point_solver) (started empty_table [job_A; job_B]) s1 ->
     job_step two_point_solver s1 s2 ->
     table s2 = table s1 \/
     exists j best, j ∈ running s1 /\ table s1 !! job_class j = None /\
                    (fit_class two_point_solver (job_x j) (job_y j)).2 = Normal best /\
                    table s2 = (<[job_class j := best]> (table s1))).
Proof.
  destruct (best_fit_table_only_grows two_point_solver empty_table two_classes _
              [job_A; job_B] (started empty_table [job_A; job_B]) after_B
              two_classes_distinct two_classes_free two_classes_launched
              (rtc_refl _ _) after_B_reached) as (Hkeep & Hadd & _ & _ & _).
  split; [apply lookup_empty|].
  split; [cbn [after_B table]; rewrite table_after_B; apply lookup_insert_eq|].
  split; [exact Hkeep | exact Hadd].
Defined.

(** Without the condition on [t0] an entry can be replaced: on a table
    that holds an entry for "B" from an earlier call, the thread of "B"
    overwrites it. *)
Lemma earlier_entry_is_overwritten :
  ~ (forall (t0 : BestFitTable) (s s' : Sched),
       rtc (job_step two_point_solver) (started t0 [job_A; job_B]) s ->
       rtc (job_step two_point_solver) s s' ->
       forall cls entry, table s !! cls = Some entry -> table s' !! cls = Some entry).
Proof.
  intros Hkeep.
  specialize (Hkeep earlier_table (started earlier_table [job_A; job_B])
                (SchedOf (table_after two_point_solver job_B earlier_table) [job_A]
                         [("B"%string, future_of two_point_solver job_B)])
                (rtc_refl _ _)
                (rtc_once _ _ (job_finishes two_point_solver earlier_table [job_A] [] job_B []))
                "B"%string earlier_B).
  cbn [started table] in Hkeep. rewrite table_after_B in Hkeep.
  unfold earlier_table in Hkeep. rewrite lookup_singleton_eq, lookup_insert_eq in Hkeep.
  specialize (Hkeep eq_refl). discriminate.
Qed.

(** ** How a call ends *)

Section Ends.
Variable solver : Solver.

Lemma threads_names (jobs : list Job) :
  ((fun j => (job_class j, future_of solver j)) <$> jobs).*1 = job_class <$> jobs.
Proof. rewrite <- list_fmap_compose. now apply list_fmap_ext. Qed.

Lemma threads_never_throw (jobs : list Job) :
  Forall never_throws ((fun j => (job_class j, future_of solver j)) <$> jobs) <->
  Forall (no_exception solver) jobs.
Proof. rewrite Forall_fmap. reflexivity. Qed.

(** The join loop on the threads of [jobs], split at the first job whose
    future holds an exception. *)
Lemma join_loop_at_failure (before : list Job) (j : Job) (msg : string) (after : list Job) :
  Forall (no_exception solver) before -> future_of solver j = Throws msg ->
  join_loop ((fun j => (job_class j, future_of solver j)) <$> before ++ j :: after) =
  JoinResultOf 1 ((job_class <$> before) ++ [job_class j]) (job_class <$> after)
               [ErrorReportOf (job_class j) msg].
Proof.
  intros Hb Hj. rewrite fmap_app, fmap_cons, Hj.
  rewrite join_loop_first_failure by now apply threads_never_throw.
  now rewrite !threads_names.
Qed.

Lemma join_loop_all_return (jobs : list Job) :
  Forall (no_exception solver) jobs ->
  join_loop ((fun j => (job_class j, future_of solver j)) <$> jobs) =
  JoinResultOf 0 (job_class <$> jobs) [] [].
Proof.
  intros Hok. rewrite join_loop_no_failure by now apply threads_never_throw.
  now rewrite threads_names.
Qed.

(** The jobs split at the first one whose future holds an exception. *)
Lemma first_exception_split (jobs : list Job) :
  Forall (no_exception solver) jobs \/
  exists before j msg after,
    jobs = before ++ j :: after /\ Forall (no_exception solver) before /\
    future_of solver j = Throws msg.
Proof.
  induction jobs as [|j jobs IH]; [left; constructor|].
  destruct (future_of solver j) as [[]|m|] eqn:Hj.
  - destruct IH as [IH|(before & j' & msg & after & -> & Hb & Hj')].
    + left. constructor; [intros m; congruence|done].
    + right. exists (j :: before), j', msg, after.
      split; [done|]. split; [|done]. constructor; [intros m; congruence|done].
  - right. exists [], j, m, jobs. split; [done|]. split; [constructor|done].
  - destruct IH as [IH|(before & j' & msg & after & -> & Hb & Hj')].
    + left. constructor; [intros m; congruence|done].
    + right. exists (j :: before), j', msg, after.
      split; [done|]. split; [|done]. constructor; [intros m; congruence|done].
Qed.

(** The first job with an exception is determined by the list. *)
Lemma first_exception_unique (before before' : list Job) (j j' : Job) (msg msg' : string)
    (after after' : list Job) :
  before ++ j :: after = before' ++ j' :: after' ->
  Forall (no_exception solver) before -> future_of solver j = Throws msg ->
  Forall (no_exception solver) before' -> future_of solver j' = Throws msg' ->
  before = before' /\ j = j' /\ after = after'.
Proof.
  revert before'. induction before as [|b before IH]; intros [|b' before'] Heq Hb Hj Hb' Hj'.
  - cbn in Heq. now injection Heq as -> ->.
  - cbn in Heq. injection Heq as -> _. apply Forall_cons in Hb' as [Hb' _].
    now destruct (Hb' msg).
  - cbn in Heq. injection Heq as -> _. apply Forall_cons in Hb as [Hb _].
    now destruct (Hb msg').
  - cbn in Heq. injection Heq as -> Heq.
    apply Forall_cons in Hb as [_ Hb]. apply Forall_cons in Hb' as [_ Hb'].
    destruct (IH before' Heq Hb Hj Hb' Hj') as (-> & -> & ->). done.
Qed.
End Ends.

(** C6 (the code at a failing input).  A solver call that throws is the
    last call of its class and its exception is the outcome of the
    class: [curveFitting] leaves with it, carrying no result.  In every
    state the threads of a call of [fitClasses] can reach, a class whose
    thread threw has the entry it had before the call (none is written),
    and a class whose thread returned has its best fit in the table,
    whatever the other threads did.  At the first thread, in join order,
    whose future holds an exception the handler writes the class name
    and the message and reaches [return 1]; the call returns 1 to its
    caller only when no thread comes after that one: otherwise the
    threads after it are still joinable, the process is terminated and
    the caller receives nothing. *)
Theorem solver_exception_aborts_class (solver : Solver) (t0 : BestFitTable)
    (sorted_distances sorted_distances' : list (string * list R))
    (jobs : list Job) (s : Sched) (threads_order : list Job -> list Job) :
  NoDup sorted_distances.*1 ->
  launch sorted_distances = Normal (sorted_distances', jobs) ->
  rtc (job_step solver) (started t0 jobs) s ->
  (forall sd ys call msg,
     call ∈ (fit_class solver sd ys).1 -> solver call = ApError msg ->
     (fit_class solver sd ys).2 = Throws msg /\
     last (fit_class solver sd ys).1 = Some call /\
     forall cls (t : BestFitTable), curveFitting solver sd ys cls t = Throws msg) /\
  (forall cls msg, (cls, Throws msg) ∈ finished s -> table s !! cls = t0 !! cls) /\
  (forall cls, (cls, Normal ()) ∈ finished s ->
     exists j best, j ∈ jobs /\ job_class j = cls /\
                    (fit_class solver (job_x j) (job_y j)).2 = Normal best /\
                    table s !! cls = Some best) /\
  (forall before j msg after,
     threads_order jobs = before ++ j :: after ->
     Forall (fun j' => forall m, future_of solver j' <> Throws m) before ->
     future_of solver j = Throws msg ->
     exists r,
       fitClasses solver threads_order sorted_distances = Normal (sorted_distances', r) /\
       joined r = (job_class <$> before) ++ [job_class j] /\
       not_joined r = job_class <$> after /\
       console r = [ErrorReportOf (job_class j) msg] /\
       destroy_threads r = match after with [] => Returns 1 | _ :: _ => Terminates end).
Proof.
  intros Hnodup Hlaunch Hs.
  pose proof Hnodup as Hnodup'.
  rewrite <- (launch_classes _ _ _ Hlaunch) in Hnodup'.
  destruct (reachable_consistent solver t0 jobs s Hnodup' Hs) as [_ _ _ Hrec].
  split; [intros sd ys call msg; apply fit_class_throws|].
  split.
  { intros cls msg Hin. destruct (Hrec _ _ Hin) as (j & _ & _ & Ho & ->).
    now rewrite (table_after_throws solver j t0 msg). }
  split.
  { intros cls Hin. destruct (Hrec _ _ Hin) as (j & Hj & Hcls & Ho & Ht).
    destruct (table_after_normal solver j t0) as (best & Hbest & Hafter); [done|].
    exists j, best. split; [done|]. split; [done|]. split.
    - unfold best_of in Hbest.
      destruct (fit_class solver (job_x j) (job_y j)).2; congruence.
    - rewrite Ht, Hafter, Hcls. apply lookup_insert_eq. }
  intros before j msg after Horder Hbefore Hj.
  eexists. split.
  { unfold fitClasses. rewrite Hlaunch. cbn [mbind outcome_bind]. rewrite Horder.
    rewrite (join_loop_at_failure solver before j msg after Hbefore Hj). reflexivity. }
  cbn [joined not_joined console]. repeat split.
  unfold destroy_threads. cbn [not_joined return_value]. now destruct after.
Qed.

Lemma both_finished_reached :
  rtc (job_step two_point_solver) (started empty_table [job_A; job_B]) both_finished.
Proof.
  eapply rtc_l; [exact (job_finishes two_point_solver empty_table [job_A] [] job_B [])|].
  apply rtc_once.
  exact (job_finishes two_point_solver _ [] [] job_A
           [("B"%string, future_of two_point_solver job_B)]).
Qed.

(** The statement above for classes "A" (whose fit throws) and "B",
    joined in this order: "B" has its entry and "A" has none, the
    handler has written the report of "A", and the call does not
    return. *)
Lemma solver_exception_aborts_class_example :
  table both_finished !! "A"%string = None /\
  (exists best, table both_finished !! "B"%string = Some best) /\
  exists r,
    fitClasses two_point_solver (fun jobs => jobs) two_classes
    = Normal ([("A"%string, [0; 1]); ("B"%string, [0; 1 / 2; 1])], r) /\
    console r = [ErrorReportOf "A" "singular"] /\
    not_joined r = ["B"%string] /\
    destroy_threads r = Terminates.
Proof.
  destruct (solver_exception_aborts_class two_point_solver empty_table two_classes _
              [job_A; job_B] both_finished (fun jobs => jobs)
              two_classes_distinct two_classes_launched both_finished_reached)
    as (_ & Hthrew & Hfitted & Hend).
  split.
  { rewrite (Hthrew "A"%string "singular"); [done|].
    cbn [both_finished finished]. rewrite future_A. set_solver. }
  split.
  { destruct (Hfitted "B"%string) as (j & best & _ & _ & _ & Hbest); [|now exists best].
    cbn [both_finished finished]. rewrite future_B. set_solver. }
  destruct (Hend [] job_A "singular"%string [job_B] eq_refl (Forall_nil_2 _) future_A)
    as (r & Hcall & _ & Hnot & Hconsole & Hdestroy).
  exists r. done.
Defined.

(** * Further properties of the code *)

(** ** The gradient evaluators, case by case *)

(** X1.  [arctangent_fd] returns the residual, its derivative in [k] as
    [grad[0]], and the opposite of its derivative in [alpha] as
    [grad[1]]; [grad[1]] is that derivative only when [k = 0]. *)
Theorem arctangent_fd_gradient (c : coef) (x : R) :
  func (arctangent_fd c x) = arctangent_f c x /\
  partial_0 arctangent_f c x (grad_0 (arctangent_fd c x)) /\
  partial_1 arctangent_f c x (- grad_1 (arctangent_fd c x)) /\
  (partial_1 arctangent_f c x (grad_1 (arctangent_fd c x)) <-> c_0 c = 0).
Proof.
  destruct c as [k a]. unfold partial_0, partial_1. cbn [c_0 c_1].
  split; [reflexivity|]. split; [apply arctangent_dk|].
  split; [apply arctangent_da|].
  pose proof (quad_pos k a x) as Hq.
  split.
  - intros H. pose proof (uniqueness_limite _ _ _ _ H (arctangent_da k x a)) as He.
    cbn [grad_1 arctangent_fd c_0 c_1] in He.
    set (q := k * k * (x - a) * (x - a) + 1) in *.
    assert (Hz : k / (2 * q) = 0) by lra.
    apply (f_equal (fun z => z * (2 * q))) in Hz.
    unfold Rdiv in Hz. rewrite Rmult_assoc, Rinv_l in Hz by lra. lra.
  - intros ->. eapply D_val; [apply arctangent_da|].
    cbn [grad_1 arctangent_fd c_0 c_1]. unfold Rdiv. rewrite !Rmult_0_l. lra.
Qed.

(** X2.  [algebraic_fd] returns the residual, its derivative in [k] as
    [grad[0]], and the opposite of its derivative in [alpha] as
    [grad[1]]; [grad[1]] is that derivative only when [k = 0]. *)
Theorem algebraic_fd_gradient (c : coef) (x : R) :
  func (algebraic_fd c x) = algebraic_f c x /\
  partial_0 algebraic_f c x (grad_0 (algebraic_fd c x)) /\
  partial_1 algebraic_f c x (- grad_1 (algebraic_fd c x)) /\
  (partial_1 algebraic_f c x (grad_1 (algebraic_fd c x)) <-> c_0 c = 0).
Proof.
  destruct c as [k a]. unfold partial_0, partial_1. cbn [c_0 c_1].
  split; [reflexivity|]. split; [apply algebraic_dk|].
  split; [apply algebraic_da|].
  pose proof (quad_pos k a x) as Hq.
  split.
  - intros H. pose proof (uniqueness_limite _ _ _ _ H (algebraic_da k x a)) as He.
    cbn [grad_1 algebraic_fd c_0 c_1] in He.
    set (q := k * k * (x - a) * (x - a) + 1) in *.
    assert (Hs : 0 < sqrt (q * q * q)) by (apply sqrt_lt_R0; repeat apply Rmult_lt_0_compat; exact Hq).
    set (r := sqrt (q * q * q)) in *.
    assert (Hz : k / (2 * r) = 0) by lra.
    apply (f_equal (fun z => z * (2 * r))) in Hz.
    unfold Rdiv in Hz. rewrite Rmult_assoc, Rinv_l in Hz by lra. lra.
  - intros ->. eapply D_val; [apply algebraic_da|].
    cbn [grad_1 algebraic_fd c_0 c_1]. unfold Rdiv. rewrite !Rmult_0_l. lra.
Qed.

(** X3.  Because [1/2] is an integer quotient, [gudermannian_fd]
    returns [grad[0] = -(x - alpha)/2] and [grad[1] = k/2] whatever the
    hyperbolic functions are; this is the gradient of the residual
    exactly when [k = 0] or [x = alpha]. *)
Theorem gudermannian_fd_gradient (c : coef) (x : R) :
  grad_0 (gudermannian_fd c x) = - (x - c_1 c) / 2 /\
  grad_1 (gudermannian_fd c x) = c_0 c / 2 /\
  (exact_gradient gudermannian_f gudermannian_fd c x <-> c_0 c = 0 \/ x = c_1 c).
Proof.
  destruct (gudermannian_fd_value c x) as [H0 H1].
  split; [exact H0|]. split; [exact H1|].
  destruct c as [k a]. cbn [c_0 c_1] in *.
  pose proof (sech_range (/ 2 * k * (x - a))) as Hs.
  pose proof (Rle_0_sqr (tanh (/ 2 * k * (x - a)))) as Ht. unfold Rsqr in Ht.
  split.
  - intros (_ & Hk & _). unfold partial_0 in Hk. cbn [c_0 c_1] in Hk.
    pose proof (uniqueness_limite _ _ _ _ Hk (gudermannian_dk a x k)) as He.
    rewrite H0 in He.
    destruct (Req_dec x a) as [Hx|Hx]; [now right|left].
    assert (Hv : / 2 * k * (x - a) = 0).
    { apply sech_eq_1.
      set (s := sech (/ 2 * k * (x - a))) in *.
      set (t := tanh (/ 2 * k * (x - a)) * tanh (/ 2 * k * (x - a))) in *.
      assert (Hq : (x - a) * (s * s) = (x - a) * (t + 1)).
      { unfold Rdiv in He. set (i := / (2 * (t + 1))) in *.
        assert (Hi : i * (2 * (t + 1)) = 1) by (apply Rinv_l; lra).
        assert (Hm : (x - a) * / 2 * (2 * (t + 1))
                     = (x - a) * s * s * (i * (2 * (t + 1)))) .
        { replace ((x - a) * s * s * (i * (2 * (t + 1))))
            with ((x - a) * s * s * i * (2 * (t + 1))) by ring.
          f_equal. lra. }
        rewrite Hi in Hm. lra. }
      assert (Hss : s * s = t + 1).
      { apply (Rmult_eq_reg_l (x - a)); [exact Hq | lra]. }
      nra. }
    assert (Hkx : k * (x - a) = 0) by lra.
    apply Rmult_integral in Hkx as [Hk0|Hxa]; [exact Hk0 | lra].
  - intros Hor.
    assert (Hv : / 2 * k * (x - a) = 0) by (destruct Hor as [-> | ->]; ring).
    split; [reflexivity|]. split.
    + unfold partial_0. cbn [c_0 c_1]. eapply D_val; [apply gudermannian_dk|].
      rewrite H0, Hv. unfold sech, tanh. rewrite cosh_0, sinh_0. field.
    + unfold partial_1. cbn [c_0 c_1]. eapply D_val; [apply gudermannian_da|].
      rewrite H1, Hv. unfold sech, tanh. rewrite cosh_0, sinh_0. field.
Qed.

(** The formulas of [logistic_fd] as real numbers: with
    [E = exp(k (alpha - x))] the denominator cancels. *)
Lemma logistic_fd_real (c : coef) (x : R) :
  let E := exp (c_0 c * (c_1 c - x)) in
  func (logistic_fd c x) = logistic_f c x /\
  grad_0 (logistic_fd c x) = - ((x - c_1 c) * E) /\
  grad_1 (logistic_fd c x) = c_0 c * E * E / (E + 1) /\
  (partial_0 logistic_f c x (grad_0 (logistic_fd c x)) <-> x = c_1 c) /\
  (partial_1 logistic_f c x (grad_1 (logistic_fd c x)) <-> c_0 c = 0 \/ E * (E + 1) = 1).
Proof.
  destruct c as [k a]. cbv zeta. cbn [c_0 c_1]. set (E := exp (k * (a - x))).
  pose proof (exp_pos (k * (a - x))) as He. fold E in He.
  assert (H0 : grad_0 (logistic_fd (Coef k a) x) = - ((x - a) * E)).
  { cbn [grad_0 logistic_fd c_0 c_1]. fold E. field. lra. }
  assert (H1 : grad_1 (logistic_fd (Coef k a) x) = k * E * E / (E + 1)).
  { cbn [grad_1 logistic_fd c_0 c_1]. fold E. field. lra. }
  split; [reflexivity|]. split; [exact H0|]. split; [exact H1|].
  unfold partial_0, partial_1. cbn [c_0 c_1]. rewrite H0, H1.
  assert (Hinv : / ((E + 1) * (E + 1)) * ((E + 1) * (E + 1)) = 1)
    by (apply Rinv_l; nra).
  assert (Hinv1 : / (E + 1) * (E + 1) = 1) by (apply Rinv_l; lra).
  split; split.
  - intros H. pose proof (uniqueness_limite _ _ _ _ H (logistic_dk a x k)) as Hu.
    fold E in Hu. unfold Rdiv in Hu.
    set (i := / ((E + 1) * (E + 1))) in *.
    assert (0 < i) by (apply Rinv_0_lt_compat; nra).
    assert (Hi1 : i < 1) by nra.
    assert (Hz : (x - a) * (E * (1 - i)) = 0) by lra.
    apply Rmult_integral in Hz as [Hz|Hz]; [lra|].
    assert (0 < E * (1 - i)) by (apply Rmult_lt_0_compat; lra). lra.
  - intros ->. eapply D_val; [apply logistic_dk|]. fold E.
    unfold Rdiv. replace (a - a) with 0 by ring. rewrite !Rmult_0_l. ring.
  - intros H. pose proof (uniqueness_limite _ _ _ _ H (logistic_da k x a)) as Hu.
    fold E in Hu. unfold Rdiv in Hu.
    destruct (Req_dec k 0) as [Hk|Hk]; [now left|right].
    set (i := / ((E + 1) * (E + 1))) in *. set (j := / (E + 1)) in *.
    assert (Hij : i = j * j).
    { unfold i, j. rewrite Rinv_mult. reflexivity. }
    assert (Hj : 0 < j) by (apply Rinv_0_lt_compat; lra).
    assert (Hq : k * (E * j * (E - j)) = 0) by (rewrite Hij in Hu; lra).
    apply Rmult_integral in Hq as [Hq|Hq]; [lra|].
    apply Rmult_integral in Hq as [Hq|Hq].
    + assert (0 < E * j) by (apply Rmult_lt_0_compat; lra). lra.
    + assert (E = j) by lra. nra.
  - intros Hor. eapply D_val; [apply logistic_da|]. fold E.
    destruct Hor as [-> | HE].
    + unfold Rdiv. rewrite !Rmult_0_l. reflexivity.
    + assert (HEj : E = / (E + 1)).
      { apply (Rmult_eq_reg_r (E + 1)); [|lra]. now rewrite Hinv1. }
      unfold Rdiv. rewrite Rinv_mult, <- HEj. ring.
Qed.

(** X4.  What [logistic_fd] returns.  Where no intermediate result
    overflows, with [E = exp(k (alpha - x))] the denominator cancels:
    [grad[0] = -(x - alpha) E] and [grad[1] = k E^2 / (E + 1)];
    [grad[0]] is the derivative in [k] only at [x = alpha], and
    [grad[1]] is the derivative in [alpha] only when [k = 0] or
    [E (E + 1) = 1].  Once [E] exceeds [DBL_MAX] the residual is 1 and
    both components of the gradient are NaN. *)
Theorem logistic_fd_gradient (c : coef) (x : R) :
  let E := exp (c_0 c * (c_1 c - x)) in
  (logistic_fd_in_range c x ->
   Ieee.logistic_fd (of_coef c) (Ieee.Fin x)
   = Ieee.FdOut (Ieee.Fin (logistic_f c x))
                (Ieee.Fin (- ((x - c_1 c) * E)))
                (Ieee.Fin (c_0 c * E * E / (E + 1))) /\
   (partial_0 logistic_f c x (- ((x - c_1 c) * E)) <-> x = c_1 c) /\
   (partial_1 logistic_f c x (c_0 c * E * E / (E + 1)) <-> c_0 c = 0 \/ E * (E + 1) = 1)) /\
  (in_range (x - c_1 c) -> in_range (c_0 c * (c_1 c - x)) -> Ieee.DBL_MAX < E ->
   Ieee.logistic_fd (of_coef c) (Ieee.Fin x) = Ieee.FdOut (Ieee.Fin 1) Ieee.NaN Ieee.NaN).
Proof.
  intros E. split; [|apply logistic_fd_overflow].
  intros Hin. destruct (logistic_fd_real c x) as (H0 & H1 & H2 & Hp0 & Hp1).
  fold E in H1, H2, Hp1. rewrite H1 in Hp0. rewrite H2 in Hp1.
  split; [|split; [exact Hp0|exact Hp1]].
  rewrite (logistic_fd_fin c x Hin). unfold of_fd_out. now rewrite H0, H1, H2.
Qed.

(** The statement above at [c = (1, 0)], [x = 1], where nothing
    overflows, and at [c = (1000, 0)], [x = -1], where [exp 1000]
    does. *)
Lemma logistic_fd_gradient_example :
  Ieee.logistic_fd (Ieee.Coef (Ieee.Fin 1) (Ieee.Fin 0)) (Ieee.Fin 1)
  = Ieee.FdOut (Ieee.Fin (logistic_f (Coef 1 0) 1))
               (Ieee.Fin (- ((1 - 0) * exp (1 * (0 - 1)))))
               (Ieee.Fin (1 * exp (1 * (0 - 1)) * exp (1 * (0 - 1)) / (exp (1 * (0 - 1)) + 1))) /\
  Ieee.logistic_fd (Ieee.Coef (Ieee.Fin 1000) (Ieee.Fin 0)) (Ieee.Fin (- 1))
  = Ieee.FdOut (Ieee.Fin 1) Ieee.NaN Ieee.NaN.
Proof.
  split.
  - destruct (logistic_fd_gradient (Coef 1 0) 1) as [Hin _].
    apply Hin. unfold logistic_fd_in_range. cbv zeta. cbn [c_0 c_1].
    assert (He : 0 < exp (1 * (0 - 1)) <= 1).
    { split; [apply exp_pos|]. apply Rle_trans with (exp 0); [|rewrite exp_0; lra].
      left. apply exp_increasing. lra. }
    pose proof DBL_MAX_large.
    repeat split; try (apply in_range_small, Rabs_le; lra). lra.
  - destruct (logistic_fd_gradient (Coef 1000 0) (- 1)) as [_ Hover].
    apply Hover; cbn [c_0 c_1].
    + apply in_range_small, Rabs_le. lra.
    + apply in_range_small, Rabs_le. lra.
    + replace (1000 * (0 - - 1)) with 1000 by lra. apply exp_1000_overflows.
Defined.

(** ** The shape functions *)

(** X5.  Where nothing overflows the hyperbolic tangent model is the
    logistic model with twice the slope:
    [hyperbolic_tangent(k, alpha, x) = logistic(2k, alpha, x)].  Once
    [exp |k (x - alpha)|] exceeds [DBL_MAX] the two differ:
    [hyperbolic_tangent] returns NaN and [logistic] a number between 0
    and 1. *)
Theorem hyperbolic_tangent_is_logistic (k alpha x : R) :
  in_range (x - alpha) -> in_range (2 * k * (x - alpha)) ->
  (exp (Rabs (2 * k * (x - alpha))) + 1 <= Ieee.DBL_MAX ->
   Ieee.hyperbolic_tangent (Ieee.Fin k) (Ieee.Fin alpha) (Ieee.Fin x)
   = Ieee.logistic (Ieee.Fin (2 * k)) (Ieee.Fin alpha) (Ieee.Fin x)) /\
  (Ieee.DBL_MAX < exp (Rabs (k * (x - alpha))) ->
   Ieee.hyperbolic_tangent (Ieee.Fin k) (Ieee.Fin alpha) (Ieee.Fin x) = Ieee.NaN /\
   exists v, Ieee.logistic (Ieee.Fin (2 * k)) (Ieee.Fin alpha) (Ieee.Fin x) = Ieee.Fin v /\
             0 <= v <= 1).
Proof.
  intros Hd H2u.
  assert (Habs : Rabs (k * (x - alpha)) <= Rabs (2 * k * (x - alpha))).
  { replace (2 * k * (x - alpha)) with (2 * (k * (x - alpha))) by ring.
    rewrite (Rabs_mult 2), (Rabs_pos_eq 2) by lra. pose proof (Rabs_pos (k * (x - alpha))). lra. }
  assert (Hu : in_range (k * (x - alpha))) by (unfold in_range in *; lra).
  split.
  - intros He.
    assert (Hshape : shape_in_range k alpha x).
    { split; [done|].
      assert (exp (Rabs (k * (x - alpha))) <= exp (Rabs (2 * k * (x - alpha)))); [|lra].
      destruct Habs as [Habs|Habs]; [left; now apply exp_increasing|rewrite Habs; lra]. }
    rewrite (hyperbolic_tangent_fin k alpha x Hshape).
    rewrite (logistic_fin (2 * k) alpha x) by (split; [done|exact He]).
    f_equal. apply hyperbolic_as_logistic.
  - intros He. split; [now apply hyperbolic_tangent_overflow|].
    now apply logistic_number.
Qed.

(** The statement above at [k = 1], [alpha = 0], [x = 1]. *)
Lemma hyperbolic_tangent_is_logistic_example :
  Ieee.hyperbolic_tangent (Ieee.Fin 1) (Ieee.Fin 0) (Ieee.Fin 1)
  = Ieee.logistic (Ieee.Fin (2 * 1)) (Ieee.Fin 0) (Ieee.Fin 1).
Proof.
  destruct (hyperbolic_tangent_is_logistic 1 0 1) as [Heq _].
  - apply in_range_small, Rabs_le. lra.
  - apply in_range_small, Rabs_le. lra.
  - apply Heq. pose proof DBL_MAX_large. pose proof exp_le_3. pose proof (exp_pos 1).
    replace (Rabs (2 * 1 * (1 - 0))) with (1 + 1).
    + rewrite exp_plus. nra.
    + rewrite Rabs_pos_eq; lra.
Defined.

(** The five formulas are symmetric about [(alpha, 1/2)]. *)
Lemma shapes_symmetric_real (k alpha d : R) :
  logistic k alpha (alpha + d) + logistic k alpha (alpha - d) = 1 /\
  hyperbolic_tangent k alpha (alpha + d) + hyperbolic_tangent k alpha (alpha - d) = 1 /\
  arctangent k alpha (alpha + d) + arctangent k alpha (alpha - d) = 1 /\
  gudermannian k alpha (alpha + d) + gudermannian k alpha (alpha - d) = 1 /\
  algebraic k alpha (alpha + d) + algebraic k alpha (alpha - d) = 1.
Proof.
  assert (Hl : forall k, logistic k alpha (alpha + d) + logistic k alpha (alpha - d) = 1).
  { intros k'. unfold logistic.
    replace (- k' * (alpha + d - alpha)) with (- (k' * d)) by ring.
    replace (- k' * (alpha - d - alpha)) with (k' * d) by ring.
    pose proof (exp_pos (k' * d)) as He. pose proof (exp_pos (- (k' * d))) as He'.
    pose proof (exp_neg_mult (k' * d)) as Hm.
    assert (Heq : exp (k' * d) = / exp (- (k' * d))).
    { apply (Rmult_eq_reg_l (exp (- (k' * d)))); [|lra]. rewrite Rinv_r by lra. exact Hm. }
    rewrite Heq. field. split; lra. }
  split; [apply Hl|]. split.
  { rewrite !hyperbolic_as_logistic. apply Hl. }
  split.
  { unfold arctangent.
    replace (k * (alpha - d - alpha)) with (- (k * (alpha + d - alpha))) by ring.
    rewrite atan_opp. lra. }
  split.
  { unfold gudermannian.
    replace (k * (alpha - d - alpha) / 2) with (- (k * (alpha + d - alpha) / 2)) by field.
    rewrite tanh_odd, atan_opp. lra. }
  unfold algebraic. cbv zeta.
  replace (k * (alpha - d - alpha)) with (- (k * (alpha + d - alpha))) by ring.
  set (u := k * (alpha + d - alpha)).
  replace (1 + - u * - u) with (1 + u * u) by ring.
  assert (Hu : 0 < 1 + u * u) by nra. pose proof (sqrt_lt_R0 _ Hu). field. lra.
Qed.

(** X6.  Where nothing overflows at [alpha + d] nothing overflows at
    [alpha - d], and each of the five shape functions is symmetric about
    the point [(alpha, 1/2)]: the numbers it returns at [alpha + d] and
    at [alpha - d] add up to 1. *)
Theorem shapes_symmetric_about_alpha (k alpha d : R) :
  shape_in_range k alpha (alpha + d) ->
  shape_in_range k alpha (alpha - d) /\
  sum_is_one (Ieee.logistic (Ieee.Fin k) (Ieee.Fin alpha) (Ieee.Fin (alpha + d)))
             (Ieee.logistic (Ieee.Fin k) (Ieee.Fin alpha) (Ieee.Fin (alpha - d))) /\
  sum_is_one (Ieee.hyperbolic_tangent (Ieee.Fin k) (Ieee.Fin alpha) (Ieee.Fin (alpha + d)))
             (Ieee.hyperbolic_tangent (Ieee.Fin k) (Ieee.Fin alpha) (Ieee.Fin (alpha - d))) /\
  sum_is_one (Ieee.arctangent (Ieee.Fin k) (Ieee.Fin alpha) (Ieee.Fin (alpha + d)))
             (Ieee.arctangent (Ieee.Fin k) (Ieee.Fin alpha) (Ieee.Fin (alpha - d))) /\
  sum_is_one (Ieee.gudermannian (Ieee.Fin k) (Ieee.Fin alpha) (Ieee.Fin (alpha + d)))
             (Ieee.gudermannian (Ieee.Fin k) (Ieee.Fin alpha) (Ieee.Fin (alpha - d))) /\
  sum_is_one (Ieee.algebraic (Ieee.Fin k) (Ieee.Fin alpha) (Ieee.Fin (alpha + d)))
             (Ieee.algebraic (Ieee.Fin k) (Ieee.Fin alpha) (Ieee.Fin (alpha - d))).
Proof.
  intros Hplus.
  assert (Hminus : shape_in_range k alpha (alpha - d)).
  { destruct Hplus as [Hd He]. unfold shape_in_range, in_range in *.
    replace (alpha - d - alpha) with (- (alpha + d - alpha)) by ring.
    replace (k * - (alpha + d - alpha)) with (- (k * (alpha + d - alpha))) by ring.
    now rewrite !Rabs_Ropp. }
  destruct (shapes_symmetric_real k alpha d) as (H1 & H2 & H3 & H4 & H5).
  split; [exact Hminus|].
  rewrite !logistic_fin, !hyperbolic_tangent_fin, !arctangent_fin, !gudermannian_fin,
    !algebraic_fin by done.
  unfold sum_is_one. repeat split; eauto.
Qed.

(** The statement above for the hyperbolic tangent at [k = 1],
    [alpha = 0], [d = 1]. *)
Lemma shapes_symmetric_about_alpha_example :
  sum_is_one (Ieee.hyperbolic_tangent (Ieee.Fin 1) (Ieee.Fin 0) (Ieee.Fin (0 + 1)))
             (Ieee.hyperbolic_tangent (Ieee.Fin 1) (Ieee.Fin 0) (Ieee.Fin (0 - 1))).
Proof.
  destruct (shapes_symmetric_about_alpha 1 0 1) as (_ & _ & H & _); [|exact H].
  apply shape_in_range_small.
  - replace (0 + 1 - 0) with 1 by lra. rewrite Rabs_pos_eq; lra.
  - replace (1 * (0 + 1 - 0)) with 1 by lra. rewrite Rabs_pos_eq; lra.
Defined.

(** The formulas of [hyperbolic_fd] as real numbers. *)
Lemma hyperbolic_fd_real (c : coef) (x : R) :
  exact_gradient hyperbolic_f hyperbolic_fd c x /\
  grad_0 (hyperbolic_fd c x)
  = - (x - c_1 c) * sech (c_0 c * (x - c_1 c)) * sech (c_0 c * (x - c_1 c)) / 2 /\
  grad_1 (hyperbolic_fd c x)
  = c_0 c * sech (c_0 c * (x - c_1 c)) * sech (c_0 c * (x - c_1 c)) / 2.
Proof.
  split; [apply hyperbolic_exact|].
  destruct c as [k a]. cbn [grad_0 grad_1 hyperbolic_fd c_0 c_1].
  replace (2 * k * (x - a)) with (2 * (k * (x - a))) by ring.
  set (u := k * (x - a)). rewrite exp_double. unfold sech, cosh.
  pose proof (exp_pos u) as He. pose proof (exp_neg_mult u) as Hm.
  assert (Heq : exp (- u) = / exp u).
  { apply (Rmult_eq_reg_r (exp u)); [|lra]. rewrite Rinv_l by lra. exact Hm. }
  rewrite Heq. set (e := exp u) in *.
  split; field; split; nra.
Qed.

(** X7.  What [hyperbolic_fd] returns.  Where no intermediate result
    overflows it returns the residual and its two partial derivatives,
    [-(x - alpha) sech(u)^2 / 2] and [k sech(u)^2 / 2] with
    [u = k (x - alpha)].  Once [exp(2 k (x - alpha))] exceeds [DBL_MAX]
    both components of the gradient are NaN, and once
    [exp |k (x - alpha)|] does the residual is NaN. *)
Theorem hyperbolic_fd_gradient (c : coef) (x : R) :
  (hyperbolic_fd_in_range c x ->
   Ieee.hyperbolic_fd (of_coef c) (Ieee.Fin x) = of_fd_out (hyperbolic_fd c x) /\
   exact_gradient hyperbolic_f hyperbolic_fd c x /\
   grad_0 (hyperbolic_fd c x)
   = - (x - c_1 c) * sech (c_0 c * (x - c_1 c)) * sech (c_0 c * (x - c_1 c)) / 2 /\
   grad_1 (hyperbolic_fd c x)
   = c_0 c * sech (c_0 c * (x - c_1 c)) * sech (c_0 c * (x - c_1 c)) / 2) /\
  (in_range (x - c_1 c) -> in_range (2 * c_0 c) -> in_range (2 * c_0 c * (x - c_1 c)) ->
   in_range (2 * (x - c_1 c)) ->
   Ieee.DBL_MAX < exp (2 * c_0 c * (x - c_1 c)) ->
   Ieee.grad_0 (Ieee.hyperbolic_fd (of_coef c) (Ieee.Fin x)) = Ieee.NaN /\
   Ieee.grad_1 (Ieee.hyperbolic_fd (of_coef c) (Ieee.Fin x)) = Ieee.NaN) /\
  (in_range (x - c_1 c) -> in_range (c_0 c * (x - c_1 c)) ->
   Ieee.DBL_MAX < exp (Rabs (c_0 c * (x - c_1 c))) ->
   Ieee.func (Ieee.hyperbolic_fd (of_coef c) (Ieee.Fin x)) = Ieee.NaN).
Proof.
  split; [|split; [apply hyperbolic_fd_overflow|]].
  - intros Hin. split; [now apply hyperbolic_fd_fin|]. apply hyperbolic_fd_real.
  - intros Hd Hu He. destruct c as [k a]. cbn [c_0 c_1] in *.
    unfold of_coef. cbn [Ieee.func Ieee.hyperbolic_fd Ieee.c_0 Ieee.c_1 c_0 c_1].
    now rewrite hyperbolic_tangent_overflow.
Qed.

Lemma exp_2000_overflows : Ieee.DBL_MAX < exp 2000.
Proof.
  apply Rlt_trans with (1 := exp_1000_overflows). apply exp_increasing. lra.
Qed.

(** The statement above at [c = (1, 0)], [x = 1], where nothing
    overflows, and at [c = (1000, 0)], [x = 1], where everything is
    NaN. *)
Lemma hyperbolic_fd_gradient_example :
  Ieee.hyperbolic_fd (Ieee.Coef (Ieee.Fin 1) (Ieee.Fin 0)) (Ieee.Fin 1)
  = of_fd_out (hyperbolic_fd (Coef 1 0) 1) /\
  Ieee.hyperbolic_fd (Ieee.Coef (Ieee.Fin 1000) (Ieee.Fin 0)) (Ieee.Fin 1)
  = Ieee.FdOut Ieee.NaN Ieee.NaN Ieee.NaN.
Proof.
  split.
  - destruct (hyperbolic_fd_gradient (Coef 1 0) 1) as [Hin _].
    apply Hin. unfold hyperbolic_fd_in_range. cbv zeta. cbn [c_0 c_1].
    assert (He : 0 < exp (2 * 1 * (1 - 0)) <= 9).
    { split; [apply exp_pos|]. replace (2 * 1 * (1 - 0)) with (1 + 1) by lra.
      rewrite exp_plus. pose proof (exp_pos 1). pose proof exp_le_3. nra. }
    pose proof DBL_MAX_large.
    split; [apply shape_in_range_unit|].
    repeat split; try (apply in_range_small, Rabs_le; nra). nra.
  - destruct (hyperbolic_fd_gradient (Coef 1000 0) 1) as (_ & Hgrad & Hfunc).
    destruct Hgrad as [H0 H1]; cbn [c_0 c_1].
    1-4: apply in_range_small, Rabs_le; lra.
    { replace (2 * 1000 * (1 - 0)) with 2000 by lra. apply exp_2000_overflows. }
    assert (Hf : Ieee.func (Ieee.hyperbolic_fd (of_coef (Coef 1000 0)) (Ieee.Fin 1)) = Ieee.NaN).
    { apply Hfunc; cbn [c_0 c_1].
      1-2: apply in_range_small, Rabs_le; lra.
      replace (1000 * (1 - 0)) with 1000 by lra. rewrite Rabs_pos_eq by lra.
      apply exp_1000_overflows. }
    unfold of_coef in *. cbn [c_0 c_1] in *.
    destruct (Ieee.hyperbolic_fd _ _) as [f g0 g1]. cbn in *. congruence.
Defined.

(** X8.  On every double, infinities and NaN included, a shape function
    returns NaN or a number in its range: [0, 1] for the logistic,
    hyperbolic tangent and simple algebraic shapes,
    [(1 - PI/2)/2, (1 + PI/2)/2] for the arctangent and Gudermannian
    ones; none returns an infinity.  When [x - alpha] and
    [k (x - alpha)] are finite only [hyperbolic_tangent] can return NaN,
    and it does exactly when [exp |k (x - alpha)|] exceeds [DBL_MAX];
    and once the square of [k (x - alpha)] exceeds [DBL_MAX] the simple
    algebraic shape is exactly 1/2. *)
Theorem shapes_ranges (k alpha x : Ieee.double) :
  nan_or_within 0 1 (Ieee.logistic k alpha x) /\
  nan_or_within 0 1 (Ieee.hyperbolic_tangent k alpha x) /\
  nan_or_within 0 1 (Ieee.algebraic k alpha x) /\
  nan_or_within ((1 - PI / 2) / 2) ((1 + PI / 2) / 2) (Ieee.arctangent k alpha x) /\
  nan_or_within ((1 - PI / 2) / 2) ((1 + PI / 2) / 2) (Ieee.gudermannian k alpha x) /\
  (forall rk ra rx : R,
     k = Ieee.Fin rk -> alpha = Ieee.Fin ra -> x = Ieee.Fin rx ->
     in_range (rx - ra) -> in_range (rk * (rx - ra)) ->
     Ieee.logistic k alpha x <> Ieee.NaN /\
     Ieee.algebraic k alpha x <> Ieee.NaN /\
     Ieee.arctangent k alpha x <> Ieee.NaN /\
     Ieee.gudermannian k alpha x <> Ieee.NaN /\
     (Ieee.hyperbolic_tangent k alpha x = Ieee.NaN <->
      Ieee.DBL_MAX < exp (Rabs (rk * (rx - ra)))) /\
     (Ieee.DBL_MAX < rk * (rx - ra) * (rk * (rx - ra)) ->
      Ieee.algebraic k alpha x = Ieee.Fin (1 / 2))).
Proof.
  split; [apply logistic_within|]. split; [apply hyperbolic_tangent_within|].
  split; [apply algebraic_within|]. split; [apply arctangent_within|].
  split; [apply gudermannian_within|].
  intros rk ra rx -> -> -> Hd Hu.
  destruct (logistic_number rk ra rx Hd Hu) as (v1 & -> & _).
  destruct (arctangent_number rk ra rx Hd Hu) as (v2 & -> & _).
  destruct (gudermannian_number rk ra rx Hd Hu) as (v3 & -> & _).
  destruct (algebraic_number rk ra rx Hd Hu) as (v4 & H4 & _).
  split; [done|]. split; [now rewrite H4|]. split; [done|]. split; [done|].
  split.
  - split.
    + intros Hnan. destruct (Rlt_le_dec Ieee.DBL_MAX (exp (Rabs (rk * (rx - ra)))))
        as [Hlt|Hle]; [done|].
      destruct (hyperbolic_tangent_number rk ra rx Hd Hu Hle) as (v & Hv & _). congruence.
    + now apply hyperbolic_tangent_overflow.
  - intros Hsq. unfold Ieee.algebraic. cbv zeta. rewrite sub_fin, mul_fin by done.
    cbn [Ieee.mul]. rewrite (overflow_above _ Hsq). cbn [Ieee.add Ieee.sqrt Ieee.div].
    rewrite overflow_in_range by (apply in_range_small, Rabs_le; lra).
    rewrite div_fin; [|lra|apply in_range_small, Rabs_le; lra]. f_equal. lra.
Qed.

(** For a slope [k >= 0] the five formulas are non-decreasing in [x]. *)
Lemma shapes_monotone_real (k alpha x x' : R) :
  0 <= k -> x <= x' ->
  logistic k alpha x <= logistic k alpha x' /\
  hyperbolic_tangent k alpha x <= hyperbolic_tangent k alpha x' /\
  arctangent k alpha x <= arctangent k alpha x' /\
  gudermannian k alpha x <= gudermannian k alpha x' /\
  algebraic k alpha x <= algebraic k alpha x'.
Proof.
  intros Hk Hx.
  assert (Hu : forall k, 0 <= k -> k * (x - alpha) <= k * (x' - alpha)).
  { intros k' Hk'. apply Rmult_le_compat_l; lra. }
  assert (Hl : forall k, 0 <= k -> logistic k alpha x <= logistic k alpha x').
  { intros k' Hk'. unfold logistic. rewrite <- !Ropp_mult_distr_l.
    apply sigmoid_mono, Hu, Hk'. }
  split; [now apply Hl|]. split.
  { rewrite !hyperbolic_as_logistic. apply Hl. lra. }
  split.
  { unfold arctangent. pose proof (atan_mono _ _ (Hu k Hk)). lra. }
  split.
  { unfold gudermannian.
    assert (Hh : k * (x - alpha) / 2 <= k * (x' - alpha) / 2) by (specialize (Hu k Hk); lra).
    pose proof (atan_mono _ _ (tanh_mono _ _ Hh)). lra. }
  unfold algebraic. cbv zeta. pose proof (ratio_mono _ _ (Hu k Hk)). lra.
Qed.

(** X9.  For a slope [k >= 0], and where nothing overflows at [x] and at
    [x'], each of the five shape functions is non-decreasing: the number
    it returns at [x] is at most the one it returns at [x' >= x]. *)
Theorem shapes_monotone (k alpha x x' : R) :
  0 <= k -> x <= x' -> shape_in_range k alpha x -> shape_in_range k alpha x' ->
  number_le (Ieee.logistic (Ieee.Fin k) (Ieee.Fin alpha) (Ieee.Fin x))
            (Ieee.logistic (Ieee.Fin k) (Ieee.Fin alpha) (Ieee.Fin x')) /\
  number_le (Ieee.hyperbolic_tangent (Ieee.Fin k) (Ieee.Fin alpha) (Ieee.Fin x))
            (Ieee.hyperbolic_tangent (Ieee.Fin k) (Ieee.Fin alpha) (Ieee.Fin x')) /\
  number_le (Ieee.arctangent (Ieee.Fin k) (Ieee.Fin alpha) (Ieee.Fin x))
            (Ieee.arctangent (Ieee.Fin k) (Ieee.Fin alpha) (Ieee.Fin x')) /\
  number_le (Ieee.gudermannian (Ieee.Fin k) (Ieee.Fin alpha) (Ieee.Fin x))
            (Ieee.gudermannian (Ieee.Fin k) (Ieee.Fin alpha) (Ieee.Fin x')) /\
  number_le (Ieee.algebraic (Ieee.Fin k) (Ieee.Fin alpha) (Ieee.Fin x))
            (Ieee.algebraic (Ieee.Fin k) (Ieee.Fin alpha) (Ieee.Fin x')).
Proof.
  intros Hk Hx Hin Hin'.
  destruct (shapes_monotone_real k alpha x x' Hk Hx) as (H1 & H2 & H3 & H4 & H5).
  rewrite !logistic_fin, !hyperbolic_tangent_fin, !arctangent_fin, !gudermannian_fin,
    !algebraic_fin by done.
  unfold number_le. repeat split; eauto.
Qed.

(** The statement above for [k = 1], [alpha = 0], from [x = 0] to 1. *)
Lemma shapes_monotone_example :
  number_le (Ieee.logistic (Ieee.Fin 1) (Ieee.Fin 0) (Ieee.Fin 0))
            (Ieee.logistic (Ieee.Fin 1) (Ieee.Fin 0) (Ieee.Fin 1)) /\
  number_le (Ieee.hyperbolic_tangent (Ieee.Fin 1) (Ieee.Fin 0) (Ieee.Fin 0))
            (Ieee.hyperbolic_tangent (Ieee.Fin 1) (Ieee.Fin 0) (Ieee.Fin 1)) /\
  number_le (Ieee.arctangent (Ieee.Fin 1) (Ieee.Fin 0) (Ieee.Fin 0))
            (Ieee.arctangent (Ieee.Fin 1) (Ieee.Fin 0) (Ieee.Fin 1)) /\
  number_le (Ieee.gudermannian (Ieee.Fin 1) (Ieee.Fin 0) (Ieee.Fin 0))
            (Ieee.gudermannian (Ieee.Fin 1) (Ieee.Fin 0) (Ieee.Fin 1)) /\
  number_le (Ieee.algebraic (Ieee.Fin 1) (Ieee.Fin 0) (Ieee.Fin 0))
            (Ieee.algebraic (Ieee.Fin 1) (Ieee.Fin 0) (Ieee.Fin 1)).
Proof.
  apply (shapes_monotone 1 0 0 1); [lra|lra|apply shape_in_range_origin|apply shape_in_range_unit].
Defined.

(** ** The helper [sech] and the points of a class *)

(** X10.  The helper [sech] on every double: it returns NaN only for
    NaN, and otherwise a number in [0, 1]; it is even; it is 1 at 0;
    where [cosh] does not overflow its value is [1 / cosh x], which is
    positive, and where [cosh] overflows, and at the infinities, it is
    0. *)
Theorem sech_properties (x : Ieee.double) :
  nan_or_within 0 1 (Ieee.sech x) /\
  (x <> Ieee.NaN -> Ieee.sech x <> Ieee.NaN) /\
  Ieee.sech (Ieee.opp x) = Ieee.sech x /\
  Ieee.sech (Ieee.Fin 0) = Ieee.Fin 1 /\
  (forall r, x = Ieee.Fin r -> cosh r <= Ieee.DBL_MAX ->
             Ieee.sech x = Ieee.Fin (sech r) /\ 0 < sech r <= 1) /\
  (forall r, x = Ieee.Fin r -> Ieee.DBL_MAX < cosh r -> Ieee.sech x = Ieee.Fin 0) /\
  (x = Ieee.PInf \/ x = Ieee.NInf -> Ieee.sech x = Ieee.Fin 0).
Proof.
  pose proof DBL_MAX_large as Hmax.
  assert (Hfin : forall r, cosh r <= Ieee.DBL_MAX ->
                           Ieee.sech (Ieee.Fin r) = Ieee.Fin (sech r)).
  { intros r Hr. pose proof (cosh_ge_1 r) as Hc. pose proof (sech_range r) as Hs.
    unfold Ieee.sech. cbn [Ieee.cosh]. rewrite overflow_in_range by (apply in_range_pos; lra).
    rewrite div_fin; [reflexivity|lra|]. fold (sech r). apply in_range_small, Rabs_le. lra. }
  assert (Hover : forall r, Ieee.DBL_MAX < cosh r -> Ieee.sech (Ieee.Fin r) = Ieee.Fin 0).
  { intros r Hr. unfold Ieee.sech. cbn [Ieee.cosh]. now rewrite overflow_above. }
  assert (Hcases : forall r, Ieee.sech (Ieee.Fin r) = Ieee.Fin (sech r) \/
                             Ieee.sech (Ieee.Fin r) = Ieee.Fin 0).
  { intros r. destruct (Rle_lt_dec (cosh r) Ieee.DBL_MAX); [left|right]; auto. }
  split.
  { destruct x as [r| | |]; [|right; exists 0; split; [done|lra]..|now left].
    pose proof (sech_range r).
    destruct (Hcases r) as [-> | ->]; right; eexists; (split; [reflexivity|lra]). }
  split.
  { destruct x as [r| | |]; [|done..]. intros _. now destruct (Hcases r) as [-> | ->]. }
  split.
  { destruct x as [r| | |]; try reflexivity. unfold Ieee.sech. cbn [Ieee.opp Ieee.cosh].
    f_equal. f_equal. unfold cosh. rewrite Ropp_involutive. f_equal. ring. }
  split.
  { rewrite Hfin by (rewrite cosh_0; lra). f_equal. unfold sech. rewrite cosh_0. lra. }
  split.
  { intros r -> Hr. split; [now apply Hfin|apply sech_range]. }
  split; [intros r ->; apply Hover|].
  now intros [-> | ->].
Qed.

Lemma ecdf_y_strict l i j yi yj :
  (i < j)%nat -> ecdf_y l !! i = Some yi -> ecdf_y l !! j = Some yj -> yj < yi.
Proof.
  intros Hij Hi Hj.
  assert (Hjl : (j <= l + 1)%nat).
  { apply lookup_lt_Some in Hj. rewrite ecdf_y_length in Hj. lia. }
  rewrite ecdf_y_lookup_le in Hi, Hj by lia.
  injection Hi as <-. injection Hj as <-.
  assert (Hl : 0 < INR (l + 1)) by (apply lt_0_INR; lia).
  assert (Hlt : INR i < INR j) by (apply lt_INR; lia).
  assert (INR i / INR (l + 1) < INR j / INR (l + 1)); [|lra].
  unfold Rdiv. apply Rmult_lt_compat_r; [|exact Hlt].
  now apply Rinv_0_lt_compat.
Qed.

Lemma squares_boundary (distances : list R) :
  squares (0 :: distances ++ [1]) !! 0%nat = Some 0 /\
  squares (0 :: distances ++ [1]) !! (length distances + 1)%nat = Some 1 /\
  Forall (fun w => 0 <= w) (squares (0 :: distances ++ [1])).
Proof.
  split; [change (Some (0 * 0) = Some 0); f_equal; lra|]. split.
  - unfold squares. rewrite list_lookup_fmap.
    replace (length distances + 1)%nat with (S (length distances + 0)) by lia.
    change ((0 :: ?t) !! S ?n) with (t !! n).
    rewrite lookup_app_r by lia.
    replace (length distances + 0 - length distances)%nat with 0%nat by lia.
    change (Some (1 * 1) = Some 1). f_equal. lra.
  - unfold squares. apply Forall_fmap, Forall_forall. intros a _.
    change (0 <= a * a). nra.
Qed.

Lemma ecdf_y_unit_interval l : Forall (fun y => 0 <= y <= 1) (ecdf_y l).
Proof.
  apply Forall_lookup. intros i y Hy.
  assert (Hi : (i <= l + 1)%nat).
  { apply lookup_lt_Some in Hy. rewrite ecdf_y_length in Hy. lia. }
  rewrite ecdf_y_lookup_le in Hy by lia. injection Hy as <-.
  assert (Hl : 0 < INR (l + 1)) by (apply lt_0_INR; lia).
  assert (H0 : 0 <= INR i) by apply pos_INR.
  assert (H1 : INR i <= INR (l + 1)) by (apply le_INR; lia).
  assert (Hinv : / INR (l + 1) * INR (l + 1) = 1) by (apply Rinv_l; lra).
  assert (0 < / INR (l + 1)) by (now apply Rinv_0_lt_compat).
  unfold Rdiv. nra.
Qed.

(** X11.  In the points built for a class the prepended point has
    weight 0 and the appended point weight 1, no weight is negative,
    every survival fraction lies in [0, 1], and the survival fractions
    decrease strictly along the sequence. *)
Theorem ecdf_boundary_weights (distances : list R) :
  let l := length distances in
  exists X Y W,
    ecdf_points distances = Normal (X, Y) /\ load_w X Y = Normal W /\
    W !! 0%nat = Some 0 /\ W !! (l + 1)%nat = Some 1 /\
    Forall (fun w => 0 <= w) W /\
    Forall (fun y => 0 <= y <= 1) Y /\
    (forall i j yi yj, (i < j)%nat -> Y !! i = Some yi -> Y !! j = Some yj -> yj < yi).
Proof.
  cbv zeta.
  assert (HX : length (0 :: distances ++ [1]) = (length distances + 2)%nat).
  { cbn [length]. rewrite length_app. cbn [length]. lia. }
  destruct (squares_boundary distances) as (H0 & H1 & Hpos).
  exists (0 :: distances ++ [1]), (ecdf_y (length distances)),
         (squares (0 :: distances ++ [1])).
  split; [apply ecdf_points_ok|]. split.
  { rewrite load_w_within by (rewrite ecdf_y_length; lia).
    now rewrite ecdf_y_length, take_ge by lia. }
  split; [exact H0|]. split; [exact H1|]. split; [exact Hpos|].
  split; [apply ecdf_y_unit_interval|]. apply ecdf_y_strict.
Qed.

(** ** The fitter *)

Lemma launch_jobs_elem (sd sd' : list (string * list R)) (jobs : list Job) (j : Job) :
  launch sd = Normal (sd', jobs) -> j ∈ jobs ->
  exists d, (job_class j, d) ∈ sd /\ (job_class j, job_x j) ∈ sd' /\
            job_x j = 0 :: d ++ [1] /\ job_y j = ecdf_y (length d).
Proof.
  rewrite launch_ok. intros [= <- <-] Hj.
  apply list_elem_of_fmap in Hj as ([name d] & -> & Hin). cbn [fst snd job_class job_x job_y].
  exists d. split; [exact Hin|]. split; [|done].
  apply list_elem_of_fmap. exists (name, d). done.
Qed.

(** X12.  Every solver call made for a thread that [fitClasses]
    started receives the entry's updated vector as [x], the thread's [y],
    the squares of [x] as [w], and the three have one length, at least
    2. *)
Theorem solver_receives_equal_lengths (solver : Solver)
    (sorted_distances sorted_distances' : list (string * list R))
    (jobs : list Job) (j : Job) (call : LsfitCall) :
  launch sorted_distances = Normal (sorted_distances', jobs) ->
  j ∈ jobs ->
  call ∈ (fit_class solver (job_x j) (job_y j)).1 ->
  (job_class j, job_x j) ∈ sorted_distances' /\
  fit_x call = job_x j /\ fit_y call = job_y j /\ fit_w call = squares (job_x j) /\
  length (fit_x call) = length (fit_y call) /\
  length (fit_w call) = length (fit_y call) /\
  (2 <= length (fit_x call))%nat.
Proof.
  intros Hlaunch Hj Hcall.
  destruct (launch_jobs_elem _ _ _ _ Hlaunch Hj) as (d & _ & Hin & Hx & Hy).
  assert (Hlx : length (job_x j) = (length d + 2)%nat).
  { rewrite Hx. cbn [length]. rewrite length_app. cbn [length]. lia. }
  assert (Hly : length (job_y j) = (length d + 2)%nat).
  { rewrite Hy. apply ecdf_y_length. }
  rewrite fit_class_within in Hcall by lia. cbv zeta in Hcall. cbn [fst] in Hcall.
  rewrite Hly, <- Hlx, firstn_all in Hcall.
  destruct (fit_all_trace solver (job_x j) (job_y j) (squares (job_x j))) as (Hdata & _).
  rewrite Forall_forall in Hdata. destruct (Hdata _ Hcall) as (Hfx & Hfy & Hfw).
  split; [exact Hin|]. rewrite Hfx, Hfy, Hfw. unfold squares. rewrite length_fmap.
  repeat split; lia.
Qed.

Lemma trace_A :
  (fit_class two_point_solver (job_x job_A) (job_y job_A)).1 = [first_call_A].
Proof.
  rewrite fit_class_within by (cbn [job_A job_x job_y]; rewrite ecdf_y_length; cbn [length]; lia).
  cbv zeta. cbn [fst]. unfold fit_all. cbv beta iota zeta.
  rewrite (bind_lsfit_error two_point_solver _ _ "singular"); [|reflexivity].
  cbn [job_A job_x job_y]. rewrite ecdf_y_length. reflexivity.
Qed.

(** The statement above for the only call of class "A". *)
Lemma solver_receives_equal_lengths_example :
  (job_class job_A, job_x job_A) ∈ [("A"%string, [0; 1]); ("B"%string, [0; 1 / 2; 1])] /\
  fit_x first_call_A = job_x job_A /\ fit_y first_call_A = job_y job_A /\
  fit_w first_call_A = squares (job_x job_A) /\
  length (fit_x first_call_A) = length (fit_y first_call_A) /\
  length (fit_w first_call_A) = length (fit_y first_call_A) /\
  (2 <= length (fit_x first_call_A))%nat.
Proof.
  apply (solver_receives_equal_lengths two_point_solver two_classes _ [job_A; job_B]).
  - exact two_classes_launched.
  - apply list_elem_of_here.
  - rewrite trace_A. apply list_elem_of_here.
Defined.

(** X13.  When the five fits return, the i-th result holds the
    coefficients and the weighted-RMS error the solver answered to the
    i-th call. *)
Theorem results_are_solver_replies (solver : Solver) (x y w : list R)
    (results : list FitResult) :
  (fit_all solver x y w).2 = Normal results ->
  Forall2 (fun call result => solver call = Fitted (c result) (wrmsError result))
          (fit_all solver x y w).1 results.
Proof.
  run_fit_all solver; intros [= <-].
  repeat (apply Forall2_cons; split; [assumption|]).
  apply Forall2_nil. done.
Qed.

(** The statement above for a solver that never throws. *)
Lemma results_are_solver_replies_example :
  exists results,
    (fit_all shifting_solver [0; 1] [1; 0] [0; 1]).2 = Normal results /\
    Forall2 (fun call result =>
               shifting_solver call = Fitted (c result) (wrmsError result))
            (fit_all shifting_solver [0; 1] [1; 0] [0; 1]).1 results.
Proof.
  destruct (shifting_solver_fits [0; 1] [1; 0] [0; 1]) as [results Hres].
  exists results. split; [exact Hres|].
  exact (results_are_solver_replies shifting_solver _ _ _ results Hres).
Defined.

(** X14.  The selection loop on any list: on an empty list [results[0]]
    does not exist; on a non-empty one it returns the first result of
    minimal error; and the error of the result it returns does not depend
    on the order of the list. *)
Theorem select_best_any_list (results results' : list FitResult) :
  (results = [] -> select_best results = Undefined) /\
  (results <> [] ->
   exists i best, select_best results = Normal best /\ first_minimum results i best) /\
  (forall best best',
     results ≡ₚ results' ->
     select_best results = Normal best -> select_best results' = Normal best' ->
     wrmsError best = wrmsError best').
Proof.
  split; [now intros ->|]. split; [apply select_best_first_minimum|].
  intros best best' Hperm Hb Hb'.
  assert (Hne : results <> []) by (intros ->; discriminate).
  assert (Hne' : results' <> []).
  { intros ->. apply Permutation_nil_r in Hperm. done. }
  destruct (select_best_first_minimum _ Hne) as (i & b & Hsb & Hi & Hmin & _).
  destruct (select_best_first_minimum _ Hne') as (i' & b' & Hsb' & Hi' & Hmin' & _).
  assert (b = best) as -> by congruence. assert (b' = best') as -> by congruence.
  apply list_elem_of_lookup_2 in Hi, Hi'.
  assert (wrmsError best <= wrmsError best') by (apply Hmin; now rewrite Hperm).
  assert (wrmsError best' <= wrmsError best) by (apply Hmin'; now rewrite <- Hperm).
  lra.
Qed.

(** X15.  A call of [curveFitting] that returns has stored the class's
    best fit under the class name and changed no other entry; the same
    call on the resulting table returns that table again, and the call
    returns on any other table too. *)
Theorem curveFitting_stores_one_entry (solver : Solver) (sorted_distances y_values : list R)
    (className : string) (t t' : BestFitTable) :
  curveFitting solver sorted_distances y_values className t = Normal t' ->
  (exists best,
     (fit_class solver sorted_distances y_values).2 = Normal best /\
     t' !! className = Some best) /\
  (forall other, other <> className -> t' !! other = t !! other) /\
  dom t' = dom t ∪ {[className]} /\
  curveFitting solver sorted_distances y_values className t' = Normal t' /\
  (forall t2 : BestFitTable,
     exists t2', curveFitting solver sorted_distances y_values className t2 = Normal t2').
Proof.
  unfold curveFitting.
  destruct (fit_class solver sorted_distances y_values).2 as [best|msg|]; [|done|done].
  cbn. intros [= <-].
  split; [exists best; split; [done|apply lookup_insert_eq]|].
  split; [intros other Hne; now apply lookup_insert_ne|].
  split; [rewrite dom_insert_L; set_solver|].
  split; [now rewrite insert_insert_eq|]. eauto.
Qed.

(** The statement above for the scenario. *)
Lemma curveFitting_stores_one_entry_example :
  (exists best,
     (fit_class shifting_solver scenario_x (ecdf_y 5)).2 = Normal best /\
     (<["A"%string := scenario_best]> empty_table) !! "A"%string = Some best) /\
  (forall other, other <> "A"%string ->
     (<["A"%string := scenario_best]> empty_table) !! other = empty_table !! other) /\
  dom (<["A"%string := scenario_best]> empty_table) = dom empty_table ∪ {["A"%string]} /\
  curveFitting shifting_solver scenario_x (ecdf_y 5) "A"
    (<["A"%string := scenario_best]> empty_table)
  = Normal (<["A"%string := scenario_best]> empty_table) /\
  (forall t2 : BestFitTable,
     exists t2', curveFitting shifting_solver scenario_x (ecdf_y 5) "A" t2 = Normal t2').
Proof.
  exact (curveFitting_stores_one_entry shifting_solver scenario_x (ecdf_y 5) "A"
           empty_table _ scenario_fit).
Defined.

(** ** The scheduler *)

(** The table once every thread has finished. *)
Lemma final_table (solver : Solver) (t0 : BestFitTable) (jobs : list Job) (s : Sched) :
  NoDup (job_class <$> jobs) ->
  rtc (job_step solver) (started t0 jobs) s -> running s = [] ->
  (forall j, j ∈ jobs ->
     table s !! job_class j = table_after solver j t0 !! job_class j) /\
  (forall cls, cls ∉ job_class <$> jobs -> table s !! cls = t0 !! cls).
Proof.
  intros Hnodup Hs Hrun.
  destruct (reachable_consistent solver t0 jobs s Hnodup Hs) as [Hacc _ Hunt Hrec].
  rewrite Hrun in Hacc. cbn in Hacc.
  split.
  - intros j Hj.
    assert (Hin : job_class j ∈ (finished s).*1).
    { rewrite Hacc. now apply list_elem_of_fmap_2. }
    apply list_elem_of_fmap in Hin as ([cls o] & Hcls & Hin). cbn in Hcls. subst cls.
    destruct (Hrec _ _ Hin) as (j' & Hj' & Hc & _ & Ht).
    assert (j = j') as <- by exact (same_class_same_job jobs j j' Hnodup Hj Hj' (eq_sym Hc)).
    exact Ht.
  - intros cls Hcls. apply Hunt. now rewrite Hacc.
Qed.

(** X16.  Once every thread of a call has finished the table does not
    depend on the order in which they finished: each class of the map
    holds what its own thread stores (or what the table held, if the
    thread threw), and every other class holds what the table held
    before the call. *)
Theorem final_table_does_not_depend_on_order (solver : Solver) (t0 : BestFitTable)
    (sorted_distances sorted_distances' : list (string * list R))
    (jobs : list Job) (s1 s2 : Sched) :
  NoDup sorted_distances.*1 ->
  launch sorted_distances = Normal (sorted_distances', jobs) ->
  rtc (job_step solver) (started t0 jobs) s1 -> running s1 = [] ->
  rtc (job_step solver) (started t0 jobs) s2 -> running s2 = [] ->
  table s1 = table s2 /\
  (forall j, j ∈ jobs ->
     table s1 !! job_class j = table_after solver j t0 !! job_class j) /\
  (forall cls, cls ∉ sorted_distances.*1 -> table s1 !! cls = t0 !! cls).
Proof.
  intros Hnodup Hlaunch Hs1 Hr1 Hs2 Hr2.
  rewrite <- (launch_classes _ _ _ Hlaunch) in *.
  destruct (final_table solver t0 jobs s1 Hnodup Hs1 Hr1) as [Hin1 Hout1].
  destruct (final_table solver t0 jobs s2 Hnodup Hs2 Hr2) as [Hin2 Hout2].
  split; [|split; assumption].
  apply map_eq. intros cls.
  destruct (decide (cls ∈ job_class <$> jobs)) as [Hcls|Hcls].
  - apply list_elem_of_fmap in Hcls as (j & -> & Hj). now rewrite Hin1, Hin2.
  - now rewrite Hout1, Hout2.
Qed.

Lemma both_finished_A_first_reached :
  rtc (job_step two_point_solver) (started empty_table [job_A; job_B]) both_finished_A_first.
Proof.
  eapply rtc_l; [exact (job_finishes two_point_solver empty_table [] [job_B] job_A [])|].
  apply rtc_once.
  exact (job_finishes two_point_solver _ [] [] job_B
           [("A"%string, future_of two_point_solver job_A)]).
Qed.

(** The statement above for the two orders in which "A" and "B" can
    finish. *)
Lemma final_table_does_not_depend_on_order_example :
  table both_finished = table both_finished_A_first /\
  (forall j, j ∈ [job_A; job_B] ->
     table both_finished !! job_class j
     = table_after two_point_solver j empty_table !! job_class j) /\
  (forall cls, cls ∉ two_classes.*1 -> table both_finished !! cls = empty_table !! cls).
Proof.
  exact (final_table_does_not_depend_on_order two_point_solver empty_table two_classes _
           [job_A; job_B] both_finished both_finished_A_first
           two_classes_distinct two_classes_launched
           both_finished_reached eq_refl both_finished_A_first_reached eq_refl).
Defined.

(** X17.  How a call of [fitClasses] ends.  One thread is started per
    entry of the map, and every thread is either joined or left
    unjoined.  The call returns 0 exactly when no thread's future holds
    an exception, and then every thread has been joined and nothing is
    reported.  It returns 1 exactly when the first thread, in join
    order, whose future holds an exception is the last of the order.  In
    every other case (threads come after that first one) the call does
    not return: the process is terminated.  Whenever a future holds an
    exception exactly one class is reported, the last one joined. *)
Theorem fitClasses_returns_or_terminates (solver : Solver)
    (threads_order : list Job -> list Job) (sorted_distances : list (string * list R)) :
  exists sorted_distances' jobs r,
    launch sorted_distances = Normal (sorted_distances', jobs) /\
    fitClasses solver threads_order sorted_distances = Normal (sorted_distances', r) /\
    job_class <$> jobs = sorted_distances.*1 /\
    joined r ++ not_joined r = job_class <$> threads_order jobs /\
    (destroy_threads r = Returns 0 <->
     Forall (fun j => forall msg, future_of solver j <> Throws msg) (threads_order jobs)) /\
    (destroy_threads r = Returns 1 <->
     exists before j msg,
       threads_order jobs = before ++ [j] /\
       Forall (fun j' => forall m, future_of solver j' <> Throws m) before /\
       future_of solver j = Throws msg) /\
    (destroy_threads r = Terminates <->
     exists before j msg after,
       threads_order jobs = before ++ j :: after /\ after <> [] /\
       Forall (fun j' => forall m, future_of solver j' <> Throws m) before /\
       future_of solver j = Throws msg) /\
    (forall value, destroy_threads r = Returns value -> value = 0%Z \/ value = 1%Z) /\
    (destroy_threads r = Returns 0 -> not_joined r = [] /\ console r = []) /\
    (destroy_threads r <> Returns 0 ->
     exists cls msg, console r = [ErrorReportOf cls msg] /\ last (joined r) = Some cls).
Proof.
  destruct (launch sorted_distances) as [[sd' jobs]| |] eqn:Hlaunch;
    [|rewrite launch_ok in Hlaunch; discriminate..].
  exists sd', jobs, (join_loop ((fun j => (job_class j, future_of solver j))
                                  <$> threads_order jobs)).
  split; [reflexivity|].
  split; [unfold fitClasses; now rewrite Hlaunch|].
  split; [now apply (launch_classes _ sd')|].
  change (fun j => forall msg, future_of solver j <> Throws msg) with (no_exception solver).
  destruct (first_exception_split solver (threads_order jobs))
    as [Hok|(before & j & msg & after & Heq & Hb & Hj)].
  - rewrite (join_loop_all_return solver _ Hok).
    cbn [joined not_joined console destroy_threads return_value].
    split; [now rewrite app_nil_r|].
    assert (Hno : forall before j msg after,
              threads_order jobs = before ++ j :: after ->
              future_of solver j = Throws msg -> False).
    { intros before j msg after Heq Hj. rewrite Heq in Hok.
      apply Forall_app in Hok as [_ Hok]. apply Forall_cons in Hok as [Hok _].
      now destruct (Hok msg). }
    split; [done|].
    split; [split; [discriminate|intros (b & j & m & Heq & _ & Hj); now destruct (Hno b j m [])]|].
    split; [split; [discriminate|
                    intros (b & j & m & a & Heq & _ & _ & Hj); now destruct (Hno b j m a)]|].
    split; [intros value [= <-]; now left|]. split; [done|]. intros H. now destruct H.
  - rewrite Heq, (join_loop_at_failure solver before j msg after Hb Hj).
    cbn [joined not_joined console return_value].
    split; [now rewrite <- app_assoc, fmap_app|].
    assert (Hend : destroy_threads
                     (JoinResultOf 1 ((job_class <$> before) ++ [job_class j])
                                   (job_class <$> after) [ErrorReportOf (job_class j) msg])
                   = match after with [] => Returns 1 | _ :: _ => Terminates end).
    { unfold destroy_threads. cbn [not_joined return_value]. now destruct after. }
    rewrite Hend.
    split.
    { split; [destruct after; discriminate|]. intros Hall.
      apply Forall_app in Hall as [_ Hall]. apply Forall_cons in Hall as [Hall _].
      now destruct (Hall msg). }
    split.
    { split.
      - intros Hret. destruct after; [|discriminate]. now exists before, j, msg.
      - intros (b & j' & m & Heq' & Hb' & Hj').
        destruct (first_exception_unique solver _ _ _ _ _ _ _ _ Heq' Hb Hj Hb' Hj')
          as (_ & _ & ->). done. }
    split.
    { split.
      - intros Hterm. destruct after as [|a after]; [discriminate|].
        now exists before, j, msg, (a :: after).
      - intros (b & j' & m & a & Heq' & Hne & Hb' & Hj').
        destruct (first_exception_unique solver _ _ _ _ _ _ _ _ Heq' Hb Hj Hb' Hj')
          as (_ & _ & ->). now destruct a. }
    split; [destruct after; [intros value [= <-]; now right|discriminate]|].
    split; [destruct after; discriminate|].
    intros _. exists (job_class j), msg. split; [done|apply last_snoc].
Qed.

(** X18.  [fitClasses] is not idempotent on the caller's map: a second
    call on the map the first one left inserts the two boundary points
    again, so every vector ends four elements longer than it began. *)
Theorem fitClasses_twice_augments_twice (solver : Solver)
    (order1 order2 : list Job -> list Job) (sorted_distances : list (string * list R)) :
  exists sd1 r1 sd2 r2,
    fitClasses solver order1 sorted_distances = Normal (sd1, r1) /\
    fitClasses solver order2 sd1 = Normal (sd2, r2) /\
    sd2 = (fun entry => (entry.1, 0 :: 0 :: entry.2 ++ [1; 1])) <$> sorted_distances /\
    Forall2 (fun entry entry2 => length entry2.2 = (length entry.2 + 4)%nat)
            sorted_distances sd2.
Proof.
  eexists _, _, _, _. unfold fitClasses. rewrite !launch_ok. cbn [mbind outcome_bind].
  split; [reflexivity|]. split; [reflexivity|].
  assert (Heq : (fun p : string * list R => (p.1, 0 :: p.2 ++ [1])) <$>
                ((fun p : string * list R => (p.1, 0 :: p.2 ++ [1])) <$> sorted_distances)
                = (fun entry => (entry.1, 0 :: 0 :: entry.2 ++ [1; 1])) <$> sorted_distances).
  { rewrite <- list_fmap_compose. apply list_fmap_ext. intros _ [name d] _. cbn.
    now rewrite <- app_assoc. }
  rewrite Heq. split; [reflexivity|].
  apply Forall2_fmap_r, Forall_Forall2_diag, Forall_forall. intros [name d] _.
  unfold compose. cbn [fst snd length]. rewrite length_app. cbn [length]. lia.
Qed.
